(** * Videolnsight pro: thumbnail work queue and plugin lifecycle

    A shallow embedding of the bookkeeping code of [VideoInfoViewer]
    (file [Videolnsight pro-v1.py]) and of [PluginHubDialog.bulk_set_enabled]
    (file [PluginVault Pro.py]), with the properties of the design document
    proved or refuted on it.

    Python values are modelled as follows.
    - [str] is a list of Unicode code points ([N]).
    - [dict] is stdpp's [gmap], [set] is [gset], [list] is [list].
    - [int] is [Z].
    - Calls on Qt objects and on plugin code are recorded in an effect log
      that is carried in the state. *)

From Stdlib Require Import String Ascii.
From stdpp Require Import gmap list sorting pretty.

Local Open Scope Z_scope.

(** ** Strings *)

Abbreviation str := (list N).

(** A literal: the code points of an ASCII string. *)
Definition lit (s : string) : str := N_of_ascii <$> list_ascii_of_string s.

(** ** The thumbnail work queue *)

Module Thumbs.

(** A [QListWidgetItem] is an opaque object; it is identified by a number. *)
Abbreviation item := nat.

(** Calls made on objects outside the queue bookkeeping. A
    [ThumbnailGeneratorThread] is identified by the file path it was
    constructed with. *)
Inductive effect :=
| ThreadStart (file_path : str)
| ThreadStop (file_path : str)
| ThreadWait (file_path : str)
| SetIcon (it : item).

Global Instance effect_eq_dec : EqDecision effect.
Proof. solve_decision. Defined.

(** The fields of [VideoInfoViewer] that the queue code reads and writes.
    [next_item] numbers the [QListWidgetItem] objects created so far. *)
Record viewer := Viewer {
  video_files : list str;
  thumbnail_threads : gmap str item;
  thumbnail_queue : list (str * item);
  max_concurrent_thumbnails : Z;
  active_thumbnail_threads : Z;
  next_item : item;
  log : list effect
}.

Definition set_video_files (v : list str) (s : viewer) : viewer :=
  Viewer v (thumbnail_threads s) (thumbnail_queue s)
    (max_concurrent_thumbnails s) (active_thumbnail_threads s)
    (next_item s) (log s).

Definition set_threads (t : gmap str item) (s : viewer) : viewer :=
  Viewer (video_files s) t (thumbnail_queue s)
    (max_concurrent_thumbnails s) (active_thumbnail_threads s)
    (next_item s) (log s).

Definition set_queue (q : list (str * item)) (s : viewer) : viewer :=
  Viewer (video_files s) (thumbnail_threads s) q
    (max_concurrent_thumbnails s) (active_thumbnail_threads s)
    (next_item s) (log s).

Definition set_active (a : Z) (s : viewer) : viewer :=
  Viewer (video_files s) (thumbnail_threads s) (thumbnail_queue s)
    (max_concurrent_thumbnails s) a (next_item s) (log s).

Definition set_next_item (n : item) (s : viewer) : viewer :=
  Viewer (video_files s) (thumbnail_threads s) (thumbnail_queue s)
    (max_concurrent_thumbnails s) (active_thumbnail_threads s) n (log s).

Definition emit (es : list effect) (s : viewer) : viewer :=
  Viewer (video_files s) (thumbnail_threads s) (thumbnail_queue s)
    (max_concurrent_thumbnails s) (active_thumbnail_threads s)
    (next_item s) (log s ++ es).

(** [VideoInfoViewer.__init__]: the queue fields. *)
Definition init : viewer :=
  Viewer [] ∅ [] 3 0 0%nat [].

(** The body of the [while] loop of [process_thumbnail_queue] after the
    [continue] test: construct the thread, record it, start it, count it. *)
Definition start_thread (file_path : str) (it : item) (s : viewer) : viewer :=
  set_active (active_thumbnail_threads s + 1)
    (emit [ThreadStart file_path]
       (set_threads (<[file_path := it]> (thumbnail_threads s)) s)).

(** The [while] loop of [process_thumbnail_queue]. [pending] is the current
    value of [self.thumbnail_queue]; every iteration pops its head, so the
    loop is structural in it. The queue field is written back on exit. *)
Fixpoint admit_loop (pending : list (str * item)) (s : viewer) : viewer :=
  match pending with
  | [] => set_queue [] s
  | (file_path, it) :: rest =>
      if active_thumbnail_threads s <? max_concurrent_thumbnails s then
        match thumbnail_threads s !! file_path with
        | Some _ => admit_loop rest s
        | None => admit_loop rest (start_thread file_path it s)
        end
      else set_queue pending s
  end.

Definition process_thumbnail_queue (s : viewer) : viewer :=
  admit_loop (thumbnail_queue s) s.

Definition queue_thumbnail_generation (file_path : str) (it : item)
    (s : viewer) : viewer :=
  match thumbnail_threads s !! file_path with
  | Some _ => s
  | None =>
      process_thumbnail_queue
        (set_queue (thumbnail_queue s ++ [(file_path, it)]) s)
  end.

Definition on_thumbnail_generated (file_path : str) (s : viewer) : viewer :=
  match thumbnail_threads s !! file_path with
  | Some it =>
      process_thumbnail_queue
        (set_active (active_thumbnail_threads s - 1)
           (emit [SetIcon it; ThreadWait file_path]
              (set_threads (delete file_path (thumbnail_threads s)) s)))
  | None => s
  end.

Definition on_thumbnail_error (file_path : str) (s : viewer) : viewer :=
  match thumbnail_threads s !! file_path with
  | Some _ =>
      process_thumbnail_queue
        (set_active (active_thumbnail_threads s - 1)
           (emit [ThreadWait file_path]
              (set_threads (delete file_path (thumbnail_threads s)) s)))
  | None => s
  end.

(** [clear_file_list]. The threads are stopped in the iteration order of
    the table (Python: insertion order; here: the order of [map_to_list],
    which no property below depends on). *)
Definition clear_file_list (s : viewer) : viewer :=
  let stops :=
    flat_map (λ kv : str * item, [ThreadStop kv.1; ThreadWait kv.1])
             (map_to_list (thumbnail_threads s)) in
  set_video_files []
    (set_active 0 (set_queue [] (set_threads ∅ (emit stops s)))).

(** [list.remove]: drops the first occurrence. *)
Fixpoint list_remove (x : str) (l : list str) : list str :=
  match l with
  | [] => []
  | y :: l' => if decide (x = y) then l' else y :: list_remove x l'
  end.

(** One iteration of the loop of [remove_selected_files], for a selected
    item whose user data is [file_path]. *)
Definition remove_one (s : viewer) (file_path : str) : viewer :=
  let s1 :=
    if decide (file_path ∈ video_files s)
    then set_video_files (list_remove file_path (video_files s)) s
    else s in
  match thumbnail_threads s1 !! file_path with
  | Some _ =>
      process_thumbnail_queue
        (set_active (active_thumbnail_threads s1 - 1)
           (emit [ThreadStop file_path; ThreadWait file_path]
              (set_threads (delete file_path (thumbnail_threads s1)) s1)))
  | None => s1
  end.

(** [remove_selected_files]; [selected] lists the user data of the selected
    items. *)
Definition remove_selected_files (selected : list str) (s : viewer) : viewer :=
  foldl remove_one s selected.

(** One iteration of the loop of [add_files_to_list]. *)
Definition add_one (s : viewer) (file_path : str) : viewer :=
  if decide (file_path ∈ video_files s) then s
  else
    let it := next_item s in
    queue_thumbnail_generation file_path it
      (set_next_item (S it)
         (set_video_files (video_files s ++ [file_path]) s)).

Definition add_files_to_list (files : list str) (s : viewer) : viewer :=
  foldl add_one s files.

(** The entry points through which the queue is driven. *)
Inductive op :=
| AddFiles (files : list str)
| Enqueue (file_path : str) (it : item)
| Generated (file_path : str)
| Failed (file_path : str)
| RemoveSelected (selected : list str)
| ClearList.

Definition step (s : viewer) (o : op) : viewer :=
  match o with
  | AddFiles files => add_files_to_list files s
  | Enqueue file_path it => queue_thumbnail_generation file_path it s
  | Generated file_path => on_thumbnail_generated file_path s
  | Failed file_path => on_thumbnail_error file_path s
  | RemoveSelected selected => remove_selected_files selected s
  | ClearList => clear_file_list s
  end.

Definition run (ops : list op) : viewer := foldl step init ops.

(** *** Vocabulary of the statements *)

(** The counter is the size of the thread table and does not pass the
    ceiling. *)
Record inv (s : viewer) : Prop := Inv {
  inv_count : active_thumbnail_threads s = Z.of_nat (size (thumbnail_threads s));
  inv_ceiling : active_thumbnail_threads s ≤ max_concurrent_thumbnails s
}.

(** [file_path] has an active job: it is a key of the thread table. *)
Definition active (s : viewer) (file_path : str) : Prop :=
  is_Some (thumbnail_threads s !! file_path).

(** [file_path] has a job waiting in state [s], or entry point [o] submits
    one for it. *)
Definition queued (o : op) (s : viewer) (file_path : str) : Prop :=
  file_path ∈ (thumbnail_queue s).*1
  ∨ match o with
    | AddFiles files => file_path ∈ files
    | Enqueue f _ => file_path = f
    | _ => False
    end.

(** Entry point [o] reports the end of the job of [file_path] or removes
    its file. *)
Definition released (o : op) (file_path : str) : Prop :=
  match o with
  | Generated f | Failed f => file_path = f
  | RemoveSelected selected => file_path ∈ selected
  | ClearList => True
  | _ => False
  end.

(** Every job active or waiting in [s] was active in [s0] or is one of
    [Q]. *)
Definition sources_in (Q : str → Prop) (s0 s : viewer) : Prop :=
  (∀ f, active s f → active s0 f ∨ Q f)
  ∧ (∀ f, f ∈ (thumbnail_queue s).*1 → Q f).


(** How many times a thread was started for [file_path]. *)
Definition starts_of (file_path : str) (s : viewer) : nat :=
  length (filter (λ e, e = ThreadStart file_path) (log s)).

(** How many waiting entries there are for [file_path]. *)
Definition waiting_of (file_path : str) (s : viewer) : nat :=
  length (filter (λ job, job.1 = file_path) (thumbnail_queue s)).


(** Entry point [o] is the end of the job of [file_path]: its thread
    reports a thumbnail or an error, or its file is the one removed. *)
Definition ends_job (o : op) (file_path : str) : Prop :=
  o = Generated file_path ∨ o = Failed file_path
  ∨ o = RemoveSelected [file_path].

(** The calls entry point [o] makes on the thread and the item [it] of a
    job it ends, before it turns to the waiting jobs. *)
Definition release_effects (o : op) (it : item) : list effect :=
  match o with
  | Generated f => [SetIcon it; ThreadWait f]
  | Failed f => [ThreadWait f]
  | RemoveSelected selected =>
      flat_map (λ f, [ThreadStop f; ThreadWait f]) selected
  | _ => []
  end.

End Thumbs.

(** ** Python string and path primitives *)

Module Py.

Local Open Scope N_scope.

(** [str.isspace] on one code point (CPython's [_PyUnicode_IsWhitespace]). *)
Definition isspace (c : N) : bool :=
  (9 <=? c) && (c <=? 13) || (28 <=? c) && (c <=? 32) || (c =? 133)
  || (c =? 160) || (c =? 5760) || (8192 <=? c) && (c <=? 8202)
  || (c =? 8232) || (c =? 8233) || (c =? 8239) || (c =? 8287)
  || (c =? 12288).

Fixpoint lstrip (p : N → bool) (s : str) : str :=
  match s with
  | [] => []
  | c :: r => if p c then lstrip p r else s
  end.

Definition rstrip (p : N → bool) (s : str) : str :=
  reverse (lstrip p (reverse s)).

Definition strip_with (p : N → bool) (s : str) : str := rstrip p (lstrip p s).

(** [s.strip()] *)
Definition strip (s : str) : str := strip_with isspace s.

(** [s.strip(chars)] *)
Definition strip_chars (chars : str) (s : str) : str :=
  strip_with (λ c, bool_decide (c ∈ chars)) s.

Fixpoint startswith (p s : str) : bool :=
  match p, s with
  | [], _ => true
  | _ :: _, [] => false
  | a :: p', b :: s' => (a =? b) && startswith p' s'
  end.

Definition endswith (suffix s : str) : bool :=
  startswith (reverse suffix) (reverse s).

(** [needle in hay] *)
Fixpoint contains (needle hay : str) : bool :=
  startswith needle hay
  || match hay with
     | [] => false
     | _ :: hay' => contains needle hay'
     end.

(** [s.split(sep)] for a separator of one code point. *)
Fixpoint split (sep : N) (s : str) : list str :=
  match s with
  | [] => [[]]
  | c :: r =>
      if c =? sep then [] :: split sep r
      else match split sep r with
           | w :: ws => (c :: w) :: ws
           | [] => [[c]]
           end
  end.

(** [s.split(sep, 1)] for a separator of one code point. *)
Fixpoint split1 (sep : N) (s : str) : list str :=
  match s with
  | [] => [[]]
  | c :: r =>
      if c =? sep then [[]; r]
      else match split1 sep r with
           | w :: ws => (c :: w) :: ws
           | [] => [[c]]
           end
  end.

(** [sep.join(l)] *)
Fixpoint join (sep : str) (l : list str) : str :=
  match l with
  | [] => []
  | [x] => x
  | x :: l' => x ++ sep ++ join sep l'
  end.

(** Comparison of [str] values: lexicographic on code points. *)
Fixpoint str_le (a b : str) : bool :=
  match a, b with
  | [], _ => true
  | _ :: _, [] => false
  | x :: a', y :: b' => (x <? y) || (x =? y) && str_le a' b'
  end.

(** [sorted(names_set)] *)
Definition sorted (names : gset str) : list str :=
  merge_sort (λ a b, Is_true (str_le a b)) (elements names).

(** [f.readline()] on a text stream whose remaining content is [text]
    (decoded, newlines already translated): the line and the rest. *)
Fixpoint readline (text : str) : str * str :=
  match text with
  | [] => ([], [])
  | c :: r =>
      if c =? 10 then ([c], r)
      else let '(l, r') := readline r in (c :: l, r')
  end.

(** [s.rfind(c)] for one code point: the last index, or -1. *)
Fixpoint rfind_from (c : N) (s : str) (i : Z) (acc : Z) : Z :=
  match s with
  | [] => acc
  | x :: r => rfind_from c r (i + 1)%Z (if x =? c then i else acc)
  end.

Definition rfind (c : N) (s : str) : Z := rfind_from c s 0%Z (-1)%Z.

(** [p[i:j]] for [0 <= i]. *)
Definition slice (p : str) (i j : Z) : str :=
  take (Z.to_nat j - Z.to_nat i)%nat (drop (Z.to_nat i) p).

(** [os.path.splitext(p)[0]] ([posixpath]: [genericpath._splitext] with
    separator [/] and extension separator [.]). *)
Definition splitext_root (p : str) : str :=
  let sepIndex := rfind 47 p in
  let dotIndex := rfind 46 p in
  if (sepIndex <? dotIndex)%Z
     && existsb (λ c, negb (c =? 46)) (slice p (sepIndex + 1)%Z dotIndex)
  then take (Z.to_nat dotIndex) p
  else p.

(** [os.path.join(a, b)] ([posixpath]). *)
Definition path_join (a b : str) : str :=
  if startswith [47] b then b
  else if bool_decide (a = []) || endswith [47] a then a ++ b
  else a ++ [47] ++ b.

End Py.

(** ** Plugin discovery, loading and the enabled set *)

Module Plugins.

Import Py.

(** What a raised object derives from: [except Exception] catches the
    first kind only ([SystemExit], [KeyboardInterrupt] are of the second). *)
Inductive exn := Exception | BaseExceptionOnly.

Inductive outcome (A : Type) :=
| Returns (a : A)
| Raises (e : exn).
Arguments Returns {A} a.
Arguments Raises {A} e.

(** A value returned by plugin code; the host never looks inside. *)
Inductive pyvalue := PyNone | PyObj (id : nat).

(** A module object as the host uses it. [mod_register] is [Some] when the
    module has a callable attribute [register]; its content is the outcome
    of [module.register(self)]. Likewise [mod_unregister] for
    [module.unregister(self, handle)]. Plugin code is taken not to write the
    host's plugin tables itself. *)
Record pymodule := PyModule {
  mod_register : option (outcome pyvalue);
  mod_unregister : option (pyvalue → outcome unit)
}.

(** The dict [{"path": path}] *)
Record plugin_meta := PluginMeta { path : str }.

(** The dict [{"module": module, "handle": handle}] *)
Record loaded_item := LoadedItem { module : pymodule; handle : pyvalue }.

Global Instance pyvalue_eq_dec : EqDecision pyvalue.
Proof. solve_decision. Defined.

Inductive effect :=
| ExecModule (modname file : str)
| CallRegister (name : str)
| CallUnregister (name : str) (h : pyvalue)
| PrintTraceback
| MessageBoxCritical (name : str)
| StatusLoaded (name : str)
| StatusBulk (on : bool) (count : nat)
| MakeDirs (dir : str).

Global Instance effect_eq_dec : EqDecision effect.
Proof. solve_decision. Defined.

(** The fields of [VideoInfoViewer] used by the plugin code.
    [plugins_enabled] is the value stored by [QSettings] under the key
    [plugins/enabled] (the empty string when absent). [status_bar_visible]
    is [hasattr(self, 'status_bar') and self.status_bar.isVisible()]. *)
Record host := Host {
  plugins_dir : str;
  plugins_found : gmap str plugin_meta;
  plugins_loaded : gmap str loaded_item;
  plugins_enabled : str;
  status_bar_visible : bool;
  log : list effect
}.

Definition set_found (f : gmap str plugin_meta) (h : host) : host :=
  Host (plugins_dir h) f (plugins_loaded h) (plugins_enabled h)
    (status_bar_visible h) (log h).

Definition set_loaded (l : gmap str loaded_item) (h : host) : host :=
  Host (plugins_dir h) (plugins_found h) l (plugins_enabled h)
    (status_bar_visible h) (log h).

Definition set_enabled (raw : str) (h : host) : host :=
  Host (plugins_dir h) (plugins_found h) (plugins_loaded h) raw
    (status_bar_visible h) (log h).

Definition add_log (es : list effect) (h : host) : host :=
  Host (plugins_dir h) (plugins_found h) (plugins_loaded h)
    (plugins_enabled h) (status_bar_visible h) (log h ++ es).

(** Host code that may raise: the state survives a raise. *)
Definition M (A : Type) : Type := host → outcome A * host.

Definition ret {A} (a : A) : M A := λ h, (Returns a, h).

Definition bind {A B} (m : M A) (k : A → M B) : M B :=
  λ h, match m h with
       | (Returns a, h') => k a h'
       | (Raises e, h') => (Raises e, h')
       end.

Notation "x <- m ;; k" := (bind m (λ x, k))
  (at level 100, m at next level, right associativity).
Notation "m ;;; k" := (bind m (λ _, k))
  (at level 100, right associativity).

Definition modify (f : host → host) : M unit := λ h, (Returns tt, f h).

Definition emit (es : list effect) : M unit := modify (add_log es).

Definition lift {A} (o : outcome A) : M A := λ h, (o, h).

(** [try: body / except Exception: handler] *)
Definition try_except {A} (body handler : M A) : M A :=
  λ h, match body h with
       | (Raises Exception, h') => handler h'
       | r => r
       end.

(** [for x in l: f(x)] *)
Fixpoint for_each {A} (l : list A) (f : A → M unit) : M unit :=
  match l with
  | [] => ret tt
  | x :: l' => f x ;;; for_each l' f
  end.

Definition when (b : bool) (m : M unit) : M unit := if b then m else ret tt.

(** [_read_enabled_plugins] *)
Definition _read_enabled_plugins (h : host) : gset str :=
  let raw := plugins_enabled h in
  let names :=
    omap (λ s, if bool_decide (strip s = []) then None else Some (strip s))
         (split 44 raw) in
  list_to_set names.

(** [_write_enabled_plugins] *)
Definition _write_enabled_plugins (names_set : gset str) (h : host) : host :=
  let raw := join [44%N] (sorted names_set) in
  set_enabled raw h.

(** The characters of the argument of [strip] in [scan_plugins]: double
    quote, single quote, space. *)
Definition quote_chars : str := [34; 39; 32]%N.

(** The [for _ in range(40)] loop of [scan_plugins] on the text of one file.
    [None]: an exception was raised; [Some name]: the value of [name] after
    the loop. *)
Fixpoint scan_lines (n : nat) (text : str) : option (option str) :=
  match n with
  | O => Some None
  | S n' =>
      let '(line, rest) := readline text in
      if bool_decide (line = []) then Some None
      else if contains (lit "PLUGIN_NAME") line && contains (lit "=") line
      then part ← split1 61 line !! 1%nat;
           Some (Some (strip_chars quote_chars (strip part)))
      else scan_lines n' rest
  end.

(** The plugins directory: missing, or a listing in the order of
    [os.listdir]; each entry is a file name with the text [open] and
    [readline] deliver, or [None] when they raise. *)
Inductive directory :=
| NoDir
| Dir (entries : list (str * option str)).

(** One iteration of the [for fn in os.listdir(...)] loop. *)
Definition scan_entry (dir : str) (found : gmap str plugin_meta)
    (e : str * option str) : gmap str plugin_meta :=
  let fn := e.1 in
  if negb (endswith (lit ".py") fn) then found
  else
    let path := path_join dir fn in
    match e.2 ≫= scan_lines 40 with
    | None => found
    | Some name =>
        let name :=
          match name with
          | Some (c :: n) => c :: n
          | _ => splitext_root fn
          end in
        <[name := PluginMeta path]> found
    end.

(** [scan_plugins] *)
Definition scan_plugins (d : directory) (h : host) : host :=
  match d with
  | NoDir => add_log [MakeDirs (plugins_dir h)] (set_found ∅ h)
  | Dir entries =>
      set_found (foldl (scan_entry (plugins_dir h)) ∅ entries) h
  end.

(** [f"vip_plugin_{name}"] *)
Definition module_name (name : str) : str := lit "vip_plugin_" ++ name.

Section Lifecycle.

(** [spec_from_file_location], [module_from_spec] and [exec_module] for a
    module name and a file: the module object, or what was raised. *)
Variable import_file : str → str → outcome pymodule.

(** [load_plugin] *)
Definition load_plugin (name : str) : M bool :=
  λ h,
    match plugins_loaded h !! name with
    | Some _ => (Returns true, h)
    | None =>
        match plugins_found h !! name with
        | None => (Returns false, h)
        | Some meta =>
            try_except
              (emit [ExecModule (module_name name) (path meta)] ;;;
               m <- lift (import_file (module_name name) (path meta)) ;;
               hd <- match mod_register m with
                     | Some r => emit [CallRegister name] ;;; lift r
                     | None => ret PyNone
                     end ;;
               modify (λ h', set_loaded
                               (<[name := LoadedItem m hd]> (plugins_loaded h'))
                               h') ;;;
               (λ h', when (status_bar_visible h')
                           (emit [StatusLoaded name]) h') ;;;
               ret true)
              (emit [PrintTraceback; MessageBoxCritical name] ;;; ret false)
              h
        end
    end.

(** [unload_plugin] *)
Definition unload_plugin (name : str) : M unit :=
  λ h,
    match plugins_loaded h !! name with
    | None => (Returns tt, h)
    | Some it =>
        try_except
          (match mod_unregister (module it) with
           | Some u => emit [CallUnregister name (handle it)] ;;;
                       lift (u (handle it))
           | None => ret tt
           end)
          (emit [PrintTraceback])
          (set_loaded (delete name (plugins_loaded h)) h)
    end.

(** The first loop of [bulk_set_enabled]: one name. *)
Definition toggle (on : bool) (acc : gset str * bool) (n : str)
    : gset str * bool :=
  let acc1 :=
    if on && bool_decide (n ∉ acc.1) then (acc.1 ∪ {[n]}, true) else acc in
  if negb on && bool_decide (n ∈ acc1.1) then (acc1.1 ∖ {[n]}, true)
  else acc1.

(** [PluginHubDialog.bulk_set_enabled]; [names] is the list gathered from
    the selected visible rows. *)
Definition bulk_set_enabled (names : list str) (on : bool) : M unit :=
  λ h,
    let current := _read_enabled_plugins h in
    let '(current, changed) := foldl (toggle on) (current, false) names in
    if changed then
      (modify (_write_enabled_plugins current) ;;;
       (if on then
          for_each names (λ n h',
            match plugins_found h' !! n with
            | Some _ => (_ <- load_plugin n ;; ret tt) h'
            | None => ret tt h'
            end)
        else
          for_each names (λ n h',
            match plugins_loaded h' !! n with
            | Some _ => unload_plugin n h'
            | None => ret tt h'
            end)) ;;;
       (λ h', when (status_bar_visible h')
                   (emit [StatusBulk on (length names)]) h')) h
    else (Returns tt, h).

End Lifecycle.

(** *** Vocabulary of the statements *)

(** The lines of a text, each with its newline if it has one. *)
Fixpoint lines (text : str) : list str :=
  match text with
  | [] => []
  | c :: r =>
      if (c =? 10)%N then [c] :: lines r
      else match lines r with
           | [] => [[c]]
           | l :: ls => (c :: l) :: ls
           end
  end.

(** A line that mentions [PLUGIN_NAME] and has an equals sign. *)
Definition is_declaration (line : str) : bool :=
  contains (lit "PLUGIN_NAME") line && contains (lit "=") line.

(** What follows the first occurrence of [c]. *)
Fixpoint after_first (c : N) (s : str) : str :=
  match s with
  | [] => []
  | x :: r => if (x =? c)%N then r else after_first c r
  end.

(** The text after the first equals sign of a line, without surrounding
    whitespace and then without surrounding quotes and spaces. *)
Definition declared_value (line : str) : str :=
  strip_chars quote_chars (strip (after_first 61 line)).

(** The name of a readable plugin file: the declared value of the first
    declaration line among its first 40 lines when that value is not empty,
    else the file name without its extension. *)
Definition plugin_name (fn text : str) : str :=
  match List.find is_declaration (take 40 (lines text)) with
  | Some line =>
      match declared_value line with
      | [] => splitext_root fn
      | c :: n => c :: n
      end
  | None => splitext_root fn
  end.

(** What one directory entry contributes to a scan: nothing unless it is a
    readable [.py] file. *)
Definition candidate (dir : str) (e : str * option str)
    : option (str * plugin_meta) :=
  if endswith (lit ".py") e.1
  then text ← e.2; Some (plugin_name e.1 text, PluginMeta (path_join dir e.1))
  else None.

Definition candidates (dir : str) (entries : list (str * option str))
    : list (str * plugin_meta) :=
  omap (candidate dir) entries.


(** A map built by inserting the pairs of a list from left to right. *)
Definition inserted (l : list (str * plugin_meta)) : gmap str plugin_meta :=
  list_to_map (reverse l).

(** A file whose only line is [PLUGIN_NAME = "Alpha"]. *)
Definition alpha_text : str :=
  lit "PLUGIN_NAME = " ++ [34%N] ++ lit "Alpha" ++ [34%N; 10%N].

(** A file without a declaration. *)
Definition plain_text : str :=
  lit "import os" ++ [10%N] ++ lit "x = 1" ++ [10%N].

(** A host as [__init__] leaves it, with the plugins directory [/p]. *)
Definition fresh_host : host := Host (lit "/p") ∅ ∅ [] true [].

(** A name the enabled set can hold: not empty, without comma, without
    whitespace at either end. *)
Definition well_formed_name (n : str) : Prop :=
  n ≠ [] ∧ (44%N ∉ n) ∧ strip n = n.

(** A string does not begin with a character of [p]. *)
Definition head_kept (p : N → bool) (s : str) : Prop :=
  match s with
  | [] => True
  | c :: _ => p c = false
  end.

(** A computation that leaves the stored enabled string alone. *)
Definition keeps_enabled {A} (m : M A) : Prop :=
  ∀ h, plugins_enabled (m h).2 = plugins_enabled h.

(** Plugin files for the examples: [/p/good.py] imports and its [register]
    returns an object; [/p/bad.py] imports and its [register] raises an
    error; any other file fails to import. *)
Definition sample_import (modname file : str) : outcome pymodule :=
  if bool_decide (file = lit "/p/good.py")
  then Returns (PyModule (Some (Returns (PyObj 7))) None)
  else if bool_decide (file = lit "/p/bad.py")
  then Returns (PyModule (Some (Raises Exception)) None)
  else Raises Exception.

(** A host that has found the two plugins and loaded none. *)
Definition sample_host : host :=
  Host (lit "/p")
    {[ lit "Good" := PluginMeta (lit "/p/good.py");
       lit "Bad" := PluginMeta (lit "/p/bad.py") ]}
    ∅ [] true [].

(** A file whose only line is [PLUGIN_NAME = "<TAB>Tool"]. *)
Definition tab_text : str :=
  lit "PLUGIN_NAME = " ++ [34%N; 9%N] ++ lit "Tool" ++ [34%N; 10%N].

(** [name] is in the loaded set. *)
Definition loaded (h : host) (name : str) : Prop :=
  is_Some (plugins_loaded h !! name).

(** How many times [register] of plugin [name] was called. *)
Definition registrations (name : str) (h : host) : nat :=
  length (filter (λ e, e = CallRegister name) (log h)).

End Plugins.

(** ** Further vocabulary for the thumbnail work queue *)

Module ThumbsExt.

Import Thumbs.

(** How many times [wait] was called on a thread of [file_path]. *)
Definition waits_of (file_path : str) (s : viewer) : nat :=
  length (filter (λ e, e = ThreadWait file_path) (log s)).

(** 1 when [file_path] has a thread in the table, else 0. *)
Definition running (s : viewer) (file_path : str) : nat :=
  match thumbnail_threads s !! file_path with
  | Some _ => 1
  | None => 0
  end.

(** No slot is idle while a job waits. *)
Definition saturated (s : viewer) : Prop :=
  thumbnail_queue s ≠ [] →
  max_concurrent_thumbnails s ≤ active_thumbnail_threads s.

(** Every thread started for [file_path] was waited for, except the one
    still in the table. *)
Definition accounted (file_path : str) (s : viewer) : Prop :=
  starts_of file_path s = (waits_of file_path s + running s file_path)%nat.

End ThumbsExt.

(** ** Callers of the plugin lifecycle *)

Module PluginOps.

Import Py Plugins.

(** A field of the host that a computation leaves as it is. *)
Definition keeps {A B} (field : host → B) (m : M A) : Prop :=
  ∀ h, field (m h).2 = field h.

(** A field that neither logging nor writing the loaded table changes. *)
Definition inert {B} (field : host → B) : Prop :=
  (∀ es h, field (add_log es h) = field h)
  ∧ (∀ l h, field (set_loaded l h) = field h).

Section Callers.

Variable import_file : str → str → outcome pymodule.

(** [if name in self.plugins_found: self.load_plugin(name)] *)
Definition load_if_found (name : str) : M unit :=
  λ h, match plugins_found h !! name with
       | Some _ => (_ <- load_plugin import_file name ;; ret tt) h
       | None => ret tt h
       end.

(** The loop over the enabled names that [load_plugins_on_start] and
    [reload_plugins] share. The names are visited in the order of
    [elements] (Python: the iteration order of the set). *)
Definition load_enabled : M unit :=
  λ h, for_each (elements (_read_enabled_plugins h)) load_if_found h.

(** [load_plugins_on_start]; [d] is the plugins directory at that time. *)
Definition load_plugins_on_start (d : directory) : M unit :=
  modify (scan_plugins d) ;;; load_enabled.

(** [reload_plugins]. The loaded plugins are unloaded in the order of
    [map_to_list] (Python: insertion order of the dict). *)
Definition reload_plugins (d : directory) : M unit :=
  (λ h, for_each (map_to_list (plugins_loaded h)).*1 unload_plugin h) ;;;
  modify (scan_plugins d) ;;;
  load_enabled.

(** [PluginManagerDialog.refresh] after its call of [scan_plugins]: the
    list items, one per found name in sorted order, as pairs of text and
    check state. *)
Definition dialog_items (h : host) : list (str * bool) :=
  (λ name, (name, bool_decide (name ∈ _read_enabled_plugins h)))
    <$> sorted (dom (plugins_found h)).

(** The user flips the check boxes of the items named in [toggled]. *)
Definition user_toggles (toggled : gset str) (items : list (str * bool))
    : list (str * bool) :=
  (λ it : str * bool,
     (it.1, if bool_decide (it.1 ∈ toggled) then negb it.2 else it.2))
    <$> items.

(** [PluginManagerDialog.get_enabled_set] *)
Definition get_enabled_set (items : list (str * bool)) : gset str :=
  foldl (λ (s : gset str) (it : str * bool),
           if it.2 then s ∪ {[ it.1 ]} else s) ∅ items.

(** [open_plugins_manager]. Constructing the dialog scans directory [d];
    then the user toggles items and accepts or cancels. The closing
    status-bar message is not recorded. *)
Definition open_plugins_manager (d : directory) (toggled : gset str)
    (accepted : bool) : M unit :=
  modify (scan_plugins d) ;;;
  (λ h,
     if accepted then
       let new_enabled := get_enabled_set (user_toggles toggled (dialog_items h)) in
       let old_enabled := _read_enabled_plugins h in
       (modify (_write_enabled_plugins new_enabled) ;;;
        for_each (elements (old_enabled ∖ new_enabled)) unload_plugin ;;;
        for_each (elements (new_enabled ∖ old_enabled)) load_if_found) h
     else ret tt h).

(** [os.path.exists(path)] followed, when it holds, by
    [_safe_move_to_removed(path, plugins_dir)]: returns, or raises. *)
Variable remove_file : str → outcome unit.

(** The body of the [try] in the loop of [PluginHubDialog.bulk_remove] for
    one row of the table. *)
Definition remove_row_body (name file : str) : M unit :=
  (λ h, match plugins_loaded h !! name with
        | Some _ => unload_plugin name h
        | None => ret tt h
        end) ;;;
  (λ h, let enabled := _read_enabled_plugins h in
        if bool_decide (name ∈ enabled)
        then modify (_write_enabled_plugins (enabled ∖ {[ name ]})) h
        else ret tt h) ;;;
  lift (remove_file file).

(** The loop of [bulk_remove]; the result is [len(names_to_remove)]. *)
Fixpoint remove_rows (rows : list (str * str)) : M nat :=
  match rows with
  | [] => ret 0%nat
  | (name, file) :: rows' =>
      ok <- try_except (remove_row_body name file ;;; ret 1%nat)
              (emit [PrintTraceback; MessageBoxCritical name] ;;; ret 0%nat) ;;
      n <- remove_rows rows' ;;
      ret (ok + n)%nat
  end.

(** [PluginHubDialog.bulk_remove]: [rows] are the name and path columns of
    the selected rows, [confirmed] the answer to the question box, [d] the
    plugins directory when the table is refreshed. The result is the number
    shown in the status bar. *)
Definition bulk_remove (rows : list (str * str)) (confirmed : bool)
    (d : directory) : M nat :=
  match rows with
  | [] => ret 0%nat
  | _ :: _ =>
      if confirmed then
        n <- remove_rows rows ;;
        modify (scan_plugins d) ;;;
        ret n
      else ret 0%nat
  end.

(** The plugins named in the error boxes among the effects [es]. *)
Definition error_boxes (es : list effect) : list str :=
  omap (λ e, match e with MessageBoxCritical name => Some name | _ => None end)
       es.

(** Plugin [name] is found and its file imports and registers without
    raising. *)
Definition loads_cleanly (found : gmap str plugin_meta) (name : str) : Prop :=
  ∃ meta m,
    found !! name = Some meta
    ∧ import_file (module_name name) (path meta) = Returns m
    ∧ (mod_register m = None ∨ ∃ hd, mod_register m = Some (Returns hd)).

End Callers.

(** A plugins directory with [good.py] and [bad.py], neither declaring a
    name, and a host at start-up whose stored enabled string names both. *)
Definition sample_dir : directory :=
  Dir [(lit "good.py", Some plain_text); (lit "bad.py", Some plain_text)].

Definition starting_host : host :=
  Host (lit "/p") ∅ ∅ (lit "good,bad,gone") true [].

End PluginOps.

(** ** Title and subtitle of a file name *)

Module FileInfo.

Import Py.

(** [os.path.basename(p)] ([posixpath]): what follows the last slash. *)
Definition basename (p : str) : str :=
  drop (Z.to_nat (rfind 47 p + 1)) p.

(** The list [separators] of [get_file_info]: underscore, hyphen, dot,
    space. *)
Definition separators : list N := [95; 45; 46; 32]%N.

(** The default subtitle, the one-character string U+65E0. *)
Definition no_subtitle : str := [26080%N].

(** The [for sep in separators] loop of
    [FFmpegAnalysisThread.get_file_info]; [title] and [subtitle] are the
    values assigned before the loop. *)
Fixpoint title_subtitle_loop (seps : list N) (name_without_ext : str)
    (title subtitle : str) : str * str :=
  match seps with
  | [] => (title, subtitle)
  | sep :: seps' =>
      if contains [sep] name_without_ext then
        let parts := split sep name_without_ext in
        if (2 <=? length parts)%nat
        then (default [] (head parts), join [sep] (tail parts))
        else title_subtitle_loop seps' name_without_ext title subtitle
      else title_subtitle_loop seps' name_without_ext title subtitle
  end.

(** The entries [title] and [subtitle] of the dict [get_file_info] returns
    for [file_path]. *)
Definition title_subtitle (file_path : str) : str * str :=
  let filename := basename file_path in
  let name_without_ext := splitext_root filename in
  title_subtitle_loop separators name_without_ext name_without_ext no_subtitle.

End FileInfo.

(** ** A path that is not taken (MetaTool) *)

Module UniquePath.

Import Py.

(** [os.path.splitext(p)] ([posixpath]). *)
Definition splitext (p : str) : str * str :=
  let sepIndex := rfind 47 p in
  let dotIndex := rfind 46 p in
  if (sepIndex <? dotIndex)%Z
     && existsb (λ c, negb (c =? 46)%N) (slice p (sepIndex + 1)%Z dotIndex)
  then (take (Z.to_nat dotIndex) p, drop (Z.to_nat dotIndex) p)
  else (p, []).

(** [str(k)] for a natural number: its decimal digits. *)
Definition decimal (k : N) : str := lit (pretty k).

(** [os.path.join(dirpath, f"{stem}({k}){ext}")] *)
Definition alternative (dirpath stem ext : str) (k : N) : str :=
  path_join dirpath (stem ++ lit "(" ++ decimal k ++ lit ")" ++ ext).

(** The [while True] loop of [_safe_unique_path], from counter [k], cut off
    after [fuel] rounds. [existing] holds the paths for which
    [os.path.exists] answers true. *)
Fixpoint search (existing : gset str) (dirpath stem ext : str) (fuel : nat)
    (k : N) : option str :=
  match fuel with
  | O => None
  | S fuel' =>
      let alt := alternative dirpath stem ext k in
      if decide (alt ∈ existing)
      then search existing dirpath stem ext fuel' (k + 1)%N
      else Some alt
  end.

(** [_safe_unique_path(dirpath, filename)] *)
Definition _safe_unique_path (existing : gset str) (fuel : nat)
    (dirpath filename : str) : option str :=
  let target := path_join dirpath filename in
  if decide (target ∈ existing) then
    let '(stem, ext) := splitext filename in
    search existing dirpath stem ext fuel 1%N
  else Some target.

End UniquePath.

(** ** The tab widget *)

Module Tabs.

(** Calls on the tab pages: a [VideoInfoTab] is constructed for a file
    (which starts its analysis), or a page is closed. *)
Inductive effect :=
| TabOpened (file_path : str)
| TabClosed (file_path : str).

(** The pages of [self.tab_widget], each given by the [file_path] of its
    [VideoInfoTab], in tab order, and the calls made on pages. Which page is
    current is not recorded. *)
Record tabs := TabState {
  pages : list str;
  log : list effect
}.

(** [on_file_selected(item)], with [file_path] the user data of the item.
    An empty path is ignored; a file that has a page gets no second one. *)
Definition on_file_selected (file_path : str) (t : tabs) : tabs :=
  if decide (file_path = []) then t
  else if decide (file_path ∈ pages t) then t
  else TabState (pages t ++ [file_path]) (log t ++ [TabOpened file_path]).

(** [close_tab(index)]: [widget(index)] is [None] out of range, and then
    [removeTab] does nothing either. *)
Definition close_tab (index : nat) (t : tabs) : tabs :=
  match pages t !! index with
  | Some f => TabState (delete index (pages t)) (log t ++ [TabClosed f])
  | None => t
  end.

(** One round of the loop
    [for i in reversed(range(count)): if widget(i).file_path == file_path:
    close_tab(i)]. [None]: [widget(i)] was [None] and reading its
    [file_path] raised. *)
Definition close_if_matching (file_path : str) (acc : option tabs) (i : nat)
    : option tabs :=
  t ← acc;
  g ← pages t !! i;
  Some (if decide (g = file_path) then close_tab i t else t).

(** The loop of [remove_selected_files] that closes the pages of a removed
    file. The range is computed once, from the count before the loop. *)
Definition close_pages_of (file_path : str) (t : tabs) : option tabs :=
  foldl (close_if_matching file_path) (Some t)
        (reverse (seq 0 (length (pages t)))).

(** The loop [for i in reversed(range(count)): close_tab(i)] of
    [clear_file_list]. *)
Definition close_all (t : tabs) : tabs :=
  foldl (λ acc i, close_tab i acc) t (reverse (seq 0 (length (pages t)))).

(** What the user and the window do to the tab widget: select a file in
    the list, press the close button of a page, remove a selected file,
    clear the file list. *)
Inductive op :=
| Select (file_path : str)
| CloseTab (index : nat)
| RemoveFile (file_path : str)
| ClearList.

Definition step (o : op) (t : tabs) : option tabs :=
  match o with
  | Select f => Some (on_file_selected f t)
  | CloseTab i => Some (close_tab i t)
  | RemoveFile f => close_pages_of f t
  | ClearList => Some (close_all t)
  end.

Definition init : tabs := TabState [] [].

Definition run (ops : list op) : option tabs :=
  foldl (λ acc o, acc ≫= step o) (Some init) ops.

End Tabs.

(** ** The file list of the metadata tool *)

Module MetaList.

(** [MetaToolDialog]: the Python list [self.files] and the rows of the list
    widget [self.listw]. A row is an item object, told apart by an
    identity, and the text it shows. *)
Record dialog := Dialog {
  files : list str;
  listw : list (nat * str);
  next_item : nat
}.

Definition init : dialog := Dialog [] [] 0.

(** The body shared by the loop of [__init__] over the main window's
    selection and the loop of [_add_files]:
    [if p and p not in self.files: self.files.append(p);
    self.listw.addItem(p)]. *)
Definition add_path (d : dialog) (p : str) : dialog :=
  if decide (p = []) then d
  else if decide (p ∈ files d) then d
  else Dialog (files d ++ [p]) (listw d ++ [(next_item d, p)])
              (S (next_item d)).

Definition _add_files (paths : list str) (d : dialog) : dialog :=
  foldl add_path d paths.

(** [self.listw.row(it)]: the index of the item, [None] for the [-1] of an
    item that is not in the widget. *)
Definition row (it : nat) (d : dialog) : option nat :=
  fst <$> list_find (λ x, x.1 = it) (listw d).

(** One round of [_remove_selected]: [takeItem(row)], then
    [if 0 <= row < len(self.files): self.files.pop(row)]. [takeItem(-1)]
    takes nothing. *)
Definition remove_item (d : dialog) (it : nat) : dialog :=
  match row it d with
  | Some r =>
      Dialog (if decide (r < length (files d))%nat
              then delete r (files d) else files d)
             (delete r (listw d)) (next_item d)
  | None => d
  end.

(** [_remove_selected], with the items [selectedItems()] returned. *)
Definition _remove_selected (selected : list nat) (d : dialog) : dialog :=
  foldl remove_item d selected.

Definition _clear_all (d : dialog) : dialog := Dialog [] [] (next_item d).

Inductive op :=
| AddFiles (paths : list str)
| RemoveSelected (selected : list nat)
| ClearAll.

Definition step (d : dialog) (o : op) : dialog :=
  match o with
  | AddFiles paths => _add_files paths d
  | RemoveSelected selected => _remove_selected selected d
  | ClearAll => _clear_all d
  end.

Definition run (ops : list op) : dialog := foldl step init ops.

(** The texts the list widget shows, top to bottom. *)
Definition shown (d : dialog) : list str := snd <$> listw d.

(** What every step keeps: the list and the widget agree, no path is
    listed twice or empty, and item identities are not reused. *)
Definition in_step (d : dialog) : Prop :=
  files d = shown d
  ∧ NoDup (files d)
  ∧ ([] ∉ files d)
  ∧ NoDup (listw d).*1
  ∧ Forall (λ x, (x.1 < next_item d)%nat) (listw d).

End MetaList.

(** ** The analysis thread *)

Module Analysis.

Import Py.

(** What a call raises: an instance of a class derived from [Exception],
    with its text [str(e)], or one that only [BaseException] covers. *)
Inductive exn :=
| Error (message : str)
| BaseOnly.

Inductive outcome (A : Type) :=
| Return (a : A)
| Raise (e : exn).
Arguments Return {A} a.
Arguments Raise {A} e.

(** [try: body  except Exception as e: handler(str(e))] *)
Definition try_except {A} (body : outcome A) (handler : str → outcome A)
    : outcome A :=
  match body with
  | Raise (Error message) => handler message
  | _ => body
  end.

Inductive value :=
| Text (s : str)
| Flag (b : bool)
| Number (n : Z).

(** The dicts of the analysis, with their string keys. *)
Definition info := gmap str value.

(** What [self.process.communicate(timeout=...)] does. *)
Inductive communicated :=
| Completed (returncode : Z) (stdout stderr : str)
| TimeoutExpired
| CommunicateRaised (e : exn).

(** One run of [ffprobe]: what [subprocess.Popen] raises, if it does, what
    [communicate] does, and what [kill] followed by the second
    [communicate] raises after a timeout, if they do. *)
Record ffprobe := Ffprobe {
  popen : option exn;
  communicate : communicated;
  after_kill : option exn
}.

(** What [json.loads] does. *)
Inductive decoded (D : Type) :=
| Decoded (media_data : D)
| JSONDecodeError
| LoadsRaised (e : exn).
Arguments Decoded {D} media_data.
Arguments JSONDecodeError {D}.
Arguments LoadsRaised {D} e.

(** What opening the file and reading its first 100 bytes does: no bytes,
    some bytes, an [IOError], or something else raised. *)
Inductive first_bytes :=
| NoBytes
| SomeBytes
| ReadIOError
| ReadRaised (e : exn).

(** The signals of [FFmpegAnalysisThread]. *)
Inductive signal :=
| progress_updated (value : Z)
| analysis_finished (result : info)
| error_occurred (message : str).

(** The texts of the code, as code points. *)
Definition timeout_word : str := [36229; 26102]%N.
Definition timeout_message : str :=
  [70; 70; 112; 114; 111; 98; 101; 25191; 34892; 36229; 26102; 65292; 25991;
   20214; 21487; 33021; 36807; 22823; 25110; 25439; 22351]%N.
Definition failed_prefix : str :=
  [70; 70; 112; 114; 111; 98; 101; 25191; 34892; 22833; 36133; 32; 40; 36820;
   22238; 30721; 58; 32]%N.
Definition unknown_error : str := [26410; 30693; 38169; 35823]%N.
Definition empty_message : str :=
  [70; 70; 112; 114; 111; 98; 101; 36755; 20986; 20026; 31354; 65292; 21487;
   33021; 25991; 20214; 26684; 24335; 19981; 25903; 25345; 25110; 24050;
   25439; 22351]%N.
Definition basic_timeout_message : str :=
  [33719; 21462; 22522; 26412; 20449; 24687; 36229; 26102]%N.
Definition parse_failed : str := [35299; 26512; 22833; 36133]%N.
Definition not_exist : str := [25991; 20214; 19981; 23384; 22312; 58; 32]%N.
Definition corrupt : str :=
  [25991; 20214; 21487; 33021; 24050; 25439; 22351; 25110; 20026; 31354]%N.
Definition unreadable : str :=
  [25991; 20214; 26080; 27861; 35835; 21462; 65292; 21487; 33021; 24050;
   34987; 21344; 29992; 25110; 25439; 22351]%N.
Definition analysis_error : str :=
  [20998; 26512; 35270; 39057; 26102; 20986; 38169; 58; 32]%N.

(** The dict [get_basic_media_info] returns from its [except Exception]. *)
Definition failed_info : info :=
  list_to_map
    [(lit "duration", Text parse_failed);
     (lit "resolution", Text parse_failed);
     (lit "video_codec", Text parse_failed);
     (lit "audio_codec", Text parse_failed);
     (lit "format", Text parse_failed);
     (lit "frame_rate", Text parse_failed);
     (lit "audio_sample_rate", Text parse_failed);
     (lit "audio_bitrate", Text parse_failed);
     (lit "audio_channels", Text parse_failed);
     (lit "has_subtitles", Flag false);
     (lit "bit_rate", Text parse_failed)].

(** [merge_info]: [{**file_info, **media_info}], the second dict wins. *)
Definition merge_info (file_info media_info : info) : info :=
  media_info ∪ file_info.

Section Thread.

Context {D : Type}.

(** [self.file_path]. *)
Variable file_path : str.

(** The file system: [os.path.exists], the first read, [os.path.getsize];
    and the text [f"{size_mb:.2f} MB"] for a size in bytes. *)
Variable path_exists : bool.
Variable opened : first_bytes.
Variable getsize : outcome Z.
Variable size_text : Z → str.

(** The two runs of [ffprobe], of [get_media_info] and of
    [get_basic_media_info]. *)
Variable json_run : ffprobe.
Variable basic_run : ffprobe.

(** [json.loads], [parse_ffprobe_output], and the part of
    [get_basic_media_info] that reads the lines of the output. *)
Variable json_loads : str → decoded D.
Variable parse_ffprobe_output : D → outcome info.
Variable parse_basic : str → outcome info.

(** [self._is_running] as the thread sees it at its first, second, ...
    read. *)
Variable running_at : nat → bool.

Definition get_file_info : outcome info :=
  let filename := FileInfo.basename file_path in
  let '(title, subtitle) := FileInfo.title_subtitle file_path in
  match getsize with
  | Raise e => Raise e
  | Return file_size =>
      Return (list_to_map
        [(lit "title", Text title);
         (lit "subtitle", Text subtitle);
         (lit "filename", Text filename);
         (lit "file_path", Text file_path);
         (lit "file_size", Text (size_text file_size));
         (lit "file_size_bytes", Number file_size)])
  end.

Definition get_basic_media_info : outcome info :=
  try_except
    match popen basic_run with
    | Some e => Raise e
    | None =>
        match communicate basic_run with
        | TimeoutExpired =>
            match after_kill basic_run with
            | Some e => Raise e
            | None => Raise (Error basic_timeout_message)
            end
        | CommunicateRaised e => Raise e
        | Completed _ stdout _ => parse_basic stdout
        end
    end
    (λ _, Return failed_info).

(** The body of the [try] of [get_media_info]. *)
Definition get_media_info_try : outcome info :=
  match popen json_run with
  | Some e => Raise e
  | None =>
      match communicate json_run with
      | TimeoutExpired =>
          match after_kill json_run with
          | Some e => Raise e
          | None => Raise (Error timeout_message)
          end
      | CommunicateRaised e => Raise e
      | Completed returncode stdout stderr =>
          if negb (returncode =? 0)%Z then
            let error_msg :=
              if decide (stderr = []) then unknown_error else stderr in
            Raise (Error (failed_prefix ++ lit (pretty returncode)
                          ++ lit "): " ++ error_msg))
          else if bool_decide (stdout = [])
                  || bool_decide (strip stdout = []) then
            Raise (Error empty_message)
          else
            match json_loads stdout with
            | JSONDecodeError => get_basic_media_info
            | LoadsRaised e => Raise e
            | Decoded media_data => parse_ffprobe_output media_data
            end
      end
  end.

(** [get_media_info]: the [try] and its [except Exception as e]. *)
Definition get_media_info : outcome info :=
  try_except get_media_info_try
    (λ message,
       if contains timeout_word message then Raise (Error message)
       else match get_basic_media_info with
            | Return basic => Return basic
            | Raise _ => Raise (Error message)
            end).

(** The [except Exception as e] of [run], entered after [emitted] with the
    flag read for the [k]-th time. *)
Definition run_handler (k : nat) (emitted : list signal) (e : exn)
    : list signal * option exn :=
  match e with
  | Error message =>
      (if running_at k
       then emitted ++ [error_occurred (analysis_error ++ message)]
       else emitted, None)
  | BaseOnly => (emitted, Some BaseOnly)
  end.

(** [run]: the signals emitted, in order, and the exception that leaves
    it, if one does. *)
Definition run : list signal * option exn :=
  if negb path_exists then
    ([error_occurred (not_exist ++ file_path)], None)
  else
    match opened with
    | NoBytes => ([error_occurred corrupt], None)
    | ReadIOError => ([error_occurred unreadable], None)
    | ReadRaised e => run_handler 0 [] e
    | SomeBytes =>
        if negb (running_at 0) then ([], None) else
        let s1 := [progress_updated 10] in
        match get_file_info with
        | Raise e => run_handler 1 s1 e
        | Return file_info =>
            if negb (running_at 1) then (s1, None) else
            let s2 := s1 ++ [progress_updated 30] in
            match get_media_info with
            | Raise e => run_handler 2 s2 e
            | Return media_info =>
                if negb (running_at 2) then (s2, None) else
                let s3 := s2 ++ [progress_updated 70] in
                let result := merge_info file_info media_info in
                if negb (running_at 3) then (s3, None) else
                (s3 ++ [progress_updated 100; analysis_finished result],
                 None)
            end
        end
    end.

End Thread.

(** The progress values of a run that is not stopped. *)
Definition milestones : list Z := [10; 30; 70; 100].

(** An [ffprobe] that cannot be started. *)
Definition not_installed : ffprobe :=
  Ffprobe (Some (Error (lit "[Errno 2] No such file or directory: 'ffprobe'")))
          TimeoutExpired None.

(** An [ffprobe] that does not answer in time. *)
Definition hanging : ffprobe := Ffprobe None TimeoutExpired None.

End Analysis.

(** * Properties of the thumbnail work queue *)

Module QueueFacts.

Import Thumbs.

(** ** Unfolding the admission loop *)

Lemma admit_loop_nil s : admit_loop [] s = set_queue [] s.
Proof. reflexivity. Qed.


Lemma admit_loop_skip f it rest s :
  active_thumbnail_threads s < max_concurrent_thumbnails s →
  is_Some (thumbnail_threads s !! f) →
  admit_loop ((f, it) :: rest) s = admit_loop rest s.
Proof.
  intros Hlt [x Hx]. simpl.
  destruct (Z.ltb_spec (active_thumbnail_threads s)
              (max_concurrent_thumbnails s)); [|lia].
  by rewrite Hx.
Qed.

Lemma admit_loop_start f it rest s :
  active_thumbnail_threads s < max_concurrent_thumbnails s →
  thumbnail_threads s !! f = None →
  admit_loop ((f, it) :: rest) s = admit_loop rest (start_thread f it s).
Proof.
  intros Hlt Hx. simpl.
  destruct (Z.ltb_spec (active_thumbnail_threads s)
              (max_concurrent_thumbnails s)); [|lia].
  by rewrite Hx.
Qed.

(** An induction principle that follows the loop: a property that survives
    writing the queue field and starting one thread survives the loop. *)
Lemma admit_loop_preserves (P : viewer → Prop) :
  (∀ q s, P s → P (set_queue q s)) →
  (∀ f it s,
     P s → active_thumbnail_threads s < max_concurrent_thumbnails s →
     thumbnail_threads s !! f = None → P (start_thread f it s)) →
  ∀ pending s, P s → P (admit_loop pending s).
Proof.
  intros Hq Hstart pending.
  induction pending as [|[f it] rest IH]; intros s Hs; simpl.
  - by apply Hq.
  - destruct (Z.ltb_spec (active_thumbnail_threads s)
                (max_concurrent_thumbnails s)) as [Hlt|Hge].
    + destruct (thumbnail_threads s !! f) eqn:Hf.
      * by apply IH.
      * apply IH. by apply Hstart.
    + by apply Hq.
Qed.

(** ** The state invariant *)

Lemma inv_set_queue q s : inv s → inv (set_queue q s).
Proof. intros [H1 H2]. by split. Qed.

Lemma inv_set_video_files v s : inv s → inv (set_video_files v s).
Proof. intros [H1 H2]. by split. Qed.

Lemma inv_set_next_item n s : inv s → inv (set_next_item n s).
Proof. intros [H1 H2]. by split. Qed.

Lemma inv_start_thread f it s :
  inv s → active_thumbnail_threads s < max_concurrent_thumbnails s →
  thumbnail_threads s !! f = None → inv (start_thread f it s).
Proof.
  intros [H1 H2] Hlt Hf. split; simpl.
  - rewrite map_size_insert_None by done. lia.
  - lia.
Qed.

Lemma inv_process s : inv s → inv (process_thumbnail_queue s).
Proof.
  apply admit_loop_preserves.
  - intros q s'. apply inv_set_queue.
  - intros f it s'. apply inv_start_thread.
Qed.

(** Taking a finished or stopped thread out of the table and the count. *)
Lemma inv_release f x es s :
  inv s → thumbnail_threads s !! f = Some x →
  inv (set_active (active_thumbnail_threads s - 1)
         (emit es (set_threads (delete f (thumbnail_threads s)) s))).
Proof.
  intros [H1 H2] Hf. split; simpl.
  - rewrite map_size_delete, Hf.
    assert (size (thumbnail_threads s) ≠ 0%nat).
    { intros H0. apply map_size_empty_inv in H0. rewrite H0 in Hf.
      by rewrite lookup_empty in Hf. }
    lia.
  - lia.
Qed.

Lemma inv_queue_thumbnail_generation f it s :
  inv s → inv (queue_thumbnail_generation f it s).
Proof.
  intros Hs. unfold queue_thumbnail_generation.
  destruct (thumbnail_threads s !! f); [done|].
  apply inv_process. by apply inv_set_queue.
Qed.

Lemma inv_on_thumbnail_generated f s :
  inv s → inv (on_thumbnail_generated f s).
Proof.
  intros Hs. unfold on_thumbnail_generated.
  destruct (thumbnail_threads s !! f) eqn:Hf; [|done].
  apply inv_process. by eapply inv_release.
Qed.

Lemma inv_on_thumbnail_error f s : inv s → inv (on_thumbnail_error f s).
Proof.
  intros Hs. unfold on_thumbnail_error.
  destruct (thumbnail_threads s !! f) eqn:Hf; [|done].
  apply inv_process. by eapply inv_release.
Qed.

Lemma inv_remove_one s f : inv s → inv (remove_one s f).
Proof.
  intros Hs. unfold remove_one.
  set (s1 := if decide (f ∈ video_files s) then _ else s).
  assert (inv s1) as Hs1.
  { subst s1. destruct (decide (f ∈ video_files s)); [|done].
    by apply inv_set_video_files. }
  destruct (thumbnail_threads s1 !! f) eqn:Hf; [|done].
  apply inv_process. by eapply inv_release.
Qed.

Lemma inv_add_one s f : inv s → inv (add_one s f).
Proof.
  intros Hs. unfold add_one. destruct (decide (f ∈ video_files s)); [done|].
  apply inv_queue_thumbnail_generation, inv_set_next_item.
  by apply inv_set_video_files.
Qed.

Lemma inv_foldl {A} (g : viewer → A → viewer) (l : list A) s :
  (∀ s x, inv s → inv (g s x)) → inv s → inv (foldl g s l).
Proof.
  intros Hg. revert s. induction l as [|x l IH]; intros s Hs; simpl; [done|].
  apply IH. by apply Hg.
Qed.

Lemma inv_clear_file_list s :
  0 ≤ max_concurrent_thumbnails s → inv (clear_file_list s).
Proof. intros Hmax. split; simpl; [by rewrite map_size_empty | done]. Qed.

(** ** The ceiling is never written *)

Lemma max_process s :
  max_concurrent_thumbnails (process_thumbnail_queue s)
  = max_concurrent_thumbnails s.
Proof.
  apply (admit_loop_preserves
           (λ s', max_concurrent_thumbnails s' = max_concurrent_thumbnails s));
    done.
Qed.

Lemma max_foldl {A} (g : viewer → A → viewer) (l : list A) s :
  (∀ s x, max_concurrent_thumbnails (g s x) = max_concurrent_thumbnails s) →
  max_concurrent_thumbnails (foldl g s l) = max_concurrent_thumbnails s.
Proof.
  intros Hg. revert s. induction l as [|x l IH]; intros s; simpl; [done|].
  by rewrite IH, Hg.
Qed.

Lemma max_queue_thumbnail_generation f it s :
  max_concurrent_thumbnails (queue_thumbnail_generation f it s)
  = max_concurrent_thumbnails s.
Proof.
  unfold queue_thumbnail_generation.
  destruct (thumbnail_threads s !! f); [done|]. by rewrite max_process.
Qed.

Lemma max_remove_one s f :
  max_concurrent_thumbnails (remove_one s f) = max_concurrent_thumbnails s.
Proof.
  unfold remove_one. destruct (decide (f ∈ video_files s)); simpl;
    destruct (thumbnail_threads s !! f); by rewrite ?max_process.
Qed.

Lemma max_add_one s f :
  max_concurrent_thumbnails (add_one s f) = max_concurrent_thumbnails s.
Proof.
  unfold add_one. destruct (decide (f ∈ video_files s)); [done|].
  by rewrite max_queue_thumbnail_generation.
Qed.

Lemma max_step s o :
  max_concurrent_thumbnails (step s o) = max_concurrent_thumbnails s.
Proof.
  destruct o as [files|f it|f|f|sel|]; simpl.
  - apply max_foldl, max_add_one.
  - apply max_queue_thumbnail_generation.
  - unfold on_thumbnail_generated.
    destruct (thumbnail_threads s !! f); by rewrite ?max_process.
  - unfold on_thumbnail_error.
    destruct (thumbnail_threads s !! f); by rewrite ?max_process.
  - apply max_foldl, max_remove_one.
  - done.
Qed.

Lemma inv_step s o :
  0 ≤ max_concurrent_thumbnails s → inv s → inv (step s o).
Proof.
  intros Hmax Hs. destruct o as [files|f it|f|f|sel|]; simpl.
  - apply inv_foldl; [apply inv_add_one | done].
  - by apply inv_queue_thumbnail_generation.
  - by apply inv_on_thumbnail_generated.
  - by apply inv_on_thumbnail_error.
  - apply inv_foldl; [apply inv_remove_one | done].
  - by apply inv_clear_file_list.
Qed.

(** Every state the entry points can produce from [__init__]. *)
Lemma run_snoc ops o : run (ops ++ [o]) = step (run ops) o.
Proof. unfold run. by rewrite foldl_app. Qed.

Lemma run_inv ops :
  max_concurrent_thumbnails (run ops) = 3 ∧ inv (run ops).
Proof.
  induction ops as [|o ops IH] using rev_ind.
  - split; [done|]. split; simpl; [by rewrite map_size_empty | done].
  - rewrite run_snoc. destruct IH as [Hmax Hinv]. split.
    + by rewrite max_step.
    + apply inv_step; [lia | done].
Qed.

(** ** Where table entries come from and where they go *)

Lemma admit_loop_active_mono pending s f :
  active s f → active (admit_loop pending s) f.
Proof.
  apply (admit_loop_preserves (λ s', active s' f)); [done|].
  intros g it s' Hf _ Hg. unfold active in *. simpl.
  rewrite lookup_insert_ne; [done|]. intros ->. rewrite Hg in Hf.
  by destruct Hf.
Qed.

Lemma admit_loop_active_new pending s f :
  active (admit_loop pending s) f → active s f ∨ f ∈ pending.*1.
Proof.
  revert s. induction pending as [|[g it] rest IH]; intros s; simpl.
  - by left.
  - destruct (active_thumbnail_threads s <? max_concurrent_thumbnails s);
      [|by left].
    destruct (thumbnail_threads s !! g) eqn:Hg.
    + intros [?|?]%IH; [by left | right; set_solver].
    + intros [Hf|?]%IH; [|right; set_solver].
      unfold active in Hf. simpl in Hf.
      destruct (decide (g = f)) as [->|Hne]; [right; set_solver|].
      rewrite lookup_insert_ne in Hf by done. by left.
Qed.

Lemma admit_loop_queue_suffix pending s :
  thumbnail_queue (admit_loop pending s) `suffix_of` pending.
Proof.
  revert s. induction pending as [|[g it] rest IH]; intros s; simpl.
  - done.
  - destruct (active_thumbnail_threads s <? max_concurrent_thumbnails s);
      [|done].
    destruct (thumbnail_threads s !! g); by apply suffix_cons_r.
Qed.

Lemma admit_loop_queue_elem pending s f :
  f ∈ (thumbnail_queue (admit_loop pending s)).*1 → f ∈ pending.*1.
Proof.
  intros Hf. destruct (admit_loop_queue_suffix pending s) as [k Hk].
  rewrite Hk, fmap_app, elem_of_app. by right.
Qed.

Lemma sources_process Q s0 s :
  sources_in Q s0 s → sources_in Q s0 (process_thumbnail_queue s).
Proof.
  intros [Ha Hq]. split.
  - intros f [?|?]%admit_loop_active_new; auto.
  - intros f ?%admit_loop_queue_elem. auto.
Qed.

Lemma sources_release Q s0 s a es f :
  sources_in Q s0 s →
  sources_in Q s0
    (set_active a (emit es (set_threads (delete f (thumbnail_threads s)) s))).
Proof.
  intros [Ha Hq]. split; [|done].
  intros g Hg. apply Ha. unfold active in *. simpl in Hg.
  destruct (decide (f = g)) as [->|Hne].
  - rewrite lookup_delete_eq in Hg. by destruct Hg.
  - by rewrite lookup_delete_ne in Hg.
Qed.

Lemma sources_enqueue (Q : str → Prop) s0 s f it :
  Q f → sources_in Q s0 s →
  sources_in Q s0 (queue_thumbnail_generation f it s).
Proof.
  intros HQ [Ha Hq]. unfold queue_thumbnail_generation.
  destruct (thumbnail_threads s !! f); [done|].
  apply sources_process. split; [done|]. simpl. intros g.
  rewrite fmap_app. set_solver.
Qed.

Lemma sources_remove_one Q s0 s f :
  sources_in Q s0 s → sources_in Q s0 (remove_one s f).
Proof.
  intros Hs. unfold remove_one.
  set (s1 := if decide (f ∈ video_files s) then _ else s).
  assert (sources_in Q s0 s1) as Hs1.
  { subst s1. by destruct (decide (f ∈ video_files s)). }
  destruct (thumbnail_threads s1 !! f); [|done].
  by apply sources_process, sources_release.
Qed.

Lemma sources_add_files (Q : str → Prop) s0 files s :
  (∀ f, f ∈ files → Q f) → sources_in Q s0 s →
  sources_in Q s0 (add_files_to_list files s).
Proof.
  unfold add_files_to_list. revert s.
  induction files as [|f files IH]; intros s HQ Hs; simpl; [done|].
  apply IH; [set_solver|]. unfold add_one.
  destruct (decide (f ∈ video_files s)); [done|].
  apply sources_enqueue; [set_solver|]. by destruct Hs.
Qed.

Lemma sources_remove_selected Q s0 sel s :
  sources_in Q s0 s → sources_in Q s0 (remove_selected_files sel s).
Proof.
  unfold remove_selected_files. revert s.
  induction sel as [|f sel IH]; intros s Hs; simpl; [done|].
  by apply IH, sources_remove_one.
Qed.

(** A job that is active after an entry point ran was active before, or was
    waiting, or was submitted by that entry point. *)
Lemma step_active_new o s f :
  active (step s o) f → active s f ∨ queued o s f.
Proof.
  assert (sources_in (queued o s) s s) as Hs.
  { split; [by left | by left]. }
  assert (sources_in (queued o s) s (step s o)) as [Ha _]; [|by apply Ha].
  destruct o as [files|g it|g|g|sel|]; simpl.
  - apply sources_add_files; [|done]. intros g Hg. by right.
  - apply sources_enqueue; [by right | done].
  - unfold on_thumbnail_generated. destruct (thumbnail_threads s !! g);
      [|done]. by apply sources_process, sources_release.
  - unfold on_thumbnail_error. destruct (thumbnail_threads s !! g);
      [|done]. by apply sources_process, sources_release.
  - by apply sources_remove_selected.
  - split; [|intros g Hg; by apply elem_of_nil in Hg].
    intros g Hg. unfold active in Hg. simpl in Hg.
    rewrite lookup_empty in Hg. by destruct Hg.
Qed.

Lemma process_active_mono s f :
  active s f → active (process_thumbnail_queue s) f.
Proof. apply admit_loop_active_mono. Qed.

Lemma enqueue_active_mono g it s f :
  active s f → active (queue_thumbnail_generation g it s) f.
Proof.
  intros Hf. unfold queue_thumbnail_generation.
  destruct (thumbnail_threads s !! g); [done|].
  by apply process_active_mono.
Qed.

Lemma release_active_ne s a es g f :
  g ≠ f → active s f →
  active (process_thumbnail_queue
            (set_active a
               (emit es (set_threads (delete g (thumbnail_threads s)) s)))) f.
Proof.
  intros Hne Hf. apply process_active_mono. unfold active. simpl.
  by rewrite lookup_delete_ne.
Qed.

Lemma remove_one_active_ne s g f :
  g ≠ f → active s f → active (remove_one s g) f.
Proof.
  intros Hne Hf. unfold remove_one.
  set (s1 := if decide (g ∈ video_files s) then _ else s).
  assert (active s1 f) as Hf1.
  { subst s1. by destruct (decide (g ∈ video_files s)). }
  destruct (thumbnail_threads s1 !! g); [|done].
  by apply release_active_ne.
Qed.

(** A job that was active and is no longer was ended or removed by the
    entry point. *)
Lemma step_active_gone o s f :
  active s f → ¬ active (step s o) f → released o f.
Proof.
  intros Hf Hgone. destruct o as [files|g it|g|g|sel|]; simpl in *.
  - destruct Hgone. unfold add_files_to_list. revert s Hf.
    induction files as [|x files IH]; intros s Hf; simpl; [done|].
    apply IH. unfold add_one. destruct (decide (x ∈ video_files s)); [done|].
    by apply enqueue_active_mono.
  - destruct Hgone. by apply enqueue_active_mono.
  - destruct (decide (f = g)) as [|Hne]; [done|]. destruct Hgone.
    unfold on_thumbnail_generated.
    destruct (thumbnail_threads s !! g); [|done].
    by apply release_active_ne.
  - destruct (decide (f = g)) as [|Hne]; [done|]. destruct Hgone.
    unfold on_thumbnail_error.
    destruct (thumbnail_threads s !! g); [|done].
    by apply release_active_ne.
  - destruct (decide (f ∈ sel)) as [|Hnin]; [done|]. destruct Hgone.
    unfold remove_selected_files. revert s Hf.
    induction sel as [|x sel IH]; intros s Hf; simpl; [done|].
    apply IH; [set_solver|]. apply remove_one_active_ne; [set_solver|done].
  - done.
Qed.

(** A larger table has a key the smaller one lacks. *)
Lemma size_lt_new_key (m m' : gmap str item) :
  (size m < size m')%nat → ∃ k, m !! k = None ∧ is_Some (m' !! k).
Proof.
  intros Hlt.
  destruct (decide (Forall (λ k, k ∈ dom m) (elements (dom m'))))
    as [Hall|Hex].
  - assert (dom m' ⊆ dom m) as Hsub.
    { intros k Hk. rewrite Forall_forall in Hall. apply Hall.
      by apply elem_of_elements. }
    apply subseteq_size in Hsub. rewrite !size_dom in Hsub. lia.
  - apply not_Forall_Exists in Hex; [|apply _].
    apply Exists_exists in Hex as (k & Hk & Hnot). exists k. split.
    + by apply not_elem_of_dom.
    + apply elem_of_dom. by apply elem_of_elements.
Qed.

(** ** The ceiling and the counter *)

(** C1. Whatever sequence of entry points is run after [__init__] (adding
    files, enqueueing, a job finishing or failing, removing selected files,
    clearing the list), the ceiling stays 3 and the counter of active jobs
    stays between 0 and 3. A further entry point raises the counter only if
    a job that was waiting or submitted by it enters the thread table, and
    lowers it only if a job that was in the table leaves it because it
    finished, failed or had its file removed. *)
Theorem active_count_ceiling (ops : list op) :
  max_concurrent_thumbnails (run ops) = 3
  ∧ 0 ≤ active_thumbnail_threads (run ops) ≤ 3
  ∧ ∀ o,
      (active_thumbnail_threads (run ops)
         < active_thumbnail_threads (step (run ops) o) →
       ∃ f, queued o (run ops) f ∧ ¬ active (run ops) f
            ∧ active (step (run ops) o) f)
      ∧ (active_thumbnail_threads (step (run ops) o)
           < active_thumbnail_threads (run ops) →
         ∃ f, released o f ∧ active (run ops) f
              ∧ ¬ active (step (run ops) o) f).
Proof.
  destruct (run_inv ops) as [Hmax [Hcount Hceil]].
  split; [done|]. split; [lia|]. intros o.
  destruct (run_inv (ops ++ [o])) as [_ [Hcount' _]].
  rewrite run_snoc in Hcount'. split; intros Hlt.
  - destruct (size_lt_new_key (thumbnail_threads (run ops))
                (thumbnail_threads (step (run ops) o))) as (f & Hnone & Hsome);
      [lia|].
    assert (¬ active (run ops) f) as Hnot.
    { unfold active. rewrite Hnone. by intros [? ?]. }
    exists f. destruct (step_active_new o (run ops) f Hsome); done.
  - destruct (size_lt_new_key (thumbnail_threads (step (run ops) o))
                (thumbnail_threads (run ops))) as (f & Hnone & Hsome);
      [lia|].
    assert (¬ active (step (run ops) o) f) as Hnot.
    { unfold active. rewrite Hnone. by intros [? ?]. }
    exists f. split; [|done]. by eapply step_active_gone.
Qed.

(** A round of the admission loop logs one start for each job it admits,
    raises the counter by one for each, and adds no other key to the
    table. *)
Lemma admit_loop_counts pending s :
  ∃ started : list str,
    log (admit_loop pending s) = log s ++ (ThreadStart <$> started)
    ∧ active_thumbnail_threads (admit_loop pending s)
      = active_thumbnail_threads s + Z.of_nat (length started)
    ∧ ∀ f, active (admit_loop pending s) f → active s f ∨ f ∈ started.
Proof.
  revert s. induction pending as [|[g it] rest IH]; intros s.
  - exists []. simpl. rewrite app_nil_r. split; [done|]. split; [lia|].
    intros f Hf. by left.
  - simpl.
    destruct (Z.ltb_spec (active_thumbnail_threads s)
                (max_concurrent_thumbnails s)) as [Hlt|Hge].
    + destruct (thumbnail_threads s !! g) eqn:Hg; [apply IH|].
      destruct (IH (start_thread g it s)) as (started & Hlog & Hcount & Hact).
      exists (g :: started). simpl in *. split.
      { rewrite Hlog. by rewrite <- app_assoc. }
      split; [lia|]. intros f Hf.
      destruct (Hact f Hf) as [Hs|Hin]; [|right; by right].
      unfold active in Hs. simpl in Hs.
      destruct (decide (g = f)) as [->|Hne]; [right; by left|].
      rewrite lookup_insert_ne in Hs by done. by left.
    + exists []. simpl. rewrite app_nil_r. split; [done|]. split; [lia|].
      intros f Hf. by left.
Qed.

(** The state in which the job of [f] has been taken out of the table and
    the counter lowered once, handed to the admission loop. *)
Lemma release_then_admit f es s :
  is_Some (thumbnail_threads s !! f) →
  let r := set_active (active_thumbnail_threads s - 1)
             (emit es (set_threads (delete f (thumbnail_threads s)) s)) in
  ∃ started,
    log (process_thumbnail_queue r) = log s ++ es ++ (ThreadStart <$> started)
    ∧ active_thumbnail_threads (process_thumbnail_queue r)
      = active_thumbnail_threads s - 1 + Z.of_nat (length started)
    ∧ (active (process_thumbnail_queue r) f → f ∈ started).
Proof.
  intros _ r. unfold process_thumbnail_queue.
  destruct (admit_loop_counts (thumbnail_queue r) r)
    as (started & Hlog & Hcount & Hact).
  exists started. split; [rewrite Hlog; simpl; by rewrite <- app_assoc|].
  split; [done|]. intros Hf. destruct (Hact f Hf) as [Hr|Hin]; [|done].
  unfold active in Hr. simpl in Hr. rewrite lookup_delete_eq in Hr.
  by destruct Hr.
Qed.

(** C10. After every sequence of entry points run from [__init__], the
    counter of active jobs equals the number of entries of the thread
    table. When a further entry point ends the job of a file that is in the
    table (its thread reports a thumbnail or an error, or its file is
    removed), the thread is waited for, the counter is lowered exactly once
    and raised again only by one for each waiting job the call then starts,
    and the file is in the table afterwards only if a new thread was
    started for it. When the file is not in the table, such an entry point
    touches neither the counter nor the table nor any thread, so no job is
    counted down twice. Clearing the list empties the table and sets the
    counter to 0. *)
Theorem active_count_is_table_size (ops : list op) :
  let s := run ops in
  active_thumbnail_threads s = Z.of_nat (size (thumbnail_threads s))
  ∧ (∀ o f it,
       ends_job o f → thumbnail_threads s !! f = Some it →
       ∃ started,
         log (step s o)
         = log s ++ release_effects o it ++ (ThreadStart <$> started)
         ∧ active_thumbnail_threads (step s o)
           = active_thumbnail_threads s - 1 + Z.of_nat (length started)
         ∧ (active (step s o) f → f ∈ started))
  ∧ (∀ o f,
       ends_job o f → ¬ active s f →
       active_thumbnail_threads (step s o) = active_thumbnail_threads s
       ∧ thumbnail_threads (step s o) = thumbnail_threads s
       ∧ log (step s o) = log s)
  ∧ active_thumbnail_threads (step s ClearList) = 0
  ∧ thumbnail_threads (step s ClearList) = ∅.
Proof.
  intros s. split; [by destruct (run_inv ops) as [_ [Hcount _]]|].
  split; [|split; [|done]].
  - intros o f it [->|[->| ->]] Hf; simpl.
    + unfold on_thumbnail_generated. rewrite Hf.
      apply (release_then_admit f [SetIcon it; ThreadWait f] s).
      by eexists.
    + unfold on_thumbnail_error. rewrite Hf.
      apply (release_then_admit f [ThreadWait f] s). by eexists.
    + unfold remove_one.
      set (s1 := if decide (f ∈ video_files s)
                 then set_video_files (list_remove f (video_files s)) s
                 else s).
      assert (thumbnail_threads s1 = thumbnail_threads s) as Htable
        by (subst s1; by destruct (decide (f ∈ video_files s))).
      assert (log s1 = log s) as Hlog
        by (subst s1; by destruct (decide (f ∈ video_files s))).
      assert (active_thumbnail_threads s1 = active_thumbnail_threads s)
        as Hcount by (subst s1; by destruct (decide (f ∈ video_files s))).
      rewrite Htable, Hf, <- Htable, <- Hlog, <- Hcount.
      apply (release_then_admit f [ThreadStop f; ThreadWait f] s1).
      rewrite Htable, Hf. by eexists.
  - intros o f [->|[->| ->]] Hf%eq_None_not_Some; simpl.
    + unfold on_thumbnail_generated. by rewrite Hf.
    + unfold on_thumbnail_error. by rewrite Hf.
    + unfold remove_one.
      destruct (decide (f ∈ video_files s)); simpl; by rewrite Hf.
Qed.

Lemma active_count_is_table_size_witness :
  let s := run [AddFiles [lit "A.mp4"; lit "B.mp4"; lit "C.mp4"; lit "D.mp4"]] in
  let o := Failed (lit "A.mp4") in
  ends_job o (lit "A.mp4")
  ∧ thumbnail_threads s !! lit "A.mp4" = Some 0%nat
  ∧ ∃ started,
      log (step s o)
      = log s ++ release_effects o 0%nat ++ (ThreadStart <$> started)
      ∧ active_thumbnail_threads (step s o)
        = active_thumbnail_threads s - 1 + Z.of_nat (length started)
      ∧ (active (step s o) (lit "A.mp4") → lit "A.mp4" ∈ started).
Proof.
  intros s o.
  assert (ends_job o (lit "A.mp4")) as Hend by (right; by left).
  assert (thumbnail_threads s !! lit "A.mp4" = Some 0%nat) as Hf
    by (by vm_compute).
  split; [exact Hend|]. split; [exact Hf|].
  exact (proj1 (proj2 (active_count_is_table_size
                         [AddFiles [lit "A.mp4"; lit "B.mp4"; lit "C.mp4";
                                    lit "D.mp4"]]))
           o (lit "A.mp4") 0%nat Hend Hf).
Defined.

(** ** Order of admission *)



(** ** Single calls on explicit states *)







Lemma enqueue_active_noop s f it :
  active s f → queue_thumbnail_generation f it s = s.
Proof.
  intros [x Hx]. unfold queue_thumbnail_generation. by rewrite Hx.
Qed.





(** ** Duplicate submissions *)

(** C3, on the code. Four files are added: three jobs are admitted and the
    one for [D.mp4] waits. The user removes [D.mp4] from the list, which
    leaves its waiting entry behind, and adds the file again. The second
    submission finds no active job for [D.mp4] and is recorded beside the
    first: two waiting entries for the one file, a waiting sequence that
    differs from the one before, and, once [A.mp4] and then the first job
    of [D.mp4] have finished, a second thread started for [D.mp4]. *)
Theorem readd_of_waiting_file_duplicates_job :
  let s1 := run [AddFiles [lit "A.mp4"; lit "B.mp4"; lit "C.mp4"; lit "D.mp4"];
                 RemoveSelected [lit "D.mp4"]] in
  let s2 := step s1 (AddFiles [lit "D.mp4"]) in
  let s3 := foldl step s2 [Generated (lit "A.mp4"); Generated (lit "D.mp4")] in
  (¬ active s1 (lit "D.mp4") ∧ waiting_of (lit "D.mp4") s1 = 1%nat)
  ∧ thumbnail_queue s2 = [(lit "D.mp4", 3%nat); (lit "D.mp4", 4%nat)]
  ∧ waiting_of (lit "D.mp4") s2 = 2%nat
  ∧ starts_of (lit "D.mp4") s2 = 0%nat
  ∧ starts_of (lit "D.mp4") s3 = 2%nat.
Proof.
  split; [split|repeat split]; try by vm_compute.
  unfold active. vm_compute. by intros [? ?].
Qed.

(** ** Removing a file whose job is still waiting *)

(** Removing files that have no active job leaves the waiting sequence as
    it is. *)
Lemma remove_one_keeps_queue s f :
  ¬ active s f → remove_one s f = 
    if decide (f ∈ video_files s)
    then set_video_files (list_remove f (video_files s)) s else s.
Proof.
  intros Hf%eq_None_not_Some. unfold remove_one.
  destruct (decide (f ∈ video_files s)); simpl; by rewrite Hf.
Qed.

(** C4, on the code. Four files are added: three jobs are admitted and the
    one for [D.mp4] waits. The user removes [D.mp4] from the list:
    [remove_selected_files] takes it out of [video_files] but its entry
    stays in the waiting sequence. When the job of [A.mp4] finishes, a
    thread for the removed [D.mp4] is started. *)
Theorem remove_selected_keeps_waiting_job :
  let s := run [AddFiles [lit "A.mp4"; lit "B.mp4"; lit "C.mp4"; lit "D.mp4"];
                RemoveSelected [lit "D.mp4"]] in
  let s' := step s (Generated (lit "A.mp4")) in
  video_files s = [lit "A.mp4"; lit "B.mp4"; lit "C.mp4"]
  ∧ thumbnail_queue s = [(lit "D.mp4", 3%nat)]
  ∧ starts_of (lit "D.mp4") s = 0%nat
  ∧ starts_of (lit "D.mp4") s' = 1%nat
  ∧ active s' (lit "D.mp4").
Proof.
  repeat split; try by vm_compute.
  unfold active. vm_compute. by eexists.
Qed.

End QueueFacts.

(** * Properties of the plugin lifecycle *)

Module PluginFacts.

Import Py Plugins.

Section Lifecycle.

Variable import_file : str → str → outcome pymodule.

Lemma registrations_add_log name es h :
  registrations name (add_log es h)
  = (registrations name h
     + length (filter (λ e, e = CallRegister name) es))%nat.
Proof. unfold registrations. simpl. by rewrite filter_app, length_app. Qed.

Lemma registrations_set_loaded name l h :
  registrations name (set_loaded l h) = registrations name h.
Proof. reflexivity. Qed.

(** Loading what is loaded does nothing and answers [True]. *)
Lemma load_loaded_noop h name :
  loaded h name → load_plugin import_file name h = (Returns true, h).
Proof. intros [x Hx]. unfold load_plugin. by rewrite Hx. Qed.

(** The possible results of [load_plugin] on a plugin that is found and not
    loaded, by what the plugin code does. *)
Lemma load_plugin_cases h name meta :
  plugins_loaded h !! name = None →
  plugins_found h !! name = Some meta →
  let h0 := add_log [ExecModule (module_name name) (path meta)] h in
  let failed h' :=
    (Returns false, add_log [PrintTraceback; MessageBoxCritical name] h') in
  let done_ m hd h' :=
    (Returns true,
     (if status_bar_visible h' then add_log [StatusLoaded name] else id)
       (set_loaded (<[name := LoadedItem m hd]> (plugins_loaded h')) h')) in
  load_plugin import_file name h
  = match import_file (module_name name) (path meta) with
    | Raises Exception => failed h0
    | Raises BaseExceptionOnly => (Raises BaseExceptionOnly, h0)
    | Returns m =>
        match mod_register m with
        | None => done_ m PyNone h0
        | Some (Returns hd) => done_ m hd (add_log [CallRegister name] h0)
        | Some (Raises Exception) => failed (add_log [CallRegister name] h0)
        | Some (Raises BaseExceptionOnly) =>
            (Raises BaseExceptionOnly, add_log [CallRegister name] h0)
        end
    end.
Proof.
  intros Hl Hf. unfold load_plugin. rewrite Hl, Hf.
  unfold try_except, bind, emit, modify, lift, ret, when. simpl.
  destruct (import_file _ _) as [m|[|]]; simpl; try done.
  destruct (mod_register m) as [[hd|[|]]|]; simpl; try done.
  - by destruct (status_bar_visible h).
  - by destruct (status_bar_visible h).
Qed.

(** C5. Take a plugin that is not loaded and a call [load_plugin(name)]
    that answers [True]. Then the plugin is in the loaded set; a second call
    answers [True] and changes nothing, so it calls nothing; and over both
    calls the plugin's [register] was called exactly once when the module
    has one (and never when it has none). *)
Theorem load_twice_registers_once h name h1 :
  ¬ loaded h name →
  load_plugin import_file name h = (Returns true, h1) →
  loaded h1 name
  ∧ load_plugin import_file name h1 = (Returns true, h1)
  ∧ ∃ meta m,
      plugins_found h !! name = Some meta
      ∧ import_file (module_name name) (path meta) = Returns m
      ∧ registrations name h1
        = (registrations name h
           + match mod_register m with Some _ => 1 | None => 0 end)%nat.
Proof.
  intros Hnot%eq_None_not_Some Hload.
  assert (loaded h1 name
          ∧ ∃ meta m,
              plugins_found h !! name = Some meta
              ∧ import_file (module_name name) (path meta) = Returns m
              ∧ registrations name h1
                = (registrations name h
           + match mod_register m with Some _ => 1 | None => 0 end)%nat)
    as [Hin Hreg]; [|by auto using load_loaded_noop].
  destruct (plugins_found h !! name) as [meta|] eqn:Hfound.
  2:{ unfold load_plugin in Hload. rewrite Hnot, Hfound in Hload.
      discriminate. }
  rewrite (load_plugin_cases h name meta Hnot Hfound) in Hload.
  destruct (import_file (module_name name) (path meta)) as [m|[|]] eqn:Himp;
    try discriminate.
  assert (∀ (b : bool) h',
            registrations name
              ((if b then add_log [StatusLoaded name] else id) h')
            = registrations name h') as Hstatus.
  { intros [] h'; [|done]. rewrite registrations_add_log. simpl. lia. }
  assert (∀ (b : bool) hd l h',
            loaded
              ((if b then add_log [StatusLoaded name] else id)
                 (set_loaded (<[name := LoadedItem m hd]> l) h')) name)
    as Hloaded.
  { intros [] hd l h'; unfold loaded; simpl; rewrite lookup_insert_eq;
      by eexists. }
  destruct (mod_register m) as [[hd|[|]]|] eqn:Hr; try discriminate;
    injection Hload as <-; (split; [apply Hloaded|]);
    exists meta, m; rewrite Hr; (split; [done|]); (split; [done|]);
    rewrite Hstatus, registrations_set_loaded, !registrations_add_log;
    rewrite ?filter_cons_False by done; simpl.
  - rewrite filter_cons_True by done. simpl. lia.
  - lia.
Qed.

(** C6. Take a plugin that is found and not loaded. If importing its file
    raises an error, or the import succeeds and its [register] raises an
    error (an exception derived from [Exception]), then [load_plugin]
    returns normally with the answer [False], the loaded set is the one
    before the call (so no module is kept for the plugin), and the failure
    was shown in a message box. *)
Theorem load_failure_leaves_no_state h name meta :
  ¬ loaded h name →
  plugins_found h !! name = Some meta →
  (import_file (module_name name) (path meta) = Raises Exception
   ∨ ∃ m, import_file (module_name name) (path meta) = Returns m
          ∧ mod_register m = Some (Raises Exception)) →
  ∃ h', load_plugin import_file name h = (Returns false, h')
        ∧ plugins_loaded h' = plugins_loaded h
        ∧ ¬ loaded h' name
        ∧ MessageBoxCritical name ∈ log h'.
Proof.
  intros Hnot Hfound Hraise.
  pose proof Hnot as Hnone%eq_None_not_Some.
  rewrite (load_plugin_cases h name meta Hnone Hfound).
  destruct Hraise as [->|(m & -> & ->)]; eexists; (split; [reflexivity|]);
    (split; [reflexivity|]); (split; [exact Hnot|]); simpl; set_solver.
Qed.

(** What is raised without deriving from [Exception] passes through
    [load_plugin]; the loaded set is still the one before the call. *)
Lemma load_plugin_loaded_only_on_success h name :
  ¬ loaded h name →
  (load_plugin import_file name h).1 ≠ Returns true →
  plugins_loaded (load_plugin import_file name h).2 = plugins_loaded h.
Proof.
  intros Hnone%eq_None_not_Some Hfail.
  destruct (plugins_found h !! name) as [meta|] eqn:Hfound.
  2:{ unfold load_plugin. by rewrite Hnone, Hfound. }
  revert Hfail. rewrite (load_plugin_cases h name meta Hnone Hfound).
  destruct (import_file _ _) as [m|[|]]; [|done..].
  destruct (mod_register m) as [[hd|[|]]|]; done.
Qed.

(** C7. After [unload_plugin(name)] the plugin is not in the loaded set,
    whatever its [unregister] did: the entry is removed before [unregister]
    is called. Unloading a plugin that is not loaded changes nothing and
    returns normally. When [unregister] raises an error, the error is
    caught (a traceback is printed) and the call returns normally. *)
Theorem unload_always_removes h name :
  ¬ loaded (unload_plugin name h).2 name
  ∧ plugins_loaded (unload_plugin name h).2 = delete name (plugins_loaded h)
  ∧ (¬ loaded h name → unload_plugin name h = (Returns tt, h))
  ∧ (∀ it u,
       plugins_loaded h !! name = Some it →
       mod_unregister (module it) = Some u →
       u (handle it) = Raises Exception →
       unload_plugin name h
       = (Returns tt,
          add_log [CallUnregister name (handle it); PrintTraceback]
            (set_loaded (delete name (plugins_loaded h)) h))).
Proof.
  assert (plugins_loaded (unload_plugin name h).2
          = delete name (plugins_loaded h)) as Hdel.
  { unfold unload_plugin.
    destruct (plugins_loaded h !! name) as [it|] eqn:Hit; simpl.
    - unfold try_except, bind, emit, modify, lift, ret.
      destruct (mod_unregister (module it)) as [u|]; simpl; [|done].
      by destruct (u (handle it)) as [[]|[|]].
    - by rewrite delete_id. }
  split; [|split; [done|split]].
  - unfold loaded. rewrite Hdel, lookup_delete_eq. by intros [? ?].
  - intros Hnone%eq_None_not_Some. unfold unload_plugin. by rewrite Hnone.
  - intros it u Hit Hu Hraise. unfold unload_plugin. rewrite Hit.
    unfold try_except, bind, emit, modify, lift, ret. rewrite Hu. simpl.
    rewrite Hraise. simpl. unfold add_log. simpl.
    by rewrite <- app_assoc.
Qed.

End Lifecycle.

Lemma load_twice_registers_once_witness :
  let name := lit "Good" in
  let h1 := (load_plugin sample_import name sample_host).2 in
  (¬ loaded sample_host name
   ∧ load_plugin sample_import name sample_host = (Returns true, h1))
  ∧ loaded h1 name
  ∧ load_plugin sample_import name h1 = (Returns true, h1)
  ∧ registrations name h1 = 1%nat.
Proof.
  intros name h1.
  assert (¬ loaded sample_host name) as Hnot.
  { unfold loaded. vm_compute. intros [x Hx]. discriminate. }
  assert (load_plugin sample_import name sample_host = (Returns true, h1))
    as Hload by (by vm_compute).
  pose proof (load_twice_registers_once sample_import sample_host name h1
                Hnot Hload) as (Hin & Hagain & _).
  split; [by split|]. split; [exact Hin|]. split; [exact Hagain|].
  by vm_compute.
Defined.

Lemma load_failure_leaves_no_state_witness :
  let name := lit "Bad" in
  let meta := PluginMeta (lit "/p/bad.py") in
  (¬ loaded sample_host name
   ∧ plugins_found sample_host !! name = Some meta
   ∧ (sample_import (module_name name) (path meta) = Raises Exception
      ∨ ∃ m, sample_import (module_name name) (path meta) = Returns m
             ∧ mod_register m = Some (Raises Exception)))
  ∧ ∃ h', load_plugin sample_import name sample_host = (Returns false, h')
          ∧ plugins_loaded h' = plugins_loaded sample_host
          ∧ ¬ loaded h' name
          ∧ MessageBoxCritical name ∈ log h'.
Proof.
  intros name meta.
  assert (¬ loaded sample_host name) as Hnot.
  { unfold loaded. vm_compute. intros [x Hx]. discriminate. }
  assert (plugins_found sample_host !! name = Some meta) as Hfound
    by (by vm_compute).
  assert (sample_import (module_name name) (path meta) = Raises Exception
          ∨ ∃ m, sample_import (module_name name) (path meta) = Returns m
                 ∧ mod_register m = Some (Raises Exception)) as Hraise.
  { right. eexists. split; by vm_compute. }
  split; [by repeat split|].
  exact (load_failure_leaves_no_state sample_import sample_host name meta
           Hnot Hfound Hraise).
Defined.

End PluginFacts.

(** * Properties of plugin discovery *)

Module ScanFacts.

Import Py Plugins.

Local Open Scope N_scope.

(** ** Reading lines *)

Lemma readline_nonempty c r : (readline (c :: r)).1 ≠ [].
Proof. simpl. destruct (c =? 10); [done|]. by destruct (readline r). Qed.

Lemma lines_readline text :
  text ≠ [] → lines text = (readline text).1 :: lines (readline text).2.
Proof.
  induction text as [|c r IH]; [done|]. intros _. simpl.
  destruct (c =? 10); [done|].
  destruct r as [|c' r'].
  - done.
  - rewrite IH by done. by destruct (readline (c' :: r')).
Qed.

(** ** The text after the equals sign *)

Lemma contains_single c s :
  contains [c] s = true → ∃ l r, s = l ++ c :: r ∧ c ∉ l.
Proof.
  induction s as [|x s IH]; simpl; [done|].
  destruct (N.eqb_spec c x) as [->|Hne]; simpl.
  - intros _. exists [], s. split; [done|]. apply not_elem_of_nil.
  - intros (l & r & -> & Hl)%IH. exists (x :: l), r. split; [done|].
    apply not_elem_of_cons. by split.
Qed.

Lemma split1_after c l r :
  c ∉ l → split1 c (l ++ c :: r) = [l; r].
Proof.
  induction l as [|x l IH]; simpl; intros Hl.
  - by rewrite N.eqb_refl.
  - apply not_elem_of_cons in Hl as [Hne Hl].
    destruct (N.eqb_spec x c); [congruence|]. by rewrite IH.
Qed.

Lemma after_first_after c l r : c ∉ l → after_first c (l ++ c :: r) = r.
Proof.
  induction l as [|x l IH]; simpl; intros Hl.
  - by rewrite N.eqb_refl.
  - apply not_elem_of_cons in Hl as [Hne Hl].
    destruct (N.eqb_spec x c); [congruence|]. by apply IH.
Qed.

Lemma split1_declaration line :
  is_declaration line = true →
  split1 61 line !! 1%nat = Some (after_first 61 line).
Proof.
  unfold is_declaration. intros [_ Heq]%andb_prop.
  apply (contains_single 61) in Heq as (l & r & -> & Hl).
  by rewrite split1_after, after_first_after.
Qed.

(** ** The loop over the first lines *)

Lemma scan_lines_find n text :
  scan_lines n text
  = Some (declared_value <$> List.find is_declaration (take n (lines text))).
Proof.
  revert text. induction n as [|n IH]; intros text; [done|].
  destruct text as [|c r]; [done|].
  cbn [scan_lines].
  pose proof (readline_nonempty c r) as Hne.
  rewrite (lines_readline (c :: r)) by done.
  destruct (readline (c :: r)) as [line rest]. simpl in Hne.
  rewrite bool_decide_eq_false_2 by done.
  cbn [take List.find fst snd]. fold (is_declaration line).
  destruct (is_declaration line) eqn:Hdecl.
  - by rewrite split1_declaration.
  - apply IH.
Qed.

(** ** One directory entry *)

Lemma scan_entry_candidate dir found e :
  scan_entry dir found e
  = match candidate dir e with
    | Some kv => <[kv.1 := kv.2]> found
    | None => found
    end.
Proof.
  unfold scan_entry, candidate. destruct e as [fn [text|]]; cbn [fst snd].
  - destruct (endswith (lit ".py") fn); cbn [negb]; [|done].
    cbn [mbind option_bind fst snd].
    rewrite scan_lines_find. unfold plugin_name.
    destruct (List.find is_declaration (take 40 (lines text))) as [line|];
      [|done].
    cbn [fmap option_fmap option_map mbind option_bind fst snd].
    by destruct (declared_value line).
  - by destruct (endswith (lit ".py") fn).
Qed.

Lemma foldl_scan_entry dir entries found :
  foldl (scan_entry dir) found entries
  = foldl (λ m kv, <[kv.1 := kv.2]> m) found (candidates dir entries).
Proof.
  revert found. induction entries as [|e entries IH]; intros found; [done|].
  simpl. rewrite IH, scan_entry_candidate. unfold candidates. simpl.
  by destruct (candidate dir e).
Qed.

Lemma foldl_insert_inserted (l : list (str * plugin_meta)) :
  foldl (λ m kv, <[kv.1 := kv.2]> m) ∅ l = inserted l.
Proof.
  unfold inserted. induction l as [|[k v] l IH] using rev_ind; [done|].
  by rewrite foldl_app, reverse_snoc, IH.
Qed.

(** ** File names without their extension *)




(** ** The result of a scan *)

Lemma scan_plugins_inserted h entries :
  plugins_found (scan_plugins (Dir entries) h)
  = inserted (candidates (plugins_dir h) entries).
Proof. simpl. by rewrite foldl_scan_entry, foldl_insert_inserted. Qed.


Lemma inserted_is_None (l : list (str * plugin_meta)) k :
  k ∉ l.*1 → inserted l !! k = None.
Proof.
  intros Hk. unfold inserted. apply not_elem_of_list_to_map_1.
  rewrite fmap_reverse. by rewrite elem_of_reverse.
Qed.




End ScanFacts.

(** * Properties of the enabled set *)

Module EnabledFacts.

Import Py Plugins.

(** ** Stripping *)

Lemma lstrip_suffix p s : lstrip p s `suffix_of` s.
Proof.
  induction s as [|c s IH]; simpl; [done|].
  destruct (p c); [by apply suffix_cons_r | done].
Qed.

Lemma lstrip_head_kept p s : head_kept p (lstrip p s).
Proof.
  induction s as [|c s IH]; simpl; [done|].
  destruct (p c) eqn:Hc; [done | by simpl].
Qed.

Lemma lstrip_id p s : head_kept p s → lstrip p s = s.
Proof. destruct s as [|c s]; simpl; [done|]. by intros ->. Qed.

Lemma rstrip_prefix p s : rstrip p s `prefix_of` s.
Proof.
  unfold rstrip. destruct (lstrip_suffix p (reverse s)) as [k Hk].
  exists (reverse k). apply (inj reverse).
  by rewrite reverse_app, !reverse_involutive.
Qed.

Lemma head_kept_prefix p s t : head_kept p s → t `prefix_of` s → head_kept p t.
Proof.
  intros Hs [k ->]. destruct t; [done|]. exact Hs.
Qed.

Lemma strip_with_fixed p s :
  head_kept p s → head_kept p (reverse s) → strip_with p s = s.
Proof.
  intros H1 H2. unfold strip_with, rstrip.
  by rewrite (lstrip_id p s), (lstrip_id p (reverse s)), reverse_involutive.
Qed.

Lemma strip_with_idemp p s : strip_with p (strip_with p s) = strip_with p s.
Proof.
  apply strip_with_fixed.
  - eapply head_kept_prefix; [apply (lstrip_head_kept p s)|].
    apply rstrip_prefix.
  - unfold strip_with, rstrip. rewrite reverse_involutive.
    apply lstrip_head_kept.
Qed.

Lemma strip_with_elem p s c : c ∈ strip_with p s → c ∈ s.
Proof.
  intros Hc. unfold strip_with in Hc.
  destruct (rstrip_prefix p (lstrip p s)) as [k Hk].
  destruct (lstrip_suffix p s) as [k' Hk'].
  rewrite Hk', Hk. set_solver.
Qed.

(** ** Splitting and joining *)

Lemma split_nonempty c s : split c s ≠ [].
Proof.
  induction s as [|x s IH]; simpl; [done|].
  destruct (x =? c)%N; [done|]. by destruct (split c s).
Qed.

Lemma split_piece_free c s piece : piece ∈ split c s → c ∉ piece.
Proof.
  revert piece. induction s as [|x s IH]; simpl; intros piece.
  - intros ->%list_elem_of_singleton. apply not_elem_of_nil.
  - destruct (N.eqb_spec x c) as [->|Hne].
    + intros [->|?]%elem_of_cons; [apply not_elem_of_nil | by apply IH].
    + pose proof (split_nonempty c s) as Hnil.
      destruct (split c s) as [|w ws]; [done|].
      intros [->|?]%elem_of_cons.
      * apply not_elem_of_cons. split; [done|]. apply IH. by left.
      * apply IH. by right.
Qed.

Lemma split_free c s : c ∉ s → split c s = [s].
Proof.
  induction s as [|x s IH]; simpl; [done|].
  intros [Hne Hs]%not_elem_of_cons.
  destruct (N.eqb_spec x c); [congruence|]. by rewrite IH.
Qed.

Lemma split_app_sep c s rest :
  c ∉ s → split c (s ++ c :: rest) = s :: split c rest.
Proof.
  induction s as [|x s IH]; simpl.
  - intros _. by rewrite N.eqb_refl.
  - intros [Hne Hs]%not_elem_of_cons.
    destruct (N.eqb_spec x c); [congruence|]. by rewrite IH.
Qed.

Lemma split_join c l :
  l ≠ [] → Forall (λ s, c ∉ s) l → split c (join [c] l) = l.
Proof.
  induction l as [|x l IH]; [done|]. intros _ [Hx Hl]%Forall_cons.
  destruct l as [|y l].
  - simpl. by apply split_free.
  - change (join [c] (x :: y :: l)) with (x ++ c :: join [c] (y :: l)).
    rewrite split_app_sep by done. by rewrite IH.
Qed.

(** ** Reading back what was written *)

Lemma omap_strip_well_formed l :
  Forall well_formed_name l →
  omap (λ s, if bool_decide (strip s = []) then None else Some (strip s)) l
  = l.
Proof.
  induction 1 as [|n l (Hne & _ & Hstrip) _ IH]; [done|].
  cbn [omap list_omap].
  rewrite Hstrip, bool_decide_eq_false_2 by done. by rewrite IH.
Qed.

Lemma sorted_elements (S : gset str) : list_to_set (sorted S) = S.
Proof.
  unfold sorted. rewrite merge_sort_Permutation.
  apply list_to_set_elements_L.
Qed.

Lemma read_write (S : gset str) h :
  (∀ n, n ∈ S → well_formed_name n) →
  _read_enabled_plugins (_write_enabled_plugins S h) = S.
Proof.
  intros Hwf. unfold _read_enabled_plugins, _write_enabled_plugins. simpl.
  assert (Forall well_formed_name (sorted S)) as Hall.
  { apply Forall_forall. intros n Hn. apply Hwf.
    rewrite <- (sorted_elements S). by apply elem_of_list_to_set. }
  destruct (sorted S) as [|x l] eqn:Hs.
  - simpl. rewrite <- (sorted_elements S), Hs. done.
  - rewrite split_join; [|done|].
    + rewrite omap_strip_well_formed by done.
      by rewrite <- Hs, sorted_elements.
    + eapply Forall_impl; [exact Hall|]. by intros n (_ & Hc & _).
Qed.

Lemma read_well_formed h n :
  n ∈ _read_enabled_plugins h → well_formed_name n.
Proof.
  unfold _read_enabled_plugins.
  rewrite elem_of_list_to_set, list_elem_of_omap.
  intros (s & Hs & Hn). case_bool_decide as Hnil; [done|].
  injection Hn as <-. split; [done|]. split.
  - intros Hc%strip_with_elem.
    by apply (split_piece_free 44%N (plugins_enabled h) s).
  - apply strip_with_idemp.
Qed.

(** ** The loop over the selected names *)

Lemma toggle_on_fold (names : list str) (current : gset str)
    (changed : bool) :
  (foldl (toggle true) (current, changed) names).1
  = current ∪ list_to_set names
  ∧ ((foldl (toggle true) (current, changed) names).2 = false →
     changed = false ∧ current ∪ list_to_set names = current).
Proof.
  revert current changed.
  induction names as [|n names IH]; intros current changed; simpl.
  - split; [set_solver|]. intros ->. split; [done|set_solver].
  - unfold toggle at 2 4. simpl. case_bool_decide as Hn; simpl.
    + destruct (IH (current ∪ {[n]}) true) as [H1 H2].
      split; [rewrite H1; clear; set_solver|]. intros Hfalse.
      by destruct (H2 Hfalse).
    + destruct (IH current changed) as [H1 H2].
      pose proof Hn as Hin.
      split; [rewrite H1; clear -Hin; set_solver|]. intros Hfalse.
      destruct (H2 Hfalse) as [-> Heq]. split; [done|].
      clear -Hin Heq. set_solver.
Qed.

Lemma toggle_off_fold (names : list str) (current : gset str)
    (changed : bool) :
  (foldl (toggle false) (current, changed) names).1
  = current ∖ list_to_set names
  ∧ ((foldl (toggle false) (current, changed) names).2 = false →
     changed = false ∧ current ∖ list_to_set names = current).
Proof.
  revert current changed.
  induction names as [|n names IH]; intros current changed; simpl.
  - split; [set_solver|]. intros ->. split; [done|set_solver].
  - unfold toggle at 2 4. simpl. case_bool_decide as Hn; simpl.
    + destruct (IH (current ∖ {[n]}) true) as [H1 H2].
      split; [rewrite H1; clear; set_solver|]. intros Hfalse.
      by destruct (H2 Hfalse).
    + destruct (IH current changed) as [H1 H2].
      split; [rewrite H1; clear -Hn; set_solver|]. intros Hfalse.
      destruct (H2 Hfalse) as [-> Heq]. split; [done|].
      clear -Hn Heq. set_solver.
Qed.

(** ** Loading and unloading do not write the enabled string *)

Lemma keeps_ret {A} (a : A) : keeps_enabled (ret a).
Proof. by intros h. Qed.

Lemma keeps_emit es : keeps_enabled (emit es).
Proof. by intros h. Qed.

Lemma keeps_lift {A} (o : outcome A) : keeps_enabled (lift o).
Proof. by intros h. Qed.

Lemma keeps_bind {A B} (m : M A) (k : A → M B) :
  keeps_enabled m → (∀ a, keeps_enabled (k a)) → keeps_enabled (bind m k).
Proof.
  intros Hm Hk h. unfold bind. specialize (Hm h).
  destruct (m h) as [[a|e] h']; simpl in *; [|done].
  by rewrite Hk.
Qed.

Lemma keeps_try_except {A} (body handler : M A) :
  keeps_enabled body → keeps_enabled handler →
  keeps_enabled (try_except body handler).
Proof.
  intros Hb Hh h. unfold try_except. specialize (Hb h).
  destruct (body h) as [[a|[|]] h']; simpl in *; [done| |done].
  by rewrite Hh.
Qed.

Lemma keeps_for_each {A} (l : list A) (f : A → M unit) :
  (∀ x, keeps_enabled (f x)) → keeps_enabled (for_each l f).
Proof.
  intros Hf. induction l as [|x l IH]; simpl; [apply keeps_ret|].
  apply keeps_bind; [apply Hf | by intros _].
Qed.

Lemma bind_modify {B} (f : host → host) (k : unit → M B) h :
  bind (modify f) k h = k tt (f h).
Proof. reflexivity. Qed.

Lemma keeps_status (es : list effect) :
  keeps_enabled (λ h', when (status_bar_visible h') (emit es) h').
Proof. intros h. by destruct (status_bar_visible h). Qed.

Section Bulk.

Variable import_file : str → str → outcome pymodule.

Lemma keeps_load_plugin name : keeps_enabled (load_plugin import_file name).
Proof.
  intros h. unfold load_plugin.
  destruct (plugins_loaded h !! name); [done|].
  destruct (plugins_found h !! name) as [meta|]; [|done].
  apply (keeps_try_except _ _).
  - apply keeps_bind; [apply keeps_emit|]. intros _.
    apply keeps_bind; [apply keeps_lift|]. intros m.
    apply keeps_bind.
    { destruct (mod_register m); [|apply keeps_ret].
      apply keeps_bind; [apply keeps_emit|]. intros _. apply keeps_lift. }
    intros hd. apply keeps_bind; [by intros h'|]. intros _.
    apply keeps_bind; [apply keeps_status|]. intros _. apply keeps_ret.
  - apply keeps_bind; [apply keeps_emit|]. intros _. apply keeps_ret.
Qed.

Lemma keeps_unload_plugin name : keeps_enabled (unload_plugin name).
Proof.
  intros h. unfold unload_plugin.
  destruct (plugins_loaded h !! name) as [it|]; [|done].
  rewrite (keeps_try_except _ _); [done| |apply keeps_emit].
  destruct (mod_unregister (module it)); [|apply keeps_ret].
  apply keeps_bind; [apply keeps_emit|]. intros _. apply keeps_lift.
Qed.

(** What [bulk_set_enabled] leaves in the store: the set computed by its
    first loop, written once, when something changed. *)
Lemma bulk_set_enabled_store names on h :
  let r := foldl (toggle on) (_read_enabled_plugins h, false) names in
  plugins_enabled (bulk_set_enabled import_file names on h).2
  = if r.2 then plugins_enabled (_write_enabled_plugins r.1 h)
    else plugins_enabled h.
Proof.
  intros r. unfold bulk_set_enabled. fold r.
  destruct r as [current [|]]; cbn [fst snd]; [|done].
  rewrite bind_modify. rewrite (keeps_bind _ _); [done| |].
  2:{ intros _. apply keeps_status. }
  destruct on; apply keeps_for_each; intros n h'.
  - destruct (plugins_found h' !! n); [|done].
    apply (keeps_bind _ _); [apply keeps_load_plugin|].
    intros _. apply keeps_ret.
  - destruct (plugins_loaded h' !! n); [|done]. apply keeps_unload_plugin.
Qed.

Lemma read_depends_on_store h h' :
  plugins_enabled h = plugins_enabled h' →
  _read_enabled_plugins h = _read_enabled_plugins h'.
Proof. unfold _read_enabled_plugins. by intros ->. Qed.

Lemma bulk_enable_read names h :
  Forall well_formed_name names →
  _read_enabled_plugins (bulk_set_enabled import_file names true h).2
  = _read_enabled_plugins h ∪ list_to_set names.
Proof.
  intros Hwf.
  pose proof (bulk_set_enabled_store names true h) as Hstore. simpl in Hstore.
  destruct (toggle_on_fold names (_read_enabled_plugins h) false) as [H1 H2].
  destruct (foldl (toggle true) (_read_enabled_plugins h, false) names)
    as [current changed]. simpl in *. subst current.
  destruct changed.
  - rewrite (read_depends_on_store _
               (_write_enabled_plugins
                  (_read_enabled_plugins h ∪ list_to_set names) h) Hstore).
    apply read_write.
    intros n [Hn|Hn]%elem_of_union; [by eapply read_well_formed|].
    apply elem_of_list_to_set in Hn. by eapply Forall_forall in Hwf.
  - rewrite (read_depends_on_store _ h Hstore). by destruct H2 as [_ ->].
Qed.

Lemma bulk_disable_read names h :
  _read_enabled_plugins (bulk_set_enabled import_file names false h).2
  = _read_enabled_plugins h ∖ list_to_set names.
Proof.
  pose proof (bulk_set_enabled_store names false h) as Hstore.
  simpl in Hstore.
  destruct (toggle_off_fold names (_read_enabled_plugins h) false)
    as [H1 H2].
  destruct (foldl (toggle false) (_read_enabled_plugins h, false) names)
    as [current changed]. simpl in *. subst current.
  destruct changed.
  - rewrite (read_depends_on_store _
               (_write_enabled_plugins
                  (_read_enabled_plugins h ∖ list_to_set names) h) Hstore).
    apply read_write.
    intros n [Hn _]%elem_of_difference. by eapply read_well_formed.
  - rewrite (read_depends_on_store _ h Hstore). by destruct H2 as [_ ->].
Qed.

End Bulk.

(** C9, as stated, fails for a comma-free name with whitespace at an end.
    A plugin file that declares [PLUGIN_NAME = "<TAB>Tool"] is found under
    the name <TAB>Tool, which has no comma. Enabling that name on an empty
    store and reading the store back gives the set with the one member
    Tool, not the prior members plus <TAB>Tool. *)
Lemma enabled_name_with_tab_not_kept :
  let name := 9%N :: lit "Tool" in
  let h1 := (bulk_set_enabled sample_import [name] true fresh_host).2 in
  plugin_name (lit "t.py") tab_text = name
  ∧ (44%N ∉ name)
  ∧ _read_enabled_plugins h1 = {[ lit "Tool" ]}
  ∧ _read_enabled_plugins h1 ≠ _read_enabled_plugins fresh_host ∪ {[ name ]}.
Proof.
  intros name h1.
  assert (_read_enabled_plugins h1 = {[ lit "Tool" ]}) as Hread
    by (by vm_compute).
  split; [by vm_compute|]. split.
  { apply (bool_decide_unpack _). by vm_compute. }
  split; [done|]. rewrite Hread. intros Heq.
  assert (name ∈ ({[ lit "Tool" ]} : gset str)) as Hin.
  { rewrite Heq. apply elem_of_union_r. by apply elem_of_singleton. }
  apply elem_of_singleton in Hin. discriminate.
Qed.

(** C9, amended. Take names that are not empty, have no comma and have no
    whitespace at either end. Writing a set of such names and reading it
    back gives the same set. Enabling a list of such names and then reading
    the store gives the members read before plus those names, whatever the
    store held. Disabling any list of names and then reading the store
    gives the members read before minus those names. *)
Theorem enabled_set_round_trip :
  (∀ (S : gset str) h,
     (∀ n, n ∈ S → well_formed_name n) →
     _read_enabled_plugins (_write_enabled_plugins S h) = S)
  ∧ (∀ import_file names h,
       Forall well_formed_name names →
       _read_enabled_plugins (bulk_set_enabled import_file names true h).2
       = _read_enabled_plugins h ∪ list_to_set names)
  ∧ (∀ import_file names h,
       _read_enabled_plugins (bulk_set_enabled import_file names false h).2
       = _read_enabled_plugins h ∖ list_to_set names).
Proof.
  split; [apply read_write|]. split.
  - apply bulk_enable_read.
  - apply bulk_disable_read.
Qed.

Lemma enabled_set_round_trip_witness :
  let h1 :=
    (bulk_set_enabled sample_import [lit "X"; lit "Y"] true sample_host).2 in
  let h2 := (bulk_set_enabled sample_import [lit "X"] false h1).2 in
  Forall well_formed_name [lit "X"; lit "Y"]
  ∧ _read_enabled_plugins h1
    = _read_enabled_plugins sample_host ∪ list_to_set [lit "X"; lit "Y"]
  ∧ _read_enabled_plugins h2
    = _read_enabled_plugins h1 ∖ list_to_set [lit "X"].
Proof.
  intros h1 h2.
  assert (Forall well_formed_name [lit "X"; lit "Y"]) as Hwf.
  { repeat constructor; try discriminate; try reflexivity;
      apply (bool_decide_unpack _); by vm_compute. }
  split; [exact Hwf|]. split.
  - exact (proj1 (proj2 enabled_set_round_trip) sample_import
             [lit "X"; lit "Y"] sample_host Hwf).
  - exact (proj2 (proj2 enabled_set_round_trip) sample_import [lit "X"] h1).
Defined.

End EnabledFacts.

(** * Further properties of the thumbnail work queue *)

Module QueueMore.

Import Thumbs ThumbsExt QueueFacts.

(** ** No idle slot while a job waits *)

Lemma saturated_admit_loop pending s : saturated (admit_loop pending s).
Proof.
  revert s. induction pending as [|[f it] rest IH]; intros s; simpl.
  - by intros ?.
  - destruct (Z.ltb_spec (active_thumbnail_threads s)
                (max_concurrent_thumbnails s)) as [Hlt|Hge].
    + destruct (thumbnail_threads s !! f); apply IH.
    + by intros _.
Qed.

Lemma saturated_enqueue f it s :
  saturated s → saturated (queue_thumbnail_generation f it s).
Proof.
  intros Hs. unfold queue_thumbnail_generation.
  destruct (thumbnail_threads s !! f); [done|]. apply saturated_admit_loop.
Qed.

Lemma saturated_add_one s f : saturated s → saturated (add_one s f).
Proof.
  intros Hs. unfold add_one. destruct (decide (f ∈ video_files s)); [done|].
  unfold queue_thumbnail_generation. simpl.
  destruct (thumbnail_threads s !! f); [exact Hs|].
  apply saturated_admit_loop.
Qed.

Lemma saturated_remove_one s f : saturated s → saturated (remove_one s f).
Proof.
  intros Hs. unfold remove_one.
  destruct (decide (f ∈ video_files s)); simpl;
    (destruct (thumbnail_threads s !! f); [apply saturated_admit_loop|done]).
Qed.

Lemma saturated_foldl {A} (g : viewer → A → viewer) (l : list A) s :
  (∀ s x, saturated s → saturated (g s x)) →
  saturated s → saturated (foldl g s l).
Proof.
  intros Hg. revert s. induction l as [|x l IH]; intros s Hs; simpl; [done|].
  apply IH. by apply Hg.
Qed.

Lemma saturated_step s o : saturated s → saturated (step s o).
Proof.
  intros Hs. destruct o as [files|f it|f|f|sel|]; simpl.
  - apply saturated_foldl; [apply saturated_add_one | done].
  - by apply saturated_enqueue.
  - unfold on_thumbnail_generated.
    destruct (thumbnail_threads s !! f); [apply saturated_admit_loop|done].
  - unfold on_thumbnail_error.
    destruct (thumbnail_threads s !! f); [apply saturated_admit_loop|done].
  - apply saturated_foldl; [apply saturated_remove_one | done].
  - by intros ?.
Qed.

Lemma saturated_run ops : saturated (run ops).
Proof.
  induction ops as [|o ops IH] using rev_ind; [by intros ?|].
  rewrite run_snoc. by apply saturated_step.
Qed.

(** X1. After any sequence of entry points run from [__init__], a waiting
    job means that all three slots are taken: while the waiting sequence is
    not empty, exactly three jobs are active. *)
Theorem waiting_implies_three_active (ops : list op) :
  thumbnail_queue (run ops) ≠ [] → active_thumbnail_threads (run ops) = 3.
Proof.
  intros Hq. pose proof (saturated_run ops Hq) as Hge.
  destruct (run_inv ops) as [Hmax [_ Hle]]. lia.
Qed.

Lemma waiting_implies_three_active_witness :
  let ops := [AddFiles [lit "A.mp4"; lit "B.mp4"; lit "C.mp4"; lit "D.mp4"]] in
  thumbnail_queue (run ops) ≠ [] ∧ active_thumbnail_threads (run ops) = 3.
Proof.
  intros ops.
  assert (thumbnail_queue (run ops) ≠ []) as Hq by (by vm_compute).
  split; [exact Hq|]. exact (waiting_implies_three_active ops Hq).
Defined.

(** ** Every started thread is waited for *)

Lemma starts_of_emit f es s :
  starts_of f (emit es s)
  = (starts_of f s + length (filter (λ e, e = ThreadStart f) es))%nat.
Proof. unfold starts_of. simpl. by rewrite filter_app, length_app. Qed.

Lemma waits_of_emit f es s :
  waits_of f (emit es s)
  = (waits_of f s + length (filter (λ e, e = ThreadWait f) es))%nat.
Proof. unfold waits_of. simpl. by rewrite filter_app, length_app. Qed.

Lemma accounted_set_queue f q s : accounted f s → accounted f (set_queue q s).
Proof. done. Qed.

Lemma accounted_start_thread f g it s :
  accounted f s → thumbnail_threads s !! g = None →
  accounted f (start_thread g it s).
Proof.
  unfold accounted, start_thread, starts_of, waits_of, running.
  cbn [log thumbnail_threads set_active emit set_threads].
  intros Hs Hg. rewrite !filter_app, !length_app.
  rewrite (filter_cons_False (λ e, e = ThreadWait f)) by done.
  destruct (decide (g = f)) as [->|Hne].
  - rewrite filter_cons_True by done.
    rewrite lookup_insert_eq. rewrite Hg in Hs. simpl. lia.
  - rewrite filter_cons_False by congruence.
    rewrite lookup_insert_ne by done. simpl. lia.
Qed.

Lemma accounted_process f s :
  accounted f s → accounted f (process_thumbnail_queue s).
Proof.
  apply admit_loop_preserves.
  - intros q s'. apply accounted_set_queue.
  - intros g it s' Hs' _ Hg. by apply accounted_start_thread.
Qed.

(** Taking a thread out of the table with one [wait] on it, and any number
    of other calls that are neither a start nor a wait. *)
Lemma accounted_release f g x a es s :
  accounted f s → thumbnail_threads s !! g = Some x →
  filter (λ e, e = ThreadStart f) es = [] →
  length (filter (λ e, e = ThreadWait f) es)
  = (if decide (g = f) then 1 else 0)%nat →
  accounted f
    (set_active a (emit es (set_threads (delete g (thumbnail_threads s)) s))).
Proof.
  unfold accounted, starts_of, waits_of, running.
  cbn [log thumbnail_threads set_active emit set_threads].
  intros Hs Hg Hst Hw. rewrite !filter_app, !length_app, Hst, Hw. simpl.
  destruct (decide (g = f)) as [->|Hne].
  - rewrite lookup_delete_eq. rewrite Hg in Hs. lia.
  - rewrite lookup_delete_ne by done. lia.
Qed.

Lemma wait_count_one f g (pre : list effect) :
  Forall (λ e, e ≠ ThreadWait f) pre →
  length (filter (λ e, e = ThreadWait f) (pre ++ [ThreadWait g]))
  = (if decide (g = f) then 1 else 0)%nat.
Proof.
  intros Hpre. rewrite filter_app, length_app.
  replace (filter (λ e, e = ThreadWait f) pre) with (@nil effect).
  2:{ symmetry. induction Hpre as [|e l He _ IH]; [done|].
      by rewrite filter_cons_False. }
  destruct (decide (g = f)) as [->|Hne].
  - by rewrite filter_cons_True.
  - rewrite filter_cons_False; [done|congruence].
Qed.

Lemma accounted_on_thumbnail_generated f g s :
  accounted f s → accounted f (on_thumbnail_generated g s).
Proof.
  intros Hs. unfold on_thumbnail_generated.
  destruct (thumbnail_threads s !! g) as [x|] eqn:Hg; [|done].
  apply accounted_process. eapply accounted_release; [done..| |].
  - by rewrite !filter_cons_False.
  - apply (wait_count_one f g [SetIcon x]). by repeat constructor.
Qed.

Lemma accounted_on_thumbnail_error f g s :
  accounted f s → accounted f (on_thumbnail_error g s).
Proof.
  intros Hs. unfold on_thumbnail_error.
  destruct (thumbnail_threads s !! g) as [x|] eqn:Hg; [|done].
  apply accounted_process. eapply accounted_release; [done..| |].
  - by rewrite !filter_cons_False.
  - apply (wait_count_one f g []). constructor.
Qed.

Lemma accounted_remove_one f s g : accounted f s → accounted f (remove_one s g).
Proof.
  intros Hs. unfold remove_one.
  set (s1 := if decide (g ∈ video_files s) then _ else s).
  assert (accounted f s1) as Hs1.
  { subst s1. by destruct (decide (g ∈ video_files s)). }
  destruct (thumbnail_threads s1 !! g) as [x|] eqn:Hg; [|done].
  apply accounted_process. eapply accounted_release; [done..| |].
  - by rewrite !filter_cons_False.
  - apply (wait_count_one f g [ThreadStop g]). by repeat constructor.
Qed.

Lemma accounted_add_one f s g : accounted f s → accounted f (add_one s g).
Proof.
  intros Hs. unfold add_one. destruct (decide (g ∈ video_files s)); [done|].
  unfold queue_thumbnail_generation. simpl.
  destruct (thumbnail_threads s !! g); [exact Hs|].
  by apply accounted_process.
Qed.

(** The calls [clear_file_list] makes on the threads of a table. *)
Lemma clear_stops_count f (l : list (str * item)) :
  NoDup l.*1 →
  filter (λ e, e = ThreadStart f)
    (flat_map (λ kv : str * item, [ThreadStop kv.1; ThreadWait kv.1]) l) = []
  ∧ length (filter (λ e, e = ThreadWait f)
              (flat_map (λ kv : str * item, [ThreadStop kv.1; ThreadWait kv.1])
                 l))
    = (if decide (f ∈ l.*1) then 1 else 0)%nat.
Proof.
  induction l as [|[g it] l IH]; intros Hnd.
  - split; [done|]. cbn [flat_map fmap list_fmap].
    destruct (decide (f ∈ [])) as [Hin|_]; [|done].
    by apply elem_of_nil in Hin.
  - apply NoDup_cons in Hnd as [Hg Hnd]. destruct (IH Hnd) as [IH1 IH2].
    cbn [flat_map fmap list_fmap fst app] in *. split.
    + by rewrite !filter_cons_False.
    + rewrite (filter_cons_False _ (ThreadStop g)) by done.
      destruct (decide (g = f)) as [->|Hne].
      * rewrite filter_cons_True by done. simpl. rewrite IH2.
        rewrite decide_False by done.
        rewrite decide_True; [done|]. by left.
      * rewrite filter_cons_False by congruence. rewrite IH2.
        destruct (decide (f ∈ l.*1)) as [Hin|Hnin].
        -- rewrite decide_True; [done|]. by right.
        -- rewrite decide_False; [done|].
           intros [?|?]%elem_of_cons; [congruence|done].
Qed.

Lemma accounted_clear_file_list f s :
  accounted f s → accounted f (clear_file_list s).
Proof.
  unfold accounted, clear_file_list, starts_of, waits_of, running.
  cbn [log thumbnail_threads set_active emit set_threads set_queue
       set_video_files].
  intros Hs. rewrite !filter_app, !length_app.
  destruct (clear_stops_count f (map_to_list (thumbnail_threads s)))
    as [H1 H2]; [apply NoDup_fst_map_to_list|].
  rewrite H1, H2, lookup_empty. simpl.
  destruct (thumbnail_threads s !! f) as [x|] eqn:Hf.
  - rewrite decide_True; [lia|].
    apply (list_elem_of_fmap_2 fst _ (f, x)). by apply elem_of_map_to_list.
  - rewrite decide_False; [lia|].
    intros ([g x] & -> & Hin%elem_of_map_to_list)%list_elem_of_fmap.
    simpl in Hf. congruence.
Qed.

Lemma accounted_foldl {A} f (g : viewer → A → viewer) (l : list A) s :
  (∀ s x, accounted f s → accounted f (g s x)) →
  accounted f s → accounted f (foldl g s l).
Proof.
  intros Hg. revert s. induction l as [|x l IH]; intros s Hs; simpl; [done|].
  apply IH. by apply Hg.
Qed.

Lemma accounted_step f s o : accounted f s → accounted f (step s o).
Proof.
  intros Hs. destruct o as [files|g it|g|g|sel|]; simpl.
  - apply accounted_foldl; [apply accounted_add_one | done].
  - unfold queue_thumbnail_generation.
    destruct (thumbnail_threads s !! g); [done|]. by apply accounted_process.
  - by apply accounted_on_thumbnail_generated.
  - by apply accounted_on_thumbnail_error.
  - apply accounted_foldl; [apply accounted_remove_one | done].
  - by apply accounted_clear_file_list.
Qed.

(** X2. After any sequence of entry points run from [__init__] and for
    every file, the number of threads started for the file equals the
    number of [wait] calls made on its threads, plus one when the file has a
    thread in the table: a thread leaves the table only with a [wait], and
    no thread is started twice without one in between. *)
Theorem threads_started_are_waited_for (ops : list op) (f : str) :
  starts_of f (run ops) = (waits_of f (run ops) + running (run ops) f)%nat.
Proof.
  induction ops as [|o ops IH] using rev_ind; [done|].
  rewrite run_snoc. by apply accounted_step.
Qed.

(** ** The list of files *)

Lemma video_files_process s :
  video_files (process_thumbnail_queue s) = video_files s.
Proof.
  apply (admit_loop_preserves (λ s', video_files s' = video_files s)); done.
Qed.

Lemma video_files_enqueue f it s :
  video_files (queue_thumbnail_generation f it s) = video_files s.
Proof.
  unfold queue_thumbnail_generation.
  destruct (thumbnail_threads s !! f); [done|]. by rewrite video_files_process.
Qed.

Lemma video_files_add_one s f :
  video_files (add_one s f)
  = if decide (f ∈ video_files s) then video_files s
    else video_files s ++ [f].
Proof.
  unfold add_one. destruct (decide (f ∈ video_files s)); [done|].
  by rewrite video_files_enqueue.
Qed.

Lemma add_files_noop files s :
  (∀ f, f ∈ files → f ∈ video_files s) → add_files_to_list files s = s.
Proof.
  unfold add_files_to_list. induction files as [|f files IH]; intros Hin;
    simpl; [done|].
  unfold add_one at 2. rewrite decide_True by (apply Hin; by left).
  apply IH. intros g Hg. apply Hin. by right.
Qed.

Lemma add_files_all_listed files s f :
  f ∈ video_files s ∨ f ∈ files → f ∈ video_files (add_files_to_list files s).
Proof.
  unfold add_files_to_list. revert s.
  induction files as [|x files IH]; intros s; simpl.
  - intros [?|Hf]; [done|]. by apply elem_of_nil in Hf.
  - intros Hf. apply IH. rewrite video_files_add_one.
    destruct (decide (x ∈ video_files s)) as [Hx|Hx].
    + destruct Hf as [?|[->|?]%elem_of_cons]; auto.
    + rewrite elem_of_app, list_elem_of_singleton.
      destruct Hf as [?|[->|?]%elem_of_cons]; auto.
Qed.

(** X3. Adding a list of files a second time changes nothing: every file of
    the list is in [video_files] after the first call, so the second call
    skips them all, adds no list item and submits no job. *)
Theorem add_files_twice (files : list str) (s : viewer) :
  add_files_to_list files (add_files_to_list files s)
  = add_files_to_list files s.
Proof.
  apply add_files_noop. intros f Hf. apply add_files_all_listed. by right.
Qed.

Lemma list_remove_sublist x l : list_remove x l `sublist_of` l.
Proof.
  induction l as [|y l IH]; simpl; [done|].
  destruct (decide (x = y)); [by apply sublist_cons | by apply sublist_skip].
Qed.

Lemma list_remove_gone x l : NoDup l → x ∉ list_remove x l.
Proof.
  induction l as [|y l IH]; simpl; intros Hnd; [apply not_elem_of_nil|].
  apply NoDup_cons in Hnd as [Hy Hnd].
  destruct (decide (x = y)) as [->|Hne]; [done|].
  apply not_elem_of_cons. split; [done|]. by apply IH.
Qed.

Lemma video_files_remove_one s f :
  video_files (remove_one s f)
  = if decide (f ∈ video_files s) then list_remove f (video_files s)
    else video_files s.
Proof.
  unfold remove_one.
  destruct (decide (f ∈ video_files s)); simpl;
    destruct (thumbnail_threads s !! f); by rewrite ?video_files_process.
Qed.

Lemma video_files_remove_one_sublist s f :
  video_files (remove_one s f) `sublist_of` video_files s.
Proof.
  rewrite video_files_remove_one.
  destruct (decide (f ∈ video_files s)); [apply list_remove_sublist | done].
Qed.

Lemma video_files_remove_selected_sublist sel s :
  video_files (remove_selected_files sel s) `sublist_of` video_files s.
Proof.
  unfold remove_selected_files. revert s.
  induction sel as [|x sel IH]; intros s; simpl; [done|].
  etrans; [apply IH | apply video_files_remove_one_sublist].
Qed.

Lemma remove_selected_gone sel s f :
  NoDup (video_files s) → f ∈ sel →
  f ∉ video_files (remove_selected_files sel s).
Proof.
  unfold remove_selected_files. revert s.
  induction sel as [|x sel IH]; intros s Hnd Hf; simpl.
  - by apply elem_of_nil in Hf.
  - assert (NoDup (video_files (remove_one s x))) as Hnd'.
    { eapply sublist_NoDup; [done | apply video_files_remove_one_sublist]. }
    destruct (decide (f ∈ sel)) as [Hin|Hnin]; [by apply IH|].
    apply elem_of_cons in Hf as [->|?]; [|done].
    intros Hx.
    assert (x ∈ video_files (remove_one s x)) as Hx'.
    { eapply elem_of_sublist; [exact Hx|].
      apply (video_files_remove_selected_sublist sel). }
    revert Hx'. rewrite video_files_remove_one.
    destruct (decide (x ∈ video_files s)); [by apply list_remove_gone | done].
Qed.

Lemma NoDup_video_files_step s o :
  NoDup (video_files s) → NoDup (video_files (step s o)).
Proof.
  intros Hnd. destruct o as [files|f it|f|f|sel|]; simpl.
  - unfold add_files_to_list. revert s Hnd.
    induction files as [|x files IH]; intros s Hnd; simpl; [done|].
    apply IH. rewrite video_files_add_one.
    destruct (decide (x ∈ video_files s)); [done|].
    apply NoDup_app. split; [done|]. split; [|apply NoDup_singleton].
    intros y Hy ->%list_elem_of_singleton. done.
  - by rewrite video_files_enqueue.
  - unfold on_thumbnail_generated.
    destruct (thumbnail_threads s !! f); by rewrite ?video_files_process.
  - unfold on_thumbnail_error.
    destruct (thumbnail_threads s !! f); by rewrite ?video_files_process.
  - eapply sublist_NoDup; [done | apply video_files_remove_selected_sublist].
  - by apply NoDup_nil.
Qed.

(** X4. After any sequence of entry points run from [__init__] no file is
    listed twice in [video_files], and [remove_selected_files] leaves none
    of the selected files in the list. *)
Theorem video_files_unique_and_removed (ops : list op) :
  NoDup (video_files (run ops))
  ∧ ∀ sel f, f ∈ sel →
      f ∉ video_files (step (run ops) (RemoveSelected sel)).
Proof.
  assert (NoDup (video_files (run ops))) as Hnd.
  { induction ops as [|o ops IH] using rev_ind; [by apply NoDup_nil|].
    rewrite run_snoc. by apply NoDup_video_files_step. }
  split; [done|]. intros sel f Hf. by apply remove_selected_gone.
Qed.

End QueueMore.

(** * Further properties of the plugin lifecycle *)

Module LifecycleMore.

Import Py Plugins PluginOps PluginFacts.

Section Callers.

Variable import_file : str → str → outcome pymodule.

(** ** Fields a computation leaves alone *)

Lemma inert_plugins_dir : inert plugins_dir.
Proof. by split. Qed.

Lemma inert_plugins_found : inert plugins_found.
Proof. by split. Qed.

Lemma inert_plugins_enabled : inert plugins_enabled.
Proof. by split. Qed.

Section Keeps.

Context {B : Type} (field : host → B).

Lemma kept_ret {A} (a : A) : keeps field (ret a).
Proof. by intros h. Qed.

Lemma kept_lift {A} (o : outcome A) : keeps field (lift o).
Proof. by intros h. Qed.

Lemma kept_emit es : inert field → keeps field (emit es).
Proof. intros [He _] h. apply He. Qed.

Lemma kept_bind {A C} (m : M A) (k : A → M C) :
  keeps field m → (∀ a, keeps field (k a)) → keeps field (bind m k).
Proof.
  intros Hm Hk h. unfold bind. specialize (Hm h).
  destruct (m h) as [[a|e] h']; simpl in *; [|done].
  by rewrite Hk.
Qed.

Lemma kept_try_except {A} (body handler : M A) :
  keeps field body → keeps field handler →
  keeps field (try_except body handler).
Proof.
  intros Hb Hh h. unfold try_except. specialize (Hb h).
  destruct (body h) as [[a|[|]] h']; simpl in *; [done| |done].
  by rewrite Hh.
Qed.

Lemma kept_for_each {A} (l : list A) (f : A → M unit) :
  (∀ x, keeps field (f x)) → keeps field (for_each l f).
Proof.
  intros Hf. induction l as [|x l IH]; simpl; [apply kept_ret|].
  apply kept_bind; [apply Hf | by intros _].
Qed.

Lemma kept_dependent {A} (m : host → M A) :
  (∀ h0, keeps field (m h0)) → keeps field (λ h, m h h).
Proof. intros Hm h. apply Hm. Qed.

End Keeps.

(** ** What one load or unload touches *)

Lemma load_plugin_frame name h :
  plugins_found (load_plugin import_file name h).2 = plugins_found h
  ∧ plugins_enabled (load_plugin import_file name h).2 = plugins_enabled h
  ∧ ∀ k, k ≠ name →
      plugins_loaded (load_plugin import_file name h).2 !! k
      = plugins_loaded h !! k.
Proof.
  destruct (plugins_loaded h !! name) as [it|] eqn:Hl.
  { unfold load_plugin. by rewrite Hl. }
  destruct (plugins_found h !! name) as [meta|] eqn:Hf.
  2:{ unfold load_plugin. by rewrite Hl, Hf. }
  rewrite (load_plugin_cases import_file h name meta Hl Hf).
  destruct (import_file _ _) as [m|[|]]; [|done..].
  destruct (mod_register m) as [[hd|[|]]|]; simpl; try done;
    destruct (status_bar_visible h); simpl;
    (split; [done|]; split; [done|]); intros k Hk;
    by rewrite lookup_insert_ne.
Qed.

Lemma not_loads_cleanly_import name h meta e :
  plugins_found h !! name = Some meta →
  import_file (module_name name) (path meta) = Raises e →
  ¬ loads_cleanly import_file (plugins_found h) name.
Proof.
  intros Hf Hi (meta' & m & Hf' & Hi' & _).
  rewrite Hf in Hf'. injection Hf' as <-. rewrite Hi in Hi'. discriminate.
Qed.

Lemma not_loads_cleanly_register name h meta m e :
  plugins_found h !! name = Some meta →
  import_file (module_name name) (path meta) = Returns m →
  mod_register m = Some (Raises e) →
  ¬ loads_cleanly import_file (plugins_found h) name.
Proof.
  intros Hf Hi Hr (meta' & m' & Hf' & Hi' & Hr').
  rewrite Hf in Hf'. injection Hf' as <-.
  rewrite Hi in Hi'. injection Hi' as <-.
  rewrite Hr in Hr'. by destruct Hr' as [?|[? ?]].
Qed.

(** The four ways a call of [load_plugin] can end. *)
Lemma load_plugin_spec name h :
  let r := (load_plugin import_file name h).1 in
  let h' := (load_plugin import_file name h).2 in
  (r = Returns true ∧ loaded h name ∧ h' = h)
  ∨ (r = Returns true ∧ ¬ loaded h name
     ∧ loads_cleanly import_file (plugins_found h) name
     ∧ ∃ it, plugins_loaded h' = <[name := it]> (plugins_loaded h))
  ∨ (r = Returns false ∧ ¬ loaded h name
     ∧ ¬ loads_cleanly import_file (plugins_found h) name
     ∧ plugins_loaded h' = plugins_loaded h)
  ∨ (r = Raises BaseExceptionOnly ∧ plugins_loaded h' = plugins_loaded h).
Proof.
  intros r h'. subst r h'. unfold loaded.
  destruct (plugins_loaded h !! name) as [it|] eqn:Hl.
  { left. unfold load_plugin. rewrite Hl. by split; [|split; [eexists|]]. }
  assert (¬ is_Some (@None loaded_item)) as Hnot by (by intros [? ?]).
  destruct (plugins_found h !! name) as [meta|] eqn:Hf.
  2:{ right. right. left. unfold load_plugin. rewrite Hl, Hf.
      split; [done|]. split; [done|]. split; [|done].
      intros (meta & m & ? & _). congruence. }
  rewrite (load_plugin_cases import_file h name meta Hl Hf).
  destruct (import_file _ _) as [m|[|]] eqn:Himp.
  - destruct (mod_register m) as [[hd|[|]]|] eqn:Hr.
    + right. left. split; [done|]. split; [done|]. split.
      { exists meta, m. split; [done|]. split; [done|]. right. by eexists. }
      exists (LoadedItem m hd). simpl. by destruct (status_bar_visible h).
    + right. right. left. split; [done|]. split; [done|]. split; [|done].
      by eapply not_loads_cleanly_register.
    + right. right. right. by split.
    + right. left. split; [done|]. split; [done|]. split.
      { exists meta, m. split; [done|]. split; [done|]. by left. }
      exists (LoadedItem m PyNone). simpl. by destruct (status_bar_visible h).
  - right. right. left. split; [done|]. split; [done|]. split; [|done].
    by eapply not_loads_cleanly_import.
  - right. right. right. by split.
Qed.

(** X5. The answer of [load_plugin] says whether the plugin is in the
    loaded set afterwards: whenever the call returns, it returns [True]
    exactly when the plugin is loaded after it. The call never changes the
    scan result, the enabled string, or the entry of any other plugin. *)
Theorem load_plugin_answer_is_truthful name h :
  (∀ b, (load_plugin import_file name h).1 = Returns b →
        (b = true ↔ loaded (load_plugin import_file name h).2 name))
  ∧ plugins_found (load_plugin import_file name h).2 = plugins_found h
  ∧ plugins_enabled (load_plugin import_file name h).2 = plugins_enabled h
  ∧ ∀ k, k ≠ name →
      plugins_loaded (load_plugin import_file name h).2 !! k
      = plugins_loaded h !! k.
Proof.
  split; [|apply load_plugin_frame].
  intros b Hb. unfold loaded in *.
  destruct (load_plugin_spec name h)
    as [(Hr & Hl & ->)|[(Hr & Hl & _ & it & ->)|[(Hr & Hl & _ & ->)|(Hr & _)]]];
    rewrite Hr in Hb; simplify_eq.
  - done.
  - split; [|done]. intros _. rewrite lookup_insert_eq. by eexists.
  - split; [done|]. intros Hin. by destruct Hl.
Qed.

Lemma kept_load_plugin {B} (field : host → B) name :
  inert field → keeps field (load_plugin import_file name).
Proof.
  intros Hin. pose proof Hin as [He Hs]. intros h. unfold load_plugin.
  destruct (plugins_loaded h !! name); [done|].
  destruct (plugins_found h !! name) as [meta|]; [|done].
  apply (kept_try_except field).
  - apply kept_bind; [by apply kept_emit|]. intros _.
    apply kept_bind; [apply kept_lift|]. intros m.
    apply kept_bind.
    { destruct (mod_register m); [|apply kept_ret].
      apply kept_bind; [by apply kept_emit|]. intros _. apply kept_lift. }
    intros hd. apply kept_bind; [intros h'; apply Hs|]. intros _.
    apply kept_bind; [|intros _; apply kept_ret].
    intros h'. destruct (status_bar_visible h'); [apply He | done].
  - apply kept_bind; [by apply kept_emit|]. intros _. apply kept_ret.
Qed.

Lemma kept_unload_plugin {B} (field : host → B) name :
  inert field → keeps field (unload_plugin name).
Proof.
  intros Hin. pose proof Hin as [He Hs]. intros h. unfold unload_plugin.
  destruct (plugins_loaded h !! name) as [it|]; [|done].
  rewrite (kept_try_except field); [apply Hs| |by apply kept_emit].
  destruct (mod_unregister (module it)); [|apply kept_ret].
  apply kept_bind; [by apply kept_emit|]. intros _. apply kept_lift.
Qed.

Lemma kept_load_if_found {B} (field : host → B) name :
  inert field → keeps field (load_if_found import_file name).
Proof.
  intros Hin h. unfold load_if_found.
  destruct (plugins_found h !! name); [|done].
  apply (kept_bind field); [by apply kept_load_plugin|].
  intros _. apply kept_ret.
Qed.

(** ** Unloading *)

Lemma unload_plugin_spec name h :
  plugins_loaded (unload_plugin name h).2 = delete name (plugins_loaded h)
  ∧ ((unload_plugin name h).1 = Returns tt
     ∨ (unload_plugin name h).1 = Raises BaseExceptionOnly).
Proof.
  unfold unload_plugin.
  destruct (plugins_loaded h !! name) as [it|] eqn:Hit; simpl.
  - unfold try_except, bind, emit, modify, lift, ret.
    destruct (mod_unregister (module it)) as [u|]; simpl; [|by split; [|left]].
    destruct (u (handle it)) as [[]|[|]]; simpl; split; auto.
  - split; [by rewrite delete_id | by left].
Qed.

Lemma for_each_unload_spec ks h h' :
  for_each ks unload_plugin h = (Returns tt, h') →
  ∀ k, plugins_loaded h' !! k
       = if decide (k ∈ ks) then None else plugins_loaded h !! k.
Proof.
  revert h. induction ks as [|n ks IH]; intros h; cbn [for_each].
  - intros [= <-] k. destruct (decide (k ∈ [])) as [Hin|]; [|done].
    by apply elem_of_nil in Hin.
  - unfold bind. destruct (unload_plugin_spec n h) as [Hdel _].
    destruct (unload_plugin n h) as [[[]|e] h1]; [|done]. simpl in Hdel.
    intros Hrest k. rewrite (IH h1 Hrest k), Hdel.
    destruct (decide (k ∈ ks)) as [Hin|Hnin].
    + rewrite decide_True; [done|by right].
    + destruct (decide (k = n)) as [->|Hne].
      * rewrite decide_True by (by left). apply lookup_delete_eq.
      * rewrite decide_False.
        -- by apply lookup_delete_ne.
        -- intros [?|?]%elem_of_cons; done.
Qed.

(** ** Loading what is enabled *)

Lemma load_if_found_spec n h h1 :
  load_if_found import_file n h = (Returns tt, h1) →
  ∀ k, loaded h1 k
       ↔ loaded h k ∨ (k = n ∧ loads_cleanly import_file (plugins_found h) n).
Proof.
  unfold load_if_found.
  destruct (plugins_found h !! n) as [meta|] eqn:Hf.
  2:{ intros [= <-] k. split; [by left|].
      intros [?|[_ (meta & m & ? & _)]]; [done|congruence]. }
  unfold bind.
  pose proof (load_plugin_spec n h) as Hspec.
  pose proof (load_plugin_frame n h) as (_ & _ & Hother).
  destruct (load_plugin import_file n h) as [[b|e] h2]; [|done].
  simpl in *. intros [= <-] k. unfold loaded in *.
  destruct Hspec
    as [(_ & Hl & ->)|[(_ & Hl & Hc & it & Hins)|[(_ & Hl & Hc & Heq)|(? & _)]]].
  - split; [by left|]. intros [?|[-> _]]; done.
  - rewrite Hins. destruct (decide (k = n)) as [->|Hne].
    + rewrite lookup_insert_eq. split; [by right|by eexists].
    + rewrite lookup_insert_ne by done. split; [by left|].
      intros [?|[? _]]; done.
  - rewrite Heq. split; [by left|]. intros [?|[_ ?]]; done.
  - done.
Qed.

Lemma for_each_load_spec names h h' :
  for_each names (load_if_found import_file) h = (Returns tt, h') →
  ∀ k, loaded h' k
       ↔ loaded h k
         ∨ (k ∈ names ∧ loads_cleanly import_file (plugins_found h) k).
Proof.
  revert h. induction names as [|n names IH]; intros h; simpl.
  - intros [= <-] k. split; [by left|].
    intros [?|[Hk _]]; [done|]. by apply elem_of_nil in Hk.
  - unfold bind.
    pose proof (load_if_found_spec n h) as Hone.
    pose proof (kept_load_if_found plugins_found n inert_plugins_found h)
      as Hfound.
    destruct (load_if_found import_file n h) as [[[]|e] h1]; [|done].
    simpl in Hfound. intros Hrest k.
    rewrite (IH h1 Hrest k), Hfound, (Hone h1 eq_refl k), elem_of_cons.
    split.
    + intros [[?|[-> ?]]|[? ?]]; auto.
    + intros [?|[[->|?] ?]]; auto.
Qed.

Lemma scan_plugins_found_dir d h1 h2 :
  plugins_dir h1 = plugins_dir h2 →
  plugins_found (scan_plugins d h1) = plugins_found (scan_plugins d h2).
Proof. intros Hdir. destruct d; simpl; by rewrite ?Hdir. Qed.

Lemma scan_plugins_keeps d h :
  plugins_loaded (scan_plugins d h) = plugins_loaded h
  ∧ plugins_enabled (scan_plugins d h) = plugins_enabled h
  ∧ plugins_dir (scan_plugins d h) = plugins_dir h.
Proof. by destruct d. Qed.

Lemma read_scan_plugins d h :
  _read_enabled_plugins (scan_plugins d h) = _read_enabled_plugins h.
Proof. by destruct d. Qed.

Lemma load_enabled_spec h h' :
  load_enabled import_file h = (Returns tt, h') →
  plugins_found h' = plugins_found h
  ∧ ∀ k, loaded h' k
         ↔ loaded h k
           ∨ (k ∈ _read_enabled_plugins h
              ∧ loads_cleanly import_file (plugins_found h) k).
Proof.
  unfold load_enabled. intros Hrun. split.
  - pose proof (kept_for_each plugins_found (elements (_read_enabled_plugins h))
                  (load_if_found import_file)
                  (λ n, kept_load_if_found plugins_found n inert_plugins_found)
                  h) as Hk.
    by rewrite Hrun in Hk.
  - intros k. rewrite (for_each_load_spec _ _ _ Hrun k).
    by rewrite elem_of_elements.
Qed.

(** ** Error boxes while loading what is enabled *)

Lemma load_if_found_log n h h1 :
  load_if_found import_file n h = (Returns tt, h1) →
  ∃ new,
    log h1 = log h ++ new
    ∧ ∀ k, k ∈ error_boxes new
           ↔ k = n ∧ is_Some (plugins_found h !! n) ∧ ¬ loaded h n
             ∧ ¬ loads_cleanly import_file (plugins_found h) n.
Proof.
  unfold load_if_found.
  destruct (plugins_found h !! n) as [meta|] eqn:Hf.
  2:{ intros [= <-]. exists []. rewrite app_nil_r. split; [done|].
      intros k. split; [by intros ?%elem_of_nil|].
      by intros (_ & [? ?] & _). }
  unfold bind. destruct (plugins_loaded h !! n) as [it|] eqn:Hl.
  { rewrite (load_loaded_noop import_file h n) by (by exists it).
    intros [= <-]. exists []. rewrite app_nil_r. split; [done|].
    intros k. split; [by intros ?%elem_of_nil|].
    intros (_ & _ & Hnot & _). destruct Hnot. by exists it. }
  assert (¬ loaded h n) as Hnot.
  { unfold loaded. rewrite Hl. by intros [? ?]. }
  rewrite (load_plugin_cases import_file h n meta Hl Hf).
  destruct (import_file _ _) as [m|[|]] eqn:Himp; [| |done].
  - destruct (mod_register m) as [[hd|[|]]|] eqn:Hr; [| |done|].
    + intros [= <-].
      exists ([ExecModule (module_name n) (path meta); CallRegister n]
              ++ if status_bar_visible h then [StatusLoaded n] else []).
      split.
      { destruct (status_bar_visible h); simpl;
          by rewrite <- ?app_assoc, ?app_nil_r. }
      intros k. split.
      * destruct (status_bar_visible h); simpl; by intros ?%elem_of_nil.
      * intros (_ & _ & _ & Hc). destruct Hc. exists meta, m.
        split; [done|]. split; [done|]. right. by eexists.
    + intros [= <-].
      exists [ExecModule (module_name n) (path meta); CallRegister n;
              PrintTraceback; MessageBoxCritical n].
      split; [simpl; by rewrite <- !app_assoc|].
      intros k. simpl. rewrite list_elem_of_singleton. split.
      * intros ->. split; [done|]. split; [by eexists|]. split; [done|].
        by eapply not_loads_cleanly_register.
      * by intros [-> _].
    + intros [= <-].
      exists ([ExecModule (module_name n) (path meta)]
              ++ if status_bar_visible h then [StatusLoaded n] else []).
      split.
      { destruct (status_bar_visible h); simpl;
          by rewrite <- ?app_assoc, ?app_nil_r. }
      intros k. split.
      * destruct (status_bar_visible h); simpl; by intros ?%elem_of_nil.
      * intros (_ & _ & _ & Hc). destruct Hc. exists meta, m.
        split; [done|]. split; [done|]. by left.
  - intros [= <-].
    exists [ExecModule (module_name n) (path meta);
            PrintTraceback; MessageBoxCritical n].
    split; [simpl; by rewrite <- !app_assoc|].
    intros k. simpl. rewrite list_elem_of_singleton. split.
    + intros ->. split; [done|]. split; [by eexists|]. split; [done|].
      by eapply not_loads_cleanly_import.
    + by intros [-> _].
Qed.

Lemma for_each_load_log names h h' :
  NoDup names →
  for_each names (load_if_found import_file) h = (Returns tt, h') →
  ∃ new,
    log h' = log h ++ new
    ∧ ∀ k, k ∈ error_boxes new
           ↔ k ∈ names ∧ is_Some (plugins_found h !! k) ∧ ¬ loaded h k
             ∧ ¬ loads_cleanly import_file (plugins_found h) k.
Proof.
  intros Hnd. revert h.
  induction names as [|n names IH]; intros h; cbn [for_each].
  - intros [= <-]. exists []. rewrite app_nil_r. split; [done|].
    intros k. split; [by intros ?%elem_of_nil|].
    by intros [?%elem_of_nil _].
  - apply NoDup_cons in Hnd as [Hn Hnd]. unfold bind.
    pose proof (load_if_found_log n h) as Hone.
    pose proof (load_if_found_spec n h) as Hloaded.
    pose proof (kept_load_if_found plugins_found n inert_plugins_found h)
      as Hfound.
    destruct (load_if_found import_file n h) as [[[]|e] h1]; [|done].
    simpl in Hfound. intros Hrest.
    destruct (Hone h1 eq_refl) as (new1 & Hlog1 & Hbox1).
    destruct (IH Hnd h1 Hrest) as (new2 & Hlog2 & Hbox2).
    specialize (Hloaded h1 eq_refl).
    exists (new1 ++ new2). split; [by rewrite Hlog2, Hlog1, <- app_assoc|].
    intros k. unfold error_boxes in *.
    rewrite omap_app, elem_of_app, Hbox1, Hbox2, Hfound, elem_of_cons.
    split.
    + intros [(-> & ? & ? & ?)|(? & ? & Hnot & ?)].
      * split; [by left|done].
      * split; [by right|]. split; [done|]. split; [|done].
        intros Hk. apply Hnot, Hloaded. by left.
    + intros ([->|Hk] & ? & Hnot & ?); [by left|right].
      split; [done|]. split; [done|]. split; [|done].
      intros [?|[-> _]]%Hloaded; done.
Qed.

(** X6. When [load_plugins_on_start] returns, the scan result is the one of
    the directory, and a plugin is loaded exactly when it was loaded before
    the call (none is at start-up) or its name is in the stored enabled set,
    the scan found it, and its file imported and registered without
    raising. An error box is shown for exactly the enabled names that the
    scan found, that were not loaded, and that failed to load; so an
    enabled name that the scan did not find is passed over without one. *)
Theorem load_plugins_on_start_loads d h h' :
  load_plugins_on_start import_file d h = (Returns tt, h') →
  let found := plugins_found (scan_plugins d h) in
  plugins_found h' = found
  ∧ (∀ k, loaded h' k
          ↔ loaded h k
            ∨ (k ∈ _read_enabled_plugins h
               ∧ loads_cleanly import_file found k))
  ∧ ∃ new,
      log h' = log (scan_plugins d h) ++ new
      ∧ ∀ k, k ∈ error_boxes new
             ↔ k ∈ _read_enabled_plugins h ∧ is_Some (found !! k)
               ∧ ¬ loaded h k ∧ ¬ loads_cleanly import_file found k.
Proof.
  intros Hrun found. revert Hrun.
  unfold load_plugins_on_start. rewrite EnabledFacts.bind_modify.
  intros Hrun.
  destruct (load_enabled_spec _ _ Hrun) as [Hfound Hloaded].
  split; [done|]. split.
  - intros k. rewrite (Hloaded k), read_scan_plugins.
    unfold loaded. by destruct (scan_plugins_keeps d h) as (-> & _).
  - unfold load_enabled in Hrun.
    destruct (for_each_load_log _ _ _ (NoDup_elements _) Hrun)
      as (new & Hlog & Hbox).
    exists new. split; [done|]. intros k.
    rewrite (Hbox k), elem_of_elements, read_scan_plugins.
    unfold loaded. by destruct (scan_plugins_keeps d h) as (-> & _).
Qed.

(** X7. When [reload_plugins] returns, the scan result is the one of the
    directory and the loaded plugins are exactly those whose name is in the
    stored enabled set, that the scan found, and whose file imported and
    registered without raising: what was loaded before does not matter. *)
Theorem reload_plugins_resynchronises d h h' :
  reload_plugins import_file d h = (Returns tt, h') →
  plugins_found h' = plugins_found (scan_plugins d h)
  ∧ ∀ k, loaded h' k
         ↔ k ∈ _read_enabled_plugins h
           ∧ loads_cleanly import_file (plugins_found (scan_plugins d h)) k.
Proof.
  unfold reload_plugins. unfold bind at 1.
  pose proof (for_each_unload_spec (map_to_list (plugins_loaded h)).*1 h)
    as Hun.
  pose proof (kept_for_each plugins_dir (map_to_list (plugins_loaded h)).*1
                unload_plugin
                (λ n, kept_unload_plugin plugins_dir n inert_plugins_dir) h)
    as Hdir.
  pose proof (kept_for_each plugins_enabled
                (map_to_list (plugins_loaded h)).*1 unload_plugin
                (λ n, kept_unload_plugin plugins_enabled n
                        inert_plugins_enabled) h) as Hen.
  destruct (for_each (map_to_list (plugins_loaded h)).*1 unload_plugin h)
    as [[[]|e] h1]; [|done].
  simpl in Hdir, Hen. specialize (Hun h1 eq_refl).
  rewrite EnabledFacts.bind_modify.
  intros [Hfound Hloaded]%load_enabled_spec.
  rewrite (scan_plugins_found_dir d h1 h Hdir) in Hfound, Hloaded.
  split; [done|]. intros k. rewrite (Hloaded k), read_scan_plugins.
  assert (_read_enabled_plugins h1 = _read_enabled_plugins h) as ->.
  { unfold _read_enabled_plugins. by rewrite Hen. }
  assert (¬ loaded (scan_plugins d h1) k) as Hnone.
  { unfold loaded. destruct (scan_plugins_keeps d h1) as (-> & _).
    rewrite (Hun k). destruct (decide (k ∈ (map_to_list (plugins_loaded h)).*1))
      as [|Hnin]; [by intros [? ?]|].
    intros [x Hx]. apply Hnin.
    apply (list_elem_of_fmap_2 fst _ (k, x)). by apply elem_of_map_to_list. }
  split; [by intros [?|?]|by right].
Qed.

(** ** The registration handle *)

(** X8. Take a plugin that is not loaded, whose file imports and whose
    [register] returns a handle. Loading it answers [True]; unloading it
    afterwards calls its [unregister] with exactly the handle [register]
    returned, leaves the loaded set as it was before the load, and prints a
    traceback only when [unregister] raised an error. *)
Theorem unload_passes_registered_handle h name meta m hd u :
  ¬ loaded h name →
  plugins_found h !! name = Some meta →
  import_file (module_name name) (path meta) = Returns m →
  mod_register m = Some (Returns hd) →
  mod_unregister m = Some u →
  (load_plugin import_file name h).1 = Returns true
  ∧ plugins_loaded
      (unload_plugin name (load_plugin import_file name h).2).2
    = plugins_loaded h
  ∧ log (unload_plugin name (load_plugin import_file name h).2).2
    = log (load_plugin import_file name h).2
      ++ CallUnregister name hd
         :: match u hd with
            | Raises Exception => [PrintTraceback]
            | _ => []
            end.
Proof.
  intros Hnot%eq_None_not_Some Hfound Himp Hreg Hunreg.
  rewrite (load_plugin_cases import_file h name meta Hnot Hfound), Himp, Hreg.
  split; [done|]. cbn [fst snd].
  set (h1 := (if status_bar_visible _ then _ else id) _).
  assert (plugins_loaded h1 = <[name := LoadedItem m hd]> (plugins_loaded h))
    as Hl1.
  { subst h1. simpl. by destruct (status_bar_visible h). }
  destruct (unload_plugin_spec name h1) as [Hdel _]. split.
  - rewrite Hdel, Hl1. by apply delete_insert_id.
  - unfold unload_plugin. rewrite Hl1, lookup_insert_eq. simpl.
    rewrite Hunreg. unfold try_except, bind, emit, modify, lift, ret. simpl.
    destruct (u hd) as [[]|[|]]; simpl; try done.
    by rewrite <- app_assoc.
Qed.

(** ** The manager dialog *)

Lemma elem_of_sorted (S : gset str) n : n ∈ sorted S ↔ n ∈ S.
Proof.
  rewrite <- (EnabledFacts.sorted_elements S) at 2.
  by rewrite elem_of_list_to_set.
Qed.

Lemma elem_of_get_enabled_set items n :
  n ∈ get_enabled_set items ↔ (n, true) ∈ items.
Proof.
  unfold get_enabled_set.
  induction items as [|[k c] items IH] using rev_ind.
  - simpl. split; [set_solver|]. by intros ?%elem_of_nil.
  - rewrite foldl_app, elem_of_app, list_elem_of_singleton. simpl.
    destruct c.
    + rewrite elem_of_union, elem_of_singleton, IH.
      split; (intros [?|?]; [by left|right]); congruence.
    + rewrite IH. split; [by left|]. intros [?|?]; [done|congruence].
Qed.

Lemma elem_of_dialog_choice toggled h n :
  n ∈ get_enabled_set (user_toggles toggled (dialog_items h))
  ↔ n ∈ dom (plugins_found h)
    ∧ (n ∈ _read_enabled_plugins h ↔ n ∉ toggled).
Proof.
  rewrite elem_of_get_enabled_set. unfold user_toggles, dialog_items.
  rewrite <- list_fmap_compose, list_elem_of_fmap. simpl. split.
  - intros (k & [= -> Hc] & Hk%elem_of_sorted). split; [done|].
    symmetry in Hc. revert Hc.
    repeat case_bool_decide; simpl; intros; done.
  - intros [Hk Hiff]. exists n. split; [|by apply elem_of_sorted].
    f_equal. symmetry.
    repeat case_bool_decide; simpl; try done; tauto.
Qed.

(** X9. Accepting the manager dialog stores the checked items, and the
    items are the plugins the scan just found: the stored string is the
    comma-joined sorted list of the found names that were enabled and not
    toggled or toggled and not enabled, so an enabled name whose file is no
    longer found is dropped even when the user toggles nothing. The set
    read back afterwards is that set of names when the newly checked names
    are fit to be stored (not empty, no comma, no whitespace at an end);
    a newly checked name that is not is loaded all the same. When the call
    returns, no plugin that was enabled and is not checked is loaded, and
    a newly checked plugin is loaded exactly when it was loaded before or
    its file imported and registered without raising. *)
Theorem manager_accept_stores_checked_found d toggled h :
  let r := open_plugins_manager import_file d toggled true h in
  let old := _read_enabled_plugins h in
  let found := plugins_found (scan_plugins d h) in
  let checked := (old ∩ dom found) ∖ toggled ∪ (toggled ∩ dom found) ∖ old in
  plugins_enabled r.2 = join [44%N] (sorted checked)
  ∧ ((∀ n, n ∈ toggled → n ∈ dom found → n ∉ old → well_formed_name n) →
     _read_enabled_plugins r.2 = checked)
  ∧ (r.1 = Returns tt →
     (∀ n, n ∈ old → n ∉ checked → ¬ loaded r.2 n)
     ∧ (∀ n, n ∈ checked → n ∉ old →
          (loaded r.2 n
           ↔ loaded h n ∨ loads_cleanly import_file found n))).
Proof.
  intros r old found checked. subst r.
  unfold open_plugins_manager. rewrite EnabledFacts.bind_modify.
  cbn beta iota. set (h1 := scan_plugins d h).
  set (new := get_enabled_set (user_toggles toggled (dialog_items h1))).
  assert (_read_enabled_plugins h1 = old) as Hold
    by apply read_scan_plugins.
  rewrite Hold.
  assert (new = checked) as Hnew.
  { apply set_eq. intros n. subst new checked.
    rewrite elem_of_dialog_choice, Hold. fold found.
    rewrite elem_of_union, !elem_of_difference, !elem_of_intersection.
    destruct (decide (n ∈ old)); destruct (decide (n ∈ toggled)); tauto. }
  rewrite EnabledFacts.bind_modify.
  set (h2 := _write_enabled_plugins new h1).
  set (unloads := for_each (elements (old ∖ new)) unload_plugin).
  set (loads := for_each (elements (new ∖ old)) (load_if_found import_file)).
  assert (keeps plugins_enabled (unloads ;;; loads)) as Hkeep.
  { apply kept_bind; [|intros _]; apply kept_for_each; intros n.
    - by apply kept_unload_plugin, inert_plugins_enabled.
    - by apply kept_load_if_found, inert_plugins_enabled. }
  split; [rewrite (Hkeep h2); by rewrite <- Hnew|]. split.
  { intros Hwf.
    assert (∀ n, n ∈ new → well_formed_name n) as Hnewwf.
    { intros n. rewrite Hnew. unfold checked.
      rewrite elem_of_union, !elem_of_difference, !elem_of_intersection.
      intros [[[Hn _] _]|[[Hn Hf] Ho]].
      - by apply (EnabledFacts.read_well_formed h).
      - by apply Hwf. }
    unfold _read_enabled_plugins at 1. rewrite (Hkeep h2), <- Hnew.
    apply (EnabledFacts.read_write new h1 Hnewwf). }
  unfold bind. subst unloads loads.
  pose proof (for_each_unload_spec (elements (old ∖ new)) h2) as Hun.
  pose proof (kept_for_each plugins_found (elements (old ∖ new)) unload_plugin
                (λ n, kept_unload_plugin plugins_found n inert_plugins_found)
                h2) as Hfound3.
  destruct (for_each (elements (old ∖ new)) unload_plugin h2)
    as [[[]|e] h3]; [|done].
  specialize (Hun h3 eq_refl). simpl in Hfound3.
  pose proof (for_each_load_spec (elements (new ∖ old)) h3) as Hlo.
  destruct (for_each (elements (new ∖ old)) (load_if_found import_file) h3)
    as [[[]|e] h4]; [|done].
  specialize (Hlo h4 eq_refl). simpl. intros _. rewrite <- Hnew. split.
  - intros n Hn Hnn.
    rewrite (Hlo n), elem_of_elements, elem_of_difference.
    intros [Hl|[[? ?] _]]; [|done].
    unfold loaded in Hl. rewrite (Hun n) in Hl.
    rewrite decide_True in Hl; [by destruct Hl|].
    apply elem_of_elements, elem_of_difference. by split.
  - intros n Hn Hnn.
    rewrite (Hlo n), elem_of_elements, elem_of_difference, Hfound3.
    unfold loaded at 1. rewrite (Hun n).
    rewrite decide_False by (rewrite elem_of_elements, elem_of_difference; tauto).
    change (plugins_found h2) with found.
    change (plugins_loaded h2) with (plugins_loaded h1).
    replace (plugins_loaded h1) with (plugins_loaded h)
      by (symmetry; apply scan_plugins_keeps).
    fold (loaded h n). tauto.
Qed.

End Callers.

(** ** Removing plugins from the hub *)

Section Removal.

Variable remove_file : str → outcome unit.

(** One row of [bulk_remove], when the loop goes on after it. *)
Lemma remove_row_spec name file (ok : nat) h h1 :
  try_except (remove_row_body remove_file name file ;;; ret 1%nat)
    (emit [PrintTraceback; MessageBoxCritical name] ;;; ret 0%nat) h
  = (Returns ok, h1) →
  plugins_loaded h1 = delete name (plugins_loaded h)
  ∧ _read_enabled_plugins h1 = _read_enabled_plugins h ∖ {[ name ]}.
Proof.
  unfold remove_row_body, try_except. unfold bind at 1 2 3.
  assert (∃ r hA, (match plugins_loaded h !! name with
                   | Some _ => unload_plugin name h
                   | None => ret tt h
                   end) = (r, hA)
                  ∧ plugins_loaded hA = delete name (plugins_loaded h)
                  ∧ plugins_enabled hA = plugins_enabled h
                  ∧ (r = Returns tt ∨ r = Raises BaseExceptionOnly))
    as (r & hA & -> & HlA & HeA & Hr).
  { destruct (plugins_loaded h !! name) eqn:Hl.
    - destruct (unload_plugin_spec name h) as [Hdel Hres].
      pose proof (kept_unload_plugin plugins_enabled name
                    inert_plugins_enabled h) as Hen.
      destruct (unload_plugin name h) as [r hA]. by exists r, hA.
    - exists (Returns tt), h. rewrite delete_id by done. auto. }
  destruct Hr as [-> | ->]; [|done].
  assert (_read_enabled_plugins hA = _read_enabled_plugins h) as HrA.
  { unfold _read_enabled_plugins. by rewrite HeA. }
  set (enabled := _read_enabled_plugins hA).
  assert (∃ hB, (if bool_decide (name ∈ enabled)
                 then modify (_write_enabled_plugins (enabled ∖ {[ name ]})) hA
                 else ret tt hA) = (Returns tt, hB)
                ∧ plugins_loaded hB = plugins_loaded hA
                ∧ _read_enabled_plugins hB = enabled ∖ {[ name ]})
    as (hB & -> & HlB & HrB).
  { case_bool_decide as Hin.
    - eexists. split; [reflexivity|]. split; [done|].
      apply EnabledFacts.read_write. intros n [Hn _]%elem_of_difference.
      by apply (EnabledFacts.read_well_formed hA).
    - exists hA. split; [done|]. split; [done|].
      apply set_eq. intros n. rewrite elem_of_difference, elem_of_singleton.
      split; [|tauto]. intros Hn. split; [done|]. by intros ->. }
  unfold lift, ret, emit, modify.
  destruct (remove_file file) as [[]|[|]]; simpl; intros [= <- <-];
    simpl; by rewrite ?HlB, ?HlA, ?HrB, <- ?HrA.
Qed.

Lemma remove_rows_spec rows (c : nat) h h' :
  remove_rows remove_file rows h = (Returns c, h') →
  (∀ k, loaded h' k → loaded h k)
  ∧ _read_enabled_plugins h' ⊆ _read_enabled_plugins h
  ∧ (c ≤ length rows)%nat
  ∧ ∀ name file, (name, file) ∈ rows →
      ¬ loaded h' name ∧ name ∉ _read_enabled_plugins h'.
Proof.
  revert c h h'. induction rows as [|[name file] rows IH]; intros c h h'.
  - simpl. intros [= <- <-]. split; [done|]. split; [done|]. split; [done|].
    intros name file Hin. by apply elem_of_nil in Hin.
  - cbn [remove_rows]. unfold bind at 1.
    destruct (try_except _ _ h) as [[ok|e] h1] eqn:Htry; [|done].
    destruct (remove_row_spec name file ok h h1 Htry) as [Hl1 Hr1].
    assert (ok ≤ 1)%nat as Hok.
    { revert Htry. unfold try_except, bind, ret, emit, modify.
      destruct (remove_row_body remove_file name file h) as [[[]|[|]] ?];
        simpl; intros [= <- _] || intros [=]; lia. }
    unfold bind at 1.
    destruct (remove_rows remove_file rows h1) as [[n|e] h2] eqn:Hrest;
      [|done].
    unfold ret. intros [= <- <-].
    destruct (IH n h1 h2 Hrest) as (Hsub & Hread & Hlen & Hgone).
    assert (∀ k, loaded h1 k → loaded h k ∧ k ≠ name) as Hl1'.
    { intros k. unfold loaded. rewrite Hl1.
      destruct (decide (k = name)) as [->|Hne].
      - rewrite lookup_delete_eq. by intros [? ?].
      - by rewrite lookup_delete_ne. }
    split; [intros k Hk; by apply Hl1', Hsub|].
    split; [rewrite Hr1 in Hread; set_solver|].
    split; [simpl; lia|].
    intros name' file' [[= -> ->]|Hin]%elem_of_cons; [|by eapply Hgone].
    split.
    + intros Hk%Hsub%Hl1'. by destruct Hk.
    + intros Hk%Hread. rewrite Hr1 in Hk. set_solver.
Qed.

(** X10. When [bulk_remove] returns after the user confirmed, none of the
    selected plugins is loaded and none of their names is in the enabled
    set read from the store, whether or not their files could be moved
    away; no other plugin was loaded or enabled by it; and the number it
    reports is at most the number of selected rows. *)
Theorem bulk_remove_disables_selected rows d (c : nat) h h' :
  bulk_remove remove_file rows true d h = (Returns c, h') →
  (∀ name file, (name, file) ∈ rows →
     ¬ loaded h' name ∧ name ∉ _read_enabled_plugins h')
  ∧ (∀ k, loaded h' k → loaded h k)
  ∧ _read_enabled_plugins h' ⊆ _read_enabled_plugins h
  ∧ (c ≤ length rows)%nat.
Proof.
  unfold bulk_remove. destruct rows as [|row rows].
  { intros [= <- <-]. split; [|done].
    intros name file Hin. by apply elem_of_nil in Hin. }
  unfold bind at 1.
  destruct (remove_rows remove_file (row :: rows) h) as [[n|e] h1] eqn:Hrun;
    [|done].
  rewrite EnabledFacts.bind_modify. unfold ret. intros [= <- <-].
  destruct (remove_rows_spec _ _ _ _ Hrun) as (Hsub & Hread & Hlen & Hgone).
  unfold loaded in *.
  destruct (scan_plugins_keeps d h1) as (-> & _).
  rewrite read_scan_plugins. done.
Qed.

End Removal.

Lemma bulk_remove_disables_selected_witness :
  let h0 := (load_plugins_on_start sample_import sample_dir starting_host).2 in
  let rm : str → outcome unit := λ _, Raises Exception in
  let rows := [(lit "good", lit "/p/good.py")] in
  let r := bulk_remove rm rows true sample_dir h0 in
  r = (Returns 0%nat, r.2)
  ∧ loaded h0 (lit "good")
  ∧ ¬ loaded r.2 (lit "good")
  ∧ lit "good" ∉ _read_enabled_plugins r.2.
Proof.
  intros h0 rm rows r.
  assert (r = (Returns 0%nat, r.2)) as Hrun by (by vm_compute).
  split; [exact Hrun|]. split.
  { unfold loaded. vm_compute. by eexists. }
  exact (proj1 (bulk_remove_disables_selected rm rows sample_dir 0%nat h0 r.2
                  Hrun) (lit "good") (lit "/p/good.py")
           (list_elem_of_here _ _)).
Defined.

Lemma manager_accept_stores_checked_found_witness :
  let h := Host (lit "/p") ∅ ∅ (lit "good,gone") true [] in
  let toggled : gset str := {[ lit "bad" ]} in
  let h' :=
    (open_plugins_manager sample_import sample_dir toggled true h).2 in
  let old := _read_enabled_plugins h in
  let found := plugins_found (scan_plugins sample_dir h) in
  (∀ n, n ∈ toggled → n ∈ dom found → n ∉ old → well_formed_name n)
  ∧ plugins_enabled h' = lit "bad,good"
  ∧ _read_enabled_plugins h' = {[ lit "bad"; lit "good" ]}.
Proof.
  intros h toggled h' old found.
  assert (∀ n, n ∈ toggled → n ∈ dom found → n ∉ old → well_formed_name n)
    as Hwf.
  { intros n ->%elem_of_singleton _ _.
    split; [discriminate|]. split; [|reflexivity].
    apply (bool_decide_unpack _). by vm_compute. }
  split; [exact Hwf|].
  destruct (manager_accept_stores_checked_found sample_import sample_dir
              toggled h) as (Hstored & Hread & _).
  split.
  - etrans; [exact Hstored|]. by vm_compute.
  - etrans; [exact (Hread Hwf)|]. by vm_compute.
Defined.

Lemma unload_passes_registered_handle_witness :
  let m := PyModule (Some (Returns (PyObj 7))) (Some (λ _, Raises Exception)) in
  let imp : str → str → outcome pymodule := λ _ _, Returns m in
  let name := lit "Good" in
  let meta := PluginMeta (lit "/p/good.py") in
  let h1 := (load_plugin imp name sample_host).2 in
  (¬ loaded sample_host name
   ∧ plugins_found sample_host !! name = Some meta)
  ∧ (load_plugin imp name sample_host).1 = Returns true
  ∧ plugins_loaded (unload_plugin name h1).2 = plugins_loaded sample_host
  ∧ log (unload_plugin name h1).2
    = log h1 ++ [CallUnregister name (PyObj 7); PrintTraceback].
Proof.
  intros m imp name meta h1.
  assert (¬ loaded sample_host name) as Hnot.
  { unfold loaded. vm_compute. intros [x Hx]. discriminate. }
  assert (plugins_found sample_host !! name = Some meta) as Hfound
    by (by vm_compute).
  split; [by split|].
  exact (unload_passes_registered_handle imp sample_host name meta m
           (PyObj 7) (λ _, Raises Exception) Hnot Hfound eq_refl eq_refl
           eq_refl).
Defined.

Lemma load_plugins_on_start_loads_witness :
  let h' := (load_plugins_on_start sample_import sample_dir starting_host).2 in
  let found := plugins_found (scan_plugins sample_dir starting_host) in
  load_plugins_on_start sample_import sample_dir starting_host
  = (Returns tt, h')
  ∧ plugins_found h' = found
  ∧ (∀ k, loaded h' k
          ↔ loaded starting_host k
            ∨ (k ∈ _read_enabled_plugins starting_host
               ∧ loads_cleanly sample_import found k))
  ∧ ∃ new,
      log h' = log (scan_plugins sample_dir starting_host) ++ new
      ∧ ∀ k, k ∈ error_boxes new
             ↔ k ∈ _read_enabled_plugins starting_host
               ∧ is_Some (found !! k)
               ∧ ¬ loaded starting_host k
               ∧ ¬ loads_cleanly sample_import found k.
Proof.
  intros h' found.
  assert (load_plugins_on_start sample_import sample_dir starting_host
          = (Returns tt, h')) as Hrun by (by vm_compute).
  split; [exact Hrun|].
  exact (load_plugins_on_start_loads sample_import sample_dir starting_host
           h' Hrun).
Defined.

Lemma reload_plugins_resynchronises_witness :
  let h0 := (load_plugins_on_start sample_import sample_dir starting_host).2 in
  let d := Dir [(lit "good.py", Some plain_text)] in
  let h' := (reload_plugins sample_import d h0).2 in
  reload_plugins sample_import d h0 = (Returns tt, h')
  ∧ plugins_found h' = plugins_found (scan_plugins d h0)
  ∧ ∀ k, loaded h' k
         ↔ k ∈ _read_enabled_plugins h0
           ∧ loads_cleanly sample_import (plugins_found (scan_plugins d h0)) k.
Proof.
  intros h0 d h'.
  assert (reload_plugins sample_import d h0 = (Returns tt, h')) as Hrun
    by (by vm_compute).
  split; [exact Hrun|].
  exact (reload_plugins_resynchronises sample_import d h0 h' Hrun).
Defined.

End LifecycleMore.

(** * Further properties of the enabled store and of discovery *)

Module StoreMore.

Import Py Plugins.

(** X11. Whatever string the store holds, every name read from it is not
    empty, has no comma and has no whitespace at either end; and writing
    the set that was read and reading again gives the same set. *)
Theorem read_enabled_is_normal h :
  (∀ n, n ∈ _read_enabled_plugins h → well_formed_name n)
  ∧ _read_enabled_plugins
      (_write_enabled_plugins (_read_enabled_plugins h) h)
    = _read_enabled_plugins h.
Proof.
  split.
  - intros n. apply EnabledFacts.read_well_formed.
  - apply EnabledFacts.read_write. intros n.
    apply EnabledFacts.read_well_formed.
Qed.

Lemma candidates_app dir l1 l2 :
  candidates dir (l1 ++ l2) = candidates dir l1 ++ candidates dir l2.
Proof. unfold candidates. apply omap_app. Qed.

Lemma inserted_last (l1 l2 : list (str * plugin_meta)) n meta :
  n ∉ l2.*1 → inserted (l1 ++ (n, meta) :: l2) !! n = Some meta.
Proof.
  intros Hn. unfold inserted.
  rewrite reverse_app, reverse_cons, <- app_assoc, list_to_map_app.
  rewrite lookup_union_r.
  - simpl. apply lookup_insert_eq.
  - apply not_elem_of_list_to_map_1. by rewrite fmap_reverse, elem_of_reverse.
Qed.

(** X12. When several readable plugin files of a directory come out under
    one name, the scan keeps the one listed last: if an entry contributes
    the name and no later entry contributes the same name, the scan maps
    the name to that entry's path. *)
Theorem scan_last_file_wins h before e after n meta :
  candidate (plugins_dir h) e = Some (n, meta) →
  (∀ e' kv, e' ∈ after → candidate (plugins_dir h) e' = Some kv → kv.1 ≠ n) →
  plugins_found (scan_plugins (Dir (before ++ e :: after)) h) !! n
  = Some meta.
Proof.
  intros He Hafter. rewrite ScanFacts.scan_plugins_inserted.
  rewrite candidates_app. unfold candidates at 2. cbn [omap list_omap].
  rewrite He. apply inserted_last.
  intros ([k v] & -> & Hin)%list_elem_of_fmap.
  apply list_elem_of_omap in Hin as (e' & He' & Hc).
  by apply (Hafter e' (k, v) He' Hc).
Qed.

Lemma scan_last_file_wins_witness :
  let first := (lit "a.py", Some alpha_text) in
  let second := (lit "b.py", Some alpha_text) in
  candidate (lit "/p") second = Some (lit "Alpha", PluginMeta (lit "/p/b.py"))
  ∧ plugins_found (scan_plugins (Dir [first; second]) fresh_host)
      !! lit "Alpha"
    = Some (PluginMeta (lit "/p/b.py")).
Proof.
  intros first second.
  assert (candidate (plugins_dir fresh_host) second
          = Some (lit "Alpha", PluginMeta (lit "/p/b.py"))) as Hc
    by (by vm_compute).
  split; [exact Hc|].
  apply (scan_last_file_wins fresh_host [first] second [] (lit "Alpha")
           (PluginMeta (lit "/p/b.py")) Hc).
  intros e' kv Hin. by apply elem_of_nil in Hin.
Defined.

End StoreMore.

(** * Title and subtitle *)

Module FileInfoFacts.

Import Py FileInfo.

Local Open Scope N_scope.

Lemma contains_single_iff c s : contains [c] s = true ↔ c ∈ s.
Proof.
  induction s as [|x s IH]; simpl.
  - split; [done|]. by intros ?%elem_of_nil.
  - rewrite elem_of_cons. destruct (N.eqb_spec c x) as [->|Hne]; simpl.
    + split; [by left|done].
    + rewrite IH. split; [by right|]. intros [?|?]; done.
Qed.

Lemma split_head_tail c s :
  ∃ p0 rest, split c s = p0 :: rest ∧ (c ∉ p0)
             ∧ (rest ≠ [] ↔ c ∈ s)
             ∧ s = join [c] (p0 :: rest).
Proof.
  induction s as [|x s (p0 & rest & Hs & Hp0 & Hrest & Hjoin)]; simpl.
  - exists [], []. split; [done|]. split; [apply not_elem_of_nil|].
    split; [|done]. split; [done|]. by intros ?%elem_of_nil.
  - destruct (N.eqb_spec x c) as [->|Hne].
    + exists [], (split c s). split; [done|]. split; [apply not_elem_of_nil|].
      split; [split; [by left|intros _; rewrite Hs; done]|].
      rewrite Hs. simpl. by rewrite Hjoin.
    + rewrite Hs. exists (x :: p0), rest. split; [done|].
      split; [apply not_elem_of_cons; by split|].
      split.
      * rewrite Hrest, elem_of_cons. split; [by right|].
        intros [?|?]; [congruence|done].
      * rewrite Hjoin. by destruct rest.
Qed.

Lemma title_subtitle_loop_spec seps name title subtitle :
  let r := title_subtitle_loop seps name title subtitle in
  (Forall (λ c, c ∉ name) seps ∧ r = (title, subtitle))
  ∨ ∃ earlier sep later,
      seps = earlier ++ sep :: later
      ∧ Forall (λ c, c ∉ name) earlier
      ∧ sep ∈ name ∧ (sep ∉ r.1) ∧ r.1 ++ sep :: r.2 = name.
Proof.
  induction seps as [|sep seps IH]; simpl.
  - left. by split.
  - destruct (contains [sep] name) eqn:Hc.
    + apply contains_single_iff in Hc.
      destruct (split_head_tail sep name)
        as (p0 & rest & Hs & Hp0 & Hrest & Hjoin).
      rewrite Hs. apply Hrest in Hc.
      destruct rest as [|p1 rest]; [done|]. simpl.
      right. exists [], sep, seps. split; [done|]. split; [done|].
      split; [by apply Hrest|]. split; [done|].
      by rewrite Hjoin.
    + assert (sep ∉ name) as Hn.
      { rewrite <- contains_single_iff. by rewrite Hc. }
      destruct IH as [[Hall ->]|(earlier & s0 & later & -> & Hall & H)].
      * left. split; [by constructor|done].
      * right. exists (sep :: earlier), s0, later. split; [done|].
        split; [by constructor|done].
Qed.

(** X13. The title and subtitle [get_file_info] derives from the name of
    the file without its extension. If the name holds none of underscore, hyphen, dot
    and space, the title is the whole name and the subtitle is the default.
    Otherwise the first of these four characters, in this order, that
    occurs in the name is the separator: the title is the part before its
    first occurrence, and title, separator and subtitle put together give
    back the name. *)
Theorem title_and_subtitle_rebuild_name (file_path title subtitle : str) :
  let name := splitext_root (basename file_path) in
  title_subtitle file_path = (title, subtitle) →
  (Forall (λ c, c ∉ name) separators
   ∧ title = name ∧ subtitle = no_subtitle)
  ∨ ∃ earlier sep later,
      separators = earlier ++ sep :: later
      ∧ Forall (λ c, c ∉ name) earlier
      ∧ sep ∈ name ∧ (sep ∉ title) ∧ title ++ sep :: subtitle = name.
Proof.
  intros name Hr. unfold title_subtitle in Hr. fold name in Hr.
  destruct (title_subtitle_loop_spec separators name name no_subtitle)
    as [[Hall Heq]|H]; rewrite Hr in *.
  - left. by injection Heq as -> ->.
  - by right.
Qed.

Lemma title_and_subtitle_rebuild_name_witness :
  let file_path := lit "/videos/My-Holiday_2024.mp4" in
  let name := lit "My-Holiday_2024" in
  title_subtitle file_path = (lit "My-Holiday", lit "2024")
  ∧ ((Forall (λ c, c ∉ name) separators
      ∧ lit "My-Holiday" = name ∧ lit "2024" = no_subtitle)
     ∨ ∃ earlier sep later,
         separators = earlier ++ sep :: later
         ∧ Forall (λ c, c ∉ name) earlier
         ∧ sep ∈ name ∧ (sep ∉ lit "My-Holiday")
         ∧ lit "My-Holiday" ++ sep :: lit "2024" = name).
Proof.
  intros file_path name.
  assert (title_subtitle file_path = (lit "My-Holiday", lit "2024")) as Hr
    by reflexivity.
  split; [exact Hr|].
  exact (title_and_subtitle_rebuild_name file_path (lit "My-Holiday")
           (lit "2024") Hr).
Defined.

End FileInfoFacts.

(** * A path that is not taken *)

Module UniquePathFacts.

Import Py UniquePath.

Lemma lit_inj (a b : string) : lit a = lit b → a = b.
Proof.
  revert b. induction a as [|c a IH]; intros [|c' b]; try done.
  unfold lit. simpl. intros [= Hc Hs]. f_equal.
  - rewrite <- (ascii_N_embedding c), <- (ascii_N_embedding c').
    by rewrite Hc.
  - by apply IH.
Qed.

Lemma decimal_inj k k' : decimal k = decimal k' → k = k'.
Proof. intros H%lit_inj. by apply (inj pretty). Qed.

Lemma path_join_prefix dirpath stem (tl tl' : str) :
  ∃ prefix,
    path_join dirpath (stem ++ 40%N :: tl) = prefix ++ stem ++ 40%N :: tl
    ∧ path_join dirpath (stem ++ 40%N :: tl') = prefix ++ stem ++ 40%N :: tl'.
Proof.
  unfold path_join.
  assert (startswith [47%N] (stem ++ 40%N :: tl)
          = startswith [47%N] (stem ++ 40%N :: tl')) as Hs.
  { by destruct stem. }
  rewrite <- Hs. destruct (startswith [47%N] (stem ++ 40%N :: tl)).
  - by exists [].
  - destruct (bool_decide (dirpath = []) || endswith [47%N] dirpath).
    + by exists dirpath.
    + exists (dirpath ++ [47%N]). by rewrite <- !app_assoc.
Qed.

Lemma alternative_eq dirpath stem ext k :
  alternative dirpath stem ext k
  = path_join dirpath (stem ++ 40%N :: decimal k ++ lit ")" ++ ext).
Proof. reflexivity. Qed.

Lemma alternative_inj dirpath stem ext k k' :
  alternative dirpath stem ext k = alternative dirpath stem ext k' → k = k'.
Proof.
  rewrite !alternative_eq.
  destruct (path_join_prefix dirpath stem (decimal k ++ lit ")" ++ ext)
              (decimal k' ++ lit ")" ++ ext)) as (prefix & -> & ->).
  intros H%app_inv_head%app_inv_head. injection H as H.
  apply app_inv_tail in H. by apply decimal_inj.
Qed.

Section Search.

Variables (existing : gset str) (dirpath stem ext : str).

Lemma search_none fuel k :
  search existing dirpath stem ext fuel k = None →
  ∀ i, (i < fuel)%nat →
       alternative dirpath stem ext (k + N.of_nat i) ∈ existing.
Proof.
  revert k. induction fuel as [|fuel IH]; intros k; simpl; [lia|].
  destruct (decide (alternative dirpath stem ext k ∈ existing)); [|done].
  intros Hrest [|i] Hi.
  - by rewrite N.add_0_r.
  - replace (k + N.of_nat (S i))%N with (k + 1 + N.of_nat i)%N by lia.
    apply IH; [done|lia].
Qed.

Lemma search_some fuel k p :
  search existing dirpath stem ext fuel k = Some p →
  (p ∉ existing)
  ∧ ∃ j, (k ≤ j)%N ∧ p = alternative dirpath stem ext j
         ∧ ∀ i, (k ≤ i < j)%N → alternative dirpath stem ext i ∈ existing.
Proof.
  revert k. induction fuel as [|fuel IH]; intros k; simpl; [done|].
  destruct (decide (alternative dirpath stem ext k ∈ existing)) as [Hin|Hnin].
  - intros (Hp & j & Hj & -> & Hbelow)%IH. split; [done|].
    exists j. split; [lia|]. split; [done|]. intros i Hi.
    destruct (decide (i = k)) as [->|Hne]; [done|]. apply Hbelow. lia.
  - intros [= <-]. split; [done|]. exists k. split; [lia|]. split; [done|].
    intros i Hi. lia.
Qed.

Lemma search_finds fuel k :
  (size existing < fuel)%nat →
  is_Some (search existing dirpath stem ext fuel k).
Proof.
  intros Hsize.
  destruct (search existing dirpath stem ext fuel k) as [p|] eqn:Hs;
    [by eexists|].
  pose proof (search_none fuel k Hs) as Hall.
  set (alts := (λ i, alternative dirpath stem ext (k + N.of_nat i))
                 <$> seq 0 fuel).
  assert (NoDup alts) as Hnd.
  { apply NoDup_fmap_2; [|apply NoDup_seq].
    intros i j Hij%alternative_inj. lia. }
  assert (list_to_set alts ⊆ existing) as Hsub.
  { intros x (i & -> & Hi%elem_of_seq)%elem_of_list_to_set%list_elem_of_fmap.
    apply Hall. lia. }
  apply subseteq_size in Hsub.
  rewrite size_list_to_set in Hsub by done.
  unfold alts in Hsub. rewrite length_fmap, length_seq in Hsub. lia.
Qed.

End Search.

(** X14. [_safe_unique_path] never hands out a path that exists. With more
    rounds than there are existing paths the search always ends with a
    path; that path does not exist; it is [join(dirpath, filename)] itself
    when that is free; and otherwise it is the name with [(k)] put before
    the extension for the least [k >= 1] that gives a free path. *)
Theorem safe_unique_path_is_free existing fuel dirpath filename :
  (size existing < fuel)%nat →
  ∃ p, _safe_unique_path existing fuel dirpath filename = Some p
       ∧ (p ∉ existing)
       ∧ (path_join dirpath filename ∉ existing →
          p = path_join dirpath filename)
       ∧ (path_join dirpath filename ∈ existing →
          ∃ k, (1 ≤ k)%N
               ∧ p = alternative dirpath (splitext filename).1
                       (splitext filename).2 k
               ∧ ∀ i, (1 ≤ i < k)%N →
                   alternative dirpath (splitext filename).1
                     (splitext filename).2 i ∈ existing).
Proof.
  intros Hsize. unfold _safe_unique_path.
  destruct (decide (path_join dirpath filename ∈ existing)) as [Hin|Hnin].
  - destruct (splitext filename) as [stem ext]. simpl.
    destruct (search_finds existing dirpath stem ext fuel 1%N Hsize)
      as [p Hp].
    exists p. split; [done|].
    destruct (search_some existing dirpath stem ext fuel 1%N p Hp)
      as (Hfree & k & Hk & -> & Hbelow).
    split; [done|]. split; [done|]. intros _. by exists k.
  - eexists. split; [done|]. split; [done|]. split; [done|]. done.
Qed.

Lemma safe_unique_path_is_free_witness :
  let existing : gset str :=
    {[ lit "/v/clip.mp4"; lit "/v/clip(1).mp4" ]} in
  (size existing < 3)%nat
  ∧ _safe_unique_path existing 3 (lit "/v") (lit "clip.mp4")
    = Some (lit "/v/clip(2).mp4")
  ∧ lit "/v/clip(2).mp4" ∉ existing.
Proof.
  intros existing.
  assert (size existing < 3)%nat as Hsize by (vm_compute; lia).
  split; [exact Hsize|].
  assert (_safe_unique_path existing 3 (lit "/v") (lit "clip.mp4")
          = Some (lit "/v/clip(2).mp4")) as Hrun by (by vm_compute).
  split; [exact Hrun|].
  destruct (safe_unique_path_is_free existing 3 (lit "/v") (lit "clip.mp4")
              Hsize) as (p & Hp & Hfree & _).
  rewrite Hrun in Hp. injection Hp as <-. exact Hfree.
Defined.

End UniquePathFacts.

(** * The tab widget *)

Module TabsFacts.

Import Tabs.

(** Pages behind the range of the loop are not looked at. *)
Lemma close_loop_tail f (front back : list str) lg :
  Forall (λ g, g ≠ f) back →
  ∃ lg',
    foldl (close_if_matching f) (Some (TabState (front ++ back) lg))
          (reverse (seq 0 (length front)))
    = Some (TabState (filter (λ g, g ≠ f) front ++ back) lg').
Proof.
  revert back lg. induction front as [|g front IH] using rev_ind;
    intros back lg Hback.
  - simpl. by eexists.
  - rewrite length_app. simpl. rewrite Nat.add_1_r, seq_S, reverse_app.
    cbn [reverse rev_append app foldl Nat.add].
    assert (Hat : (front ++ [g] ++ back) !! length front = Some g).
    { rewrite lookup_app_r by done. by rewrite Nat.sub_diag. }
    rewrite <- app_assoc.
    unfold close_if_matching at 2. cbn [mbind option_bind pages].
    rewrite Hat. cbn [mbind option_bind].
    rewrite filter_app. destruct (decide (g = f)) as [->|Hne].
    + unfold close_tab. cbn [pages log]. rewrite Hat.
      change (front ++ [f] ++ back) with (front ++ f :: back).
      rewrite delete_middle.
      destruct (IH back (lg ++ [TabClosed f]) Hback) as [lg' ->].
      exists lg'. rewrite filter_cons_False by (by intros ?).
      by rewrite filter_nil, app_nil_r.
    + destruct (IH (g :: back) lg) as [lg' Hrun]; [by constructor|].
      exists lg'. rewrite filter_cons_True by done.
      rewrite filter_nil, <- app_assoc. exact Hrun.
Qed.

Lemma on_file_selected_pages f t :
  NoDup (pages t) → NoDup (pages (on_file_selected f t)).
Proof.
  intros Hnd. unfold on_file_selected.
  destruct (decide (f = [])); [done|].
  destruct (decide (f ∈ pages t)); [done|]. simpl.
  apply NoDup_app. split; [done|]. split; [|apply NoDup_singleton].
  by intros g Hg ->%list_elem_of_singleton.
Qed.

Lemma close_pages_of_filter f t :
  ∃ lg, close_pages_of f t
        = Some (TabState (filter (λ g, g ≠ f) (pages t)) lg).
Proof.
  unfold close_pages_of. destruct t as [ps lg]. simpl.
  destruct (close_loop_tail f ps [] lg) as [lg' Hrun]; [constructor|].
  rewrite !app_nil_r in Hrun. by exists lg'.
Qed.

Lemma close_all_tail (front back : list str) lg :
  pages (foldl (λ acc i, close_tab i acc) (TabState (front ++ back) lg)
           (reverse (seq 0 (length front)))) = back.
Proof.
  revert lg. induction front as [|g front IH] using rev_ind; intros lg.
  - done.
  - rewrite length_app. simpl. rewrite Nat.add_1_r, seq_S, reverse_app.
    cbn [reverse rev_append app foldl Nat.add].
    assert (Hat : (front ++ [g] ++ back) !! length front = Some g).
    { rewrite lookup_app_r by done. by rewrite Nat.sub_diag. }
    rewrite <- app_assoc. unfold close_tab at 2. cbn [pages log].
    rewrite Hat. change (front ++ [g] ++ back) with (front ++ g :: back).
    rewrite delete_middle. apply IH.
Qed.

Lemma close_all_pages t : pages (close_all t) = [].
Proof.
  unfold close_all. destruct t as [ps lg]. simpl.
  rewrite <- (app_nil_r ps) at 1. apply close_all_tail.
Qed.

Lemma close_tab_sublist i t : pages (close_tab i t) `sublist_of` pages t.
Proof.
  unfold close_tab. destruct (pages t !! i); [|done]. simpl.
  apply sublist_delete.
Qed.

Lemma tabs_run_snoc ops o : run (ops ++ [o]) = run ops ≫= step o.
Proof. unfold run. by rewrite foldl_app. Qed.

(** X15. The loop of [remove_selected_files] that closes the pages of the
    removed file never reads a page that is not there: it ends, and leaves
    exactly the pages of the other files, in their order. *)
Theorem closing_pages_of_a_file f t :
  ∃ t', close_pages_of f t = Some t'
        ∧ pages t' = filter (λ g, g ≠ f) (pages t)
        ∧ (∀ g, g ∈ pages t' ↔ g ∈ pages t ∧ g ≠ f).
Proof.
  destruct (close_pages_of_filter f t) as [lg ->].
  eexists. split; [done|]. split; [done|]. simpl.
  intros g. by rewrite list_elem_of_filter, (comm and).
Qed.

(** X16. Whatever files are selected, pages closed by their button, files
    removed and lists cleared, in any order from an empty tab widget, no
    step raises, no two pages show the same file and no page shows an empty
    path. *)
Theorem one_page_per_file ops :
  ∃ t, run ops = Some t ∧ NoDup (pages t) ∧ ([] ∉ pages t).
Proof.
  induction ops as [|o ops IH] using rev_ind.
  - exists init. split; [done|]. split; [by apply NoDup_nil|].
    by intros ?%elem_of_nil.
  - destruct IH as (t & Hrun & Hnd & Hne). rewrite tabs_run_snoc, Hrun. simpl.
    destruct o as [f|i|f|]; simpl.
    + eexists. split; [done|]. split; [by apply on_file_selected_pages|].
      unfold on_file_selected. destruct (decide (f = [])); [done|].
      destruct (decide (f ∈ pages t)); [done|]. simpl.
      intros [?|Hin%list_elem_of_singleton]%elem_of_app; [done|].
      by apply n.
    + eexists. split; [done|]. pose proof (close_tab_sublist i t) as Hsub.
      split; [by eapply sublist_NoDup|].
      intros Hin. apply Hne. by eapply elem_of_sublist.
    + destruct (close_pages_of_filter f t) as [lg ->].
      eexists. split; [done|]. simpl. split; [by apply NoDup_filter|].
      by intros [_ ?]%list_elem_of_filter.
    + eexists. split; [done|]. rewrite close_all_pages.
      split; [by apply NoDup_nil|]. by intros ?%elem_of_nil.
Qed.

(** X17. Clearing the file list closes every page, whatever pages there
    were, and a page is closed once for each page that was open. *)
Theorem clear_closes_every_page t :
  pages (close_all t) = []
  ∧ log (close_all t) = log t ++ (TabClosed <$> reverse (pages t)).
Proof.
  split; [apply close_all_pages|].
  unfold close_all. destruct t as [ps lg]. simpl.
  revert lg. induction ps as [|g ps IH] using rev_ind; intros lg.
  - simpl. by rewrite app_nil_r.
  - rewrite length_app. simpl. rewrite Nat.add_1_r, seq_S, reverse_app.
    cbn [reverse rev_append app foldl Nat.add].
    unfold close_tab at 2. cbn [pages log].
    rewrite lookup_app_r, Nat.sub_diag by done. cbn [lookup list_lookup].
    rewrite <- (app_nil_r (ps ++ [g])), <- app_assoc.
    change (ps ++ [g] ++ []) with (ps ++ g :: []).
    rewrite delete_middle, app_nil_r, IH.
    rewrite reverse_app. simpl. by rewrite <- app_assoc.
Qed.

End TabsFacts.

(** * The file list of the metadata tool *)

Module MetaListFacts.

Import MetaList.

Lemma filter_all {A} (P : A → Prop) `{!∀ x, Decision (P x)} (l : list A) :
  Forall P l → filter P l = l.
Proof.
  induction 1 as [|x l Hx _ IH]; [done|].
  by rewrite filter_cons_True, IH.
Qed.

Lemma delete_found (it : nat) (l : list (nat * str)) :
  NoDup l.*1 →
  match list_find (λ x, x.1 = it) l with
  | Some (r, _) => delete r l = filter (λ x, x.1 ≠ it) l
  | None => filter (λ x, x.1 ≠ it) l = l
  end.
Proof.
  induction l as [|[i t] l IH]; intros Hnd; [done|].
  apply NoDup_cons in Hnd as [Hi Hnd]. cbn [list_find].
  destruct (decide ((i, t).1 = it)) as [Heq|Hne]; simpl in *.
  - subst i. rewrite filter_cons_False by (simpl; by intros ?).
    symmetry. apply filter_all. apply Forall_forall.
    intros [j u] Hin Heq. simpl in Heq. subst j. apply Hi.
    by apply (list_elem_of_fmap_2 fst) in Hin.
  - rewrite filter_cons_True by done. specialize (IH Hnd).
    destruct (list_find _ l) as [[r x]|]; simpl.
    + by rewrite IH.
    + by rewrite IH.
Qed.

Lemma in_step_init : in_step init.
Proof.
  repeat split; try (by apply NoDup_nil); [|by constructor].
  by intros ?%elem_of_nil.
Qed.

Lemma in_step_add_path d p : in_step d → in_step (add_path d p).
Proof.
  intros (Hsync & Hnd & Hne & Hids & Hlt). unfold add_path.
  destruct (decide (p = [])); [done|].
  destruct (decide (p ∈ files d)) as [|Hnew]; [done|].
  unfold in_step, shown in *. simpl. repeat split.
  - by rewrite fmap_app, Hsync.
  - apply NoDup_app. split; [done|]. split; [|apply NoDup_singleton].
    by intros g Hg ->%list_elem_of_singleton.
  - intros [?|?%list_elem_of_singleton]%elem_of_app; [done|by subst].
  - rewrite fmap_app. apply NoDup_app. split; [done|].
    split; [|apply NoDup_singleton]. simpl.
    intros i Hi Heq%list_elem_of_singleton.
    apply list_elem_of_fmap in Hi as ([j u] & Hj & Hin).
    rewrite Forall_forall in Hlt. apply Hlt in Hin.
    simpl in Hj, Hin. lia.
  - apply Forall_app. split.
    + eapply Forall_impl; [exact Hlt|]. simpl. lia.
    + constructor; [simpl; lia|constructor].
Qed.

Lemma in_step_add_files paths d : in_step d → in_step (_add_files paths d).
Proof.
  unfold _add_files. revert d.
  induction paths as [|p paths IH]; intros d Hd; [done|].
  simpl. apply IH. by apply in_step_add_path.
Qed.

Lemma remove_item_spec d it :
  in_step d →
  in_step (remove_item d it)
  ∧ listw (remove_item d it) = filter (λ x, x.1 ≠ it) (listw d).
Proof.
  intros (Hsync & Hnd & Hne & Hids & Hlt).
  pose proof (delete_found it (listw d) Hids) as Hfound.
  unfold remove_item, row.
  destruct (list_find _ (listw d)) as [[r x]|] eqn:Hfind; simpl.
  - apply list_find_Some in Hfind as (Hat & _ & _).
    assert (r < length (files d))%nat as Hr.
    { rewrite Hsync. unfold shown. rewrite length_fmap.
      by eapply lookup_lt_Some. }
    rewrite decide_True by done. split; [|done].
    unfold in_step, shown in *. simpl. repeat split.
    + by rewrite list_fmap_delete, Hsync.
    + eapply sublist_NoDup; [exact Hnd|apply sublist_delete].
    + intros Hin. apply Hne.
      eapply elem_of_sublist; [exact Hin|apply sublist_delete].
    + rewrite list_fmap_delete.
      eapply sublist_NoDup; [exact Hids|apply sublist_delete].
    + rewrite Forall_forall in Hlt |- *. intros y Hy. apply Hlt.
      eapply elem_of_sublist; [exact Hy|apply sublist_delete].
  - split; [done|]. by rewrite Hfound.
Qed.

Lemma remove_selected_spec selected d :
  in_step d →
  in_step (_remove_selected selected d)
  ∧ listw (_remove_selected selected d)
    = filter (λ x, x.1 ∉ selected) (listw d).
Proof.
  unfold _remove_selected. revert d.
  induction selected as [|it selected IH]; intros d Hd.
  - split; [done|]. simpl. symmetry. apply filter_all.
    apply Forall_forall. by intros x _ ?%elem_of_nil.
  - simpl. destruct (remove_item_spec d it Hd) as [Hd' Hl'].
    destruct (IH _ Hd') as [Hd'' Hl'']. split; [done|].
    rewrite Hl'', Hl', list_filter_filter. apply list_filter_iff.
    intros x. rewrite not_elem_of_cons. tauto.
Qed.

Lemma in_step_run ops : in_step (run ops).
Proof.
  induction ops as [|o ops IH] using rev_ind; [apply in_step_init|].
  unfold run in *. rewrite foldl_app. simpl.
  destruct o as [paths|selected|]; simpl.
  - by apply in_step_add_files.
  - by apply remove_selected_spec.
  - destruct IH as (_ & _ & _ & _ & _). unfold in_step, shown. simpl.
    repeat split; try (by apply NoDup_nil); [|by constructor].
    by intros ?%elem_of_nil.
Qed.

(** X18. However files are added, selected rows removed and the list
    cleared, [self.files] holds exactly the texts the list widget shows,
    row for row, so the batch operations work on what the user sees; no
    path is listed twice and no listed path is empty. *)
Theorem files_follow_the_list ops :
  files (run ops) = shown (run ops)
  ∧ NoDup (files (run ops))
  ∧ ([] ∉ files (run ops)).
Proof.
  destruct (in_step_run ops) as (? & ? & ? & _). done.
Qed.

(** X19. [_remove_selected] removes exactly the rows of the selected items
    from the widget and the paths they show from [self.files], and keeps
    the others in their order. *)
Theorem remove_selected_removes_selection ops selected :
  let d := run ops in
  let d' := _remove_selected selected d in
  listw d' = filter (λ x, x.1 ∉ selected) (listw d)
  ∧ files d' = snd <$> filter (λ x, x.1 ∉ selected) (listw d).
Proof.
  intros d d'. subst d d'.
  destruct (remove_selected_spec selected (run ops) (in_step_run ops))
    as [(Hsync & _) Hl].
  split; [done|]. rewrite Hsync. unfold shown. by rewrite Hl.
Qed.

End MetaListFacts.

(** * The analysis thread *)

Module AnalysisFacts.

Import Py Analysis.

Section Thread.

Context {D : Type}.
Variable file_path : str.
Variable path_exists : bool.
Variable opened : first_bytes.
Variable getsize : outcome Z.
Variable size_text : Z → str.
Variable json_run : ffprobe.
Variable basic_run : ffprobe.
Variable json_loads : str → decoded D.
Variable parse_ffprobe_output : D → outcome info.
Variable parse_basic : str → outcome info.
Variable running_at : nat → bool.

Local Notation basic := (get_basic_media_info basic_run parse_basic).
Local Notation media :=
  (get_media_info json_run basic_run json_loads parse_ffprobe_output
     parse_basic).
Local Notation attempt :=
  (get_media_info_try json_run basic_run json_loads parse_ffprobe_output
     parse_basic).
Local Notation file :=
  (get_file_info file_path getsize size_text).
Local Notation thread :=
  (run file_path path_exists opened getsize size_text json_run basic_run
     json_loads parse_ffprobe_output parse_basic running_at).

Lemma try_except_raises {A} (body : outcome A) handler e :
  try_except body handler = Raise e →
  (body = Raise BaseOnly ∧ e = BaseOnly)
  ∨ ∃ message, body = Raise (Error message) ∧ handler message = Raise e.
Proof.
  destruct body as [a|[message|]]; simpl; intros Hr; try done.
  - right. by exists message.
  - left. by injection Hr as <-.
Qed.

Lemma basic_never_errors e : basic = Raise e → e = BaseOnly.
Proof.
  unfold get_basic_media_info.
  intros [[_ ->]|(message & _ & Hh)]%try_except_raises; done.
Qed.

(** X20. [get_media_info] answers a failure of its first attempt (of
    starting [ffprobe], of waiting for it, of its return code or output, of
    decoding or of reading the decoded data) with what
    [get_basic_media_info] returns, unless the text of the exception
    contains the word for a timeout: then the exception is raised again.
    The fallback never raises an [Exception] itself, so an [Exception] that
    leaves [get_media_info] is the one of the first attempt and names a
    timeout, apart from the case that something which is no [Exception]
    interrupts the fallback. *)
Theorem media_info_raises_only_timeouts :
  (∀ m fallback,
     attempt = Raise (Error m) → contains timeout_word m = false →
     basic = Return fallback → media = Return fallback)
  ∧ (∀ m,
       attempt = Raise (Error m) → contains timeout_word m = true →
       media = Raise (Error m))
  ∧ (∀ m, basic ≠ Raise (Error m))
  ∧ (∀ message,
       media = Raise (Error message) →
       attempt = Raise (Error message)
       ∧ (contains timeout_word message = true ∨ basic = Raise BaseOnly)).
Proof.
  split; [|split; [|split]].
  - intros m fallback Ha Hc Hb. unfold get_media_info.
    rewrite Ha. simpl. rewrite Hc. fold basic. by rewrite Hb.
  - intros m Ha Hc. unfold get_media_info. rewrite Ha. simpl. by rewrite Hc.
  - intros m Hb. by apply basic_never_errors in Hb.
  - intros message. unfold get_media_info at 1.
    intros [[_ [=]]|(m & Ha & Hh)]%try_except_raises.
    destruct (contains timeout_word m) eqn:Hc.
    + injection Hh as ->. split; [done|by left].
    + destruct basic as [b|e] eqn:Hb; [done|].
      injection Hh as ->. split; [done|]. right.
      by rewrite (basic_never_errors e Hb).
Qed.

Lemma run_handler_shape k emitted e :
  (run_handler running_at k emitted e).1 = emitted
  ∨ ∃ m, (run_handler running_at k emitted e).1
         = emitted ++ [error_occurred m].
Proof.
  destruct e as [message|]; simpl; [|by left].
  destruct (running_at k); [right; by eexists|by left].
Qed.

Lemma lit_small (s : string) (c : N) : c ∈ lit s → (c < 256)%N.
Proof.
  unfold lit. intros (a & -> & _)%list_elem_of_fmap. apply N_ascii_bounded.
Qed.

Lemma contains_after (a b : N) (front back : str) :
  a ∉ front →
  contains [a; b] (front ++ back) = contains [a; b] back.
Proof.
  induction front as [|c front IH]; intros Hfront; [done|].
  apply not_elem_of_cons in Hfront as [Hne Hfront].
  change (contains [a; b] ((c :: front) ++ back))
    with (startswith [a; b] (c :: front ++ back)
          || contains [a; b] (front ++ back)).
  rewrite (IH Hfront). cbn [startswith].
  by rewrite (proj2 (N.eqb_neq a c) Hne).
Qed.

(** X21. When [ffprobe] ends with a return code other than 0 and what it
    wrote to its error stream does not contain the word for a timeout, no
    error reaches the caller: [get_media_info] answers with what
    [get_basic_media_info] returns. *)
Theorem failed_ffprobe_falls_back (returncode : Z) (stdout stderr : str)
    (fallback : info) :
  popen json_run = None →
  communicate json_run = Completed returncode stdout stderr →
  returncode ≠ 0 →
  contains timeout_word stderr = false →
  basic = Return fallback →
  media = Return fallback.
Proof.
  intros Hp Hc Hrc Herr Hb. unfold get_media_info, get_media_info_try.
  rewrite Hp, Hc.
  rewrite (proj2 (Z.eqb_neq returncode 0) Hrc). cbn [negb try_except].
  set (error_msg := if decide (stderr = []) then unknown_error else stderr).
  assert (Hmsg : contains timeout_word error_msg = false).
  { unfold error_msg. by destruct (decide (stderr = [])). }
  assert (Hfree : contains timeout_word
            (failed_prefix ++ lit (pretty returncode) ++ lit "): "
             ++ error_msg) = false).
  { rewrite !app_assoc. unfold timeout_word.
    rewrite contains_after; [exact Hmsg|].
    intros [[Hin|Hin]%elem_of_app|Hin]%elem_of_app.
    - revert Hin. unfold failed_prefix.
      rewrite !elem_of_cons, elem_of_nil. intros Hin.
      repeat destruct Hin as [Hin|Hin]; done.
    - by apply lit_small in Hin.
    - by apply lit_small in Hin. }
  rewrite Hfree. fold basic. by rewrite Hb.
Qed.

(** The shape of every run, with what the flag was at the checks passed. *)
Lemma run_shape :
  ∃ (k : nat) (tail : list signal),
    thread.1 = (progress_updated <$> take k milestones) ++ tail
    ∧ (∀ i, (i < k)%nat → running_at i = true)
    ∧ (tail = []
       ∨ (∃ m, tail = [error_occurred m] ∧ (k ≤ 2)%nat)
       ∨ (k = 4%nat
          ∧ ∃ file_info media_info,
              file = Return file_info ∧ media = Return media_info
              ∧ tail = [analysis_finished (media_info ∪ file_info)])).
Proof.
  assert (Hend : ∀ (k : nat) emitted e,
    (k ≤ 2)%nat →
    ∃ tail, (run_handler running_at k emitted e).1 = emitted ++ tail
            ∧ (tail = [] ∨ (∃ m, tail = [error_occurred m] ∧ (k ≤ 2)%nat))).
  { intros k emitted e Hk.
    destruct (run_handler_shape k emitted e) as [->|[m ->]].
    - exists []. split; [by rewrite app_nil_r|by left].
    - exists [error_occurred m]. split; [done|]. right. by exists m. }
  unfold run. destruct path_exists; simpl.
  2:{ exists 0%nat. eexists. split; [done|]. split; [lia|]. right. left.
      eexists. split; [done|lia]. }
  destruct opened as [| | |e].
  - exists 0%nat. eexists. split; [done|]. split; [lia|]. right. left.
    eexists. split; [done|lia].
  - destruct (running_at 0) eqn:H0; simpl.
    2:{ exists 0%nat, []. split; [done|]. split; [lia|by left]. }
    assert (H0' : ∀ i, (i < 1)%nat → running_at i = true).
    { intros i Hi. by replace i with 0%nat by lia. }
    destruct file as [file_info|e]; simpl.
    2:{ destruct (Hend 1%nat [progress_updated 10] e) as (tail & -> & Ht);
          [lia|].
        exists 1%nat, tail. split; [done|]. split; [done|].
        destruct Ht as [->|?]; [by left|by right; left]. }
    destruct (running_at 1) eqn:H1; simpl.
    2:{ exists 1%nat, []. split; [done|]. split; [done|by left]. }
    assert (H1' : ∀ i, (i < 2)%nat → running_at i = true).
    { intros i Hi. destruct i as [|[|i]]; [done|done|lia]. }
    destruct media as [media_info|e]; simpl.
    2:{ destruct (Hend 2%nat [progress_updated 10; progress_updated 30] e)
          as (tail & -> & Ht); [lia|].
        exists 2%nat, tail. split; [done|]. split; [done|].
        destruct Ht as [->|?]; [by left|by right; left]. }
    destruct (running_at 2) eqn:H2; simpl.
    2:{ exists 2%nat, []. split; [done|]. split; [done|by left]. }
    destruct (running_at 3) eqn:H3; simpl.
    2:{ exists 3%nat, []. split; [done|]. split; [|by left].
        intros i Hi. destruct i as [|[|[|i]]]; [done|done|done|lia]. }
    exists 4%nat. eexists. split; [done|]. split.
    { intros i Hi. destruct i as [|[|[|[|i]]]]; [done|done|done|done|lia]. }
    right. right. split; [done|]. by exists file_info, media_info.
  - exists 0%nat. eexists. split; [done|]. split; [lia|]. right. left.
    eexists. split; [done|lia].
  - destruct (Hend 0%nat [] e) as (tail & -> & Ht); [lia|].
    exists 0%nat, tail. split; [done|]. split; [lia|].
    destruct Ht as [->|?]; [by left|by right; left].
Qed.

(** X22. Whatever the file system, [ffprobe] and the stop flag do, a run
    emits the progress values 10, 30, 70, 100 in this order up to some
    point, and after them nothing, or one error, or, after all four, the
    one result, which is the file's dict overlaid with the media dict. No
    run emits both an error and a result, or either twice. *)
Theorem run_emits_progress_then_one_end :
  ∃ (k : nat) (tail : list signal),
    thread.1 = (progress_updated <$> take k milestones) ++ tail
    ∧ (tail = []
       ∨ (∃ m, tail = [error_occurred m] ∧ (k ≤ 2)%nat)
       ∨ (k = 4%nat
          ∧ ∃ file_info media_info,
              file = Return file_info ∧ media = Return media_info
              ∧ tail
                = [analysis_finished (merge_info file_info media_info)])).
Proof.
  destruct run_shape as (k & tail & Hrun & _ & Hend). by exists k, tail.
Qed.

(** X23. If the thread finds the stop flag set at one of its four checks,
    it emits no result, and no progress value beyond those before that
    check. *)
Theorem stopped_run_emits_no_result (j : nat) :
  (j ≤ 3)%nat → running_at j = false →
  (∀ result, analysis_finished result ∉ thread.1)
  ∧ (∀ v, progress_updated v ∈ thread.1 → v ∈ take j milestones).
Proof.
  intros Hj Hstop.
  destruct run_shape as (k & tail & -> & Hflags & Hend).
  assert (Hk : (k ≤ j)%nat).
  { destruct (decide (k ≤ j)%nat) as [|Hgt]; [done|].
    rewrite Hflags in Hstop by lia. done. }
  assert (Htail : ∀ s, s ∈ tail → ∃ m, s = error_occurred m).
  { intros s Hs. destruct Hend as [->|[(m & -> & _)|(-> & _)]]; [|     |lia].
    - by apply elem_of_nil in Hs.
    - apply list_elem_of_singleton in Hs. by exists m. }
  split.
  - intros result [Hin|Hin]%elem_of_app.
    + by apply list_elem_of_fmap in Hin as (v & [=] & _).
    + by destruct (Htail _ Hin) as [m [=]].
  - intros v [Hin|Hin]%elem_of_app.
    + apply list_elem_of_fmap in Hin as (v' & [= <-] & Hin).
      rewrite <- (Nat.min_l k j Hk), <- take_take in Hin.
      eapply elem_of_sublist; [exact Hin|apply sublist_take].
    + by destruct (Htail _ Hin) as [m [=]].
Qed.

(** X24. When [ffprobe] cannot be started, a file that is there and can be
    read is not reported as an error: if the thread is not stopped, it
    emits the four progress values and then a result in which every media
    field says that parsing failed. *)
Theorem missing_ffprobe_is_no_error (file_size : Z) (m1 m2 : str) :
  path_exists = true → opened = SomeBytes → getsize = Return file_size →
  (∀ i, running_at i = true) →
  popen json_run = Some (Error m1) → contains timeout_word m1 = false →
  popen basic_run = Some (Error m2) →
  ∃ file_info,
    file = Return file_info
    ∧ thread = ((progress_updated <$> milestones)
                ++ [analysis_finished (failed_info ∪ file_info)], None).
Proof.
  intros Hex Hop Hsize Hrun Hp1 Hc Hp2.
  assert (Hb : basic = Return failed_info).
  { unfold get_basic_media_info. by rewrite Hp2. }
  assert (Hm : media = Return failed_info).
  { unfold get_media_info, get_media_info_try. rewrite Hp1. simpl.
    rewrite Hc.
    fold basic. by rewrite Hb. }
  unfold run. rewrite Hex, Hop, !Hrun. simpl.
  unfold get_file_info in *. rewrite Hsize.
  destruct (FileInfo.title_subtitle file_path) as [title subtitle].
  eexists. split; [done|]. by rewrite Hm.
Qed.

End Thread.

Lemma media_info_raises_only_timeouts_witness :
  let loads : str → decoded unit := λ _, JSONDecodeError in
  let parse : unit → outcome info := λ _, Return ∅ in
  let lines : str → outcome info := λ _, Return ∅ in
  let silent := Ffprobe None (Completed 0 [] []) None in
  get_media_info_try silent not_installed loads parse lines
  = Raise (Error empty_message)
  ∧ contains timeout_word empty_message = false
  ∧ get_basic_media_info not_installed lines = Return failed_info
  ∧ get_media_info silent not_installed loads parse lines
    = Return failed_info.
Proof.
  intros loads parse lines silent.
  assert (get_media_info_try silent not_installed loads parse lines
          = Raise (Error empty_message)) as Hfail by reflexivity.
  assert (contains timeout_word empty_message = false) as Hword
    by reflexivity.
  assert (get_basic_media_info not_installed lines = Return failed_info)
    as Hbasic by reflexivity.
  split; [exact Hfail|]. split; [exact Hword|]. split; [exact Hbasic|].
  exact (proj1 (media_info_raises_only_timeouts silent not_installed loads
                  parse lines)
           empty_message failed_info Hfail Hword Hbasic).
Defined.

Lemma failed_ffprobe_falls_back_witness :
  let loads : str → decoded unit := λ _, JSONDecodeError in
  let parse : unit → outcome info := λ _, Return ∅ in
  let lines : str → outcome info := λ _, Return ∅ in
  let failing :=
    Ffprobe None (Completed 1 [] (lit "a.mp4: Invalid data found")) None in
  contains timeout_word (lit "a.mp4: Invalid data found") = false
  ∧ get_media_info failing not_installed loads parse lines
    = Return failed_info.
Proof.
  intros loads parse lines failing.
  assert (contains timeout_word (lit "a.mp4: Invalid data found") = false)
    as Hword by reflexivity.
  assert (1 ≠ 0) as Hrc by lia.
  split; [exact Hword|].
  exact (failed_ffprobe_falls_back failing not_installed loads parse lines
           1 [] (lit "a.mp4: Invalid data found") failed_info
           eq_refl eq_refl Hrc Hword eq_refl).
Defined.

Lemma stopped_run_emits_no_result_witness :
  let loads : str → decoded unit := λ _, JSONDecodeError in
  let parse : unit → outcome info := λ _, Return ∅ in
  let lines : str → outcome info := λ _, Return ∅ in
  let flag : nat → bool := λ i, (i <? 2)%nat in
  let thread :=
    run (lit "/v/a_b.mp4") true SomeBytes (Return 1048576) (λ _, lit "1.00 MB")
      not_installed not_installed loads parse lines flag in
  flag 2%nat = false
  ∧ (∀ result, analysis_finished result ∉ thread.1)
  ∧ (∀ v, progress_updated v ∈ thread.1 → v ∈ take 2 milestones).
Proof.
  intros loads parse lines flag thread.
  assert (2 ≤ 3)%nat as Hj by lia.
  assert (flag 2%nat = false) as Hstop by reflexivity.
  split; [exact Hstop|].
  exact (stopped_run_emits_no_result (lit "/v/a_b.mp4") true SomeBytes
           (Return 1048576) (λ _, lit "1.00 MB") not_installed not_installed
           loads parse lines flag 2 Hj Hstop).
Defined.

Lemma missing_ffprobe_is_no_error_witness :
  let loads : str → decoded unit := λ _, JSONDecodeError in
  let parse : unit → outcome info := λ _, Return ∅ in
  let lines : str → outcome info := λ _, Return ∅ in
  let flag : nat → bool := λ _, true in
  let text : Z → str := λ _, lit "1.00 MB" in
  let message := lit "[Errno 2] No such file or directory: 'ffprobe'" in
  contains timeout_word message = false
  ∧ ∃ file_info,
      get_file_info (lit "/v/a_b.mp4") (Return 1048576) text
      = Return file_info
      ∧ run (lit "/v/a_b.mp4") true SomeBytes (Return 1048576) text
          not_installed not_installed loads parse lines flag
        = ((progress_updated <$> milestones)
           ++ [analysis_finished (failed_info ∪ file_info)], None).
Proof.
  intros loads parse lines flag text message.
  assert (contains timeout_word message = false) as Hword by reflexivity.
  split; [exact Hword|].
  exact (missing_ffprobe_is_no_error (lit "/v/a_b.mp4") true SomeBytes
           (Return 1048576) text not_installed not_installed loads parse
           lines flag 1048576 message message eq_refl eq_refl eq_refl
           (λ _, eq_refl) eq_refl Hword eq_refl).
Defined.

End AnalysisFacts.
